(** * Verification of the search query engine (lib/searchParser.ts)

    The development embeds [SearchParser] — [parse], [filter], [highlight],
    [getSuggestions] and [validateQuery] — together with the part of the
    JavaScript runtime those methods rely on: strings of code units, the
    [String.prototype] helpers and a backtracking regular-expression matcher
    that follows the ECMAScript matcher semantics (continuation passing,
    greedy and lazy repetition, capture groups, lookahead, word boundaries).

    Strings are lists of code units.  Code units are modelled by [ascii], so
    the model covers strings whose code units lie below 256 (Latin-1); the
    character classes and case mappings below are the ECMAScript ones
    restricted to that range.  [getSuggestions], whose guard measures a
    lower-cased string, is embedded a second time over 16-bit code units
    (module [Utf16]), where lower-casing can change the length of a string;
    the two embeddings agree on Latin-1 strings.

    The field map of a parsed query is a finite map.  A call either
    completes normally or throws a [TypeError]; [parse] is shown to always
    complete normally.  [Date] belongs to the runtime and depends on its
    time zone: the evaluator takes date parsing and date printing as
    parameters, and its properties hold for every runtime. *)

From Stdlib Require Import Ascii List ZArith NArith Lia Bool.
From stdpp Require Import gmap strings list fin_maps.

(** ** String literals *)

(** String literals are read as lists of code units, through this carrier. *)
Inductive jslit := JNil | JCons (a : ascii) (t : jslit).

Fixpoint jslit_of_bytes (b : list Byte.byte) : jslit :=
  match b with
  | [] => JNil
  | x :: t => JCons (ascii_of_byte x) (jslit_of_bytes t)
  end.

Fixpoint bytes_of_jslit (s : jslit) : list Byte.byte :=
  match s with
  | JNil => []
  | JCons a t => byte_of_ascii a :: bytes_of_jslit t
  end.

Declare Scope js_scope.
Delimit Scope js_scope with js.
Abbreviation jsstring := (list ascii).
#[warnings="-via-type-mismatch"] String Notation list jslit_of_bytes bytes_of_jslit (via jslit mapping [[nil] => JNil, [cons] => JCons]) : js_scope.
Open Scope js_scope.

(** ** Character classes and case mapping *)

Module Char.

(** The code of a code unit. *)
Definition code (a : ascii) : N := N_of_ascii a.

(** The range [lo-hi] of a bracket class. *)
Definition between (lo hi : N) (a : ascii) : bool :=
  (lo <=? code a)%N && (code a <=? hi)%N.

(** [\s] and the characters removed by [trim]: TAB, LF, VT, FF, CR, SP, NBSP. *)
Definition is_space (a : ascii) : bool :=
  between 9 13 a || (code a =? 32)%N || (code a =? 160)%N.

(** [\w]: [A-Za-z0-9_]. *)
Definition is_word (a : ascii) : bool :=
  between 65 90 a || between 97 122 a || between 48 57 a || (code a =? 95)%N.

(** [.] matches everything but line terminators. *)
Definition is_line_terminator (a : ascii) : bool :=
  (code a =? 10)%N || (code a =? 13)%N.

Definition is_dot (a : ascii) : bool := negb (is_line_terminator a).

(** The pattern character [c]. *)
Definition eq (c : ascii) (a : ascii) : bool := bool_decide (a = c).

(** Membership in a bracket class given by its characters. *)
Definition one_of (cs : jsstring) (a : ascii) : bool := bool_decide (a ∈ cs).

(** The letters changed by [toLowerCase] and by [toUpperCase]. *)
Definition is_upper (a : ascii) : bool :=
  between 65 90 a || between 192 214 a || between 216 222 a.

Definition is_lower (a : ascii) : bool :=
  between 97 122 a || between 224 246 a || between 248 254 a.

(** Lower-casing of a single code unit. *)
Definition toLower (a : ascii) : ascii :=
  if is_upper a then ascii_of_N (code a + 32) else a.

(** Upper-casing of a single code unit.  The three Latin-1 letters whose
    upper case is not a single Latin-1 code unit (U+00DF, U+00FF, U+00B5)
    are left in place; they are the only representatives of their case
    class below 256. *)
Definition toUpper (a : ascii) : ascii :=
  if is_lower a then ascii_of_N (code a - 32) else a.

(** Canonicalize of the ECMAScript matcher, used under the [i] flag. *)
Definition canonicalize (a : ascii) : ascii := toUpper a.

(** The pattern character [c] under the [i] flag. *)
Definition is_ci (c : ascii) (a : ascii) : bool :=
  bool_decide (canonicalize a = canonicalize c).

End Char.

(** ** Regular expressions *)

Module Regex.

(** The patterns of the source: a character class, sequence, alternative,
    greedy or lazy repetition, capture group, lookahead, [^], [$] and [\b].
    No group of the source stands inside a repetition. *)
Inductive regex : Type :=
| Eps
| Chr (p : ascii -> bool)
| Seq (r1 r2 : regex)
| Alt (r1 r2 : regex)
| Star (greedy : bool) (r : regex)
| Group (i : nat) (r : regex)
| Look (r : regex)
| Bol
| Eol
| WordB.

Infix ">>" := Seq (at level 60, right associativity).

(** [r+] *)
Definition Plus (r : regex) : regex := r >> Star true r.

(** A position: the code units already consumed (most recent first) and the
    code units still ahead. *)
Definition pos : Type := jsstring * jsstring.

Abbreviation caps := (gmap nat jsstring).

Definition behind (x : pos) : jsstring := fst x.
Definition ahead (x : pos) : jsstring := snd x.

(** The text between two positions of the same input. *)
Definition span (x x' : pos) : jsstring :=
  take (length (ahead x) - length (ahead x')) (ahead x).

(** The tests of [\b]: is there a word character just behind, just ahead. *)
Definition word_before (x : pos) : bool :=
  match behind x with a :: _ => Char.is_word a | [] => false end.

Definition word_after (x : pos) : bool :=
  match ahead x with a :: _ => Char.is_word a | [] => false end.

(** A continuation: the rest of the match, failing with [None]. *)
Definition cont (R : Type) : Type := pos -> caps -> option R.

(** Backtracking: the first alternative that succeeds. *)
Definition orelse {R : Type} (a : option R) (b : option R) : option R :=
  match a with Some y => Some y | None => b end.

(** Repetition of a body matcher [body].  An iteration that consumes nothing
    is rejected, so the number of iterations is bounded by the length of the
    remaining input, which is the initial value of [n]. *)
Fixpoint repeat_loop {R : Type} (body : pos -> caps -> cont R -> option R)
  (greedy : bool) (k : cont R) (n : nat) (x : pos) (c : caps) {struct n}
  : option R :=
  let iter :=
    match n with
    | O => None
    | S n' =>
        body x c (fun x' c' =>
          if length (ahead x') <? length (ahead x)
          then repeat_loop body greedy k n' x' c' else None)
    end in
  if greedy then orelse iter (k x c) else orelse (k x c) iter.

(** The backtracking matcher.  A lookahead runs its body to the first
    success and keeps the captures, not the position. *)
Fixpoint m {R : Type} (r : regex) (x : pos) (c : caps) (k : cont R) {struct r}
  : option R :=
  match r with
  | Eps => k x c
  | Chr p =>
      match ahead x with
      | a :: rest => if p a then k (a :: behind x, rest) c else None
      | [] => None
      end
  | Seq r1 r2 => m r1 x c (fun x' c' => m r2 x' c' k)
  | Alt r1 r2 => orelse (m r1 x c k) (m r2 x c k)
  | Star greedy r1 => repeat_loop (m r1) greedy k (length (ahead x)) x c
  | Group i r1 => m r1 x c (fun x' c' => k x' (<[i := span x x']> c'))
  | Look r1 =>
      match m r1 x c (fun _ c' => Some c') with
      | Some c' => k x c'
      | None => None
      end
  | Bol => match behind x with [] => k x c | _ :: _ => None end
  | Eol => match ahead x with [] => k x c | _ :: _ => None end
  | WordB => if xorb (word_before x) (word_after x) then k x c else None
  end.

(** One attempt at a fixed position. *)
Definition exec_at (r : regex) (x : pos) : option (pos * caps) :=
  m r x ∅ (fun x' c => Some (x', c)).

(** The leftmost match at or after a position: start, end, captures. *)
Fixpoint search (r : regex) (pre : jsstring) (suf : jsstring)
  : option (pos * pos * caps) :=
  match exec_at r (pre, suf) with
  | Some (x', c) => Some ((pre, suf), x', c)
  | None =>
      match suf with
      | [] => None
      | a :: suf' => search r (a :: pre) suf'
      end
  end.

End Regex.

(** ** String.prototype *)

Module JS.
Import Regex.

(** The double and the single quote. *)
Definition dquote : ascii := ascii_of_N 34.
Definition squote : ascii := ascii_of_N 39.

(** [s.trim()], from both ends. *)
Fixpoint trimStart (s : jsstring) : jsstring :=
  match s with
  | a :: t => if Char.is_space a then trimStart t else s
  | [] => []
  end.

Definition trimEnd (s : jsstring) : jsstring := rev (trimStart (rev s)).

Definition trim (s : jsstring) : jsstring := trimEnd (trimStart s).

(** [s.toLowerCase()] and [s.toUpperCase()] *)
Definition toLowerCase (s : jsstring) : jsstring := map Char.toLower s.

Definition toUpperCase (s : jsstring) : jsstring := map Char.toUpper s.

(** [s.startsWith(p)] *)
Fixpoint startsWith (p s : jsstring) : bool :=
  match p, s with
  | [], _ => true
  | a :: p', b :: s' => bool_decide (a = b) && startsWith p' s'
  | _ :: _, [] => false
  end.

(** [s.includes(t)] *)
Fixpoint includes (s t : jsstring) : bool :=
  startsWith t s ||
  match s with
  | [] => false
  | _ :: s' => includes s' t
  end.

(** [s.indexOf(c)] for a one-character search string; [-1] when absent. *)
Fixpoint indexOf (s : jsstring) (c : ascii) : Z :=
  match s with
  | [] => -1
  | a :: s' =>
      if bool_decide (a = c) then 0
      else let i := indexOf s' c in if (i <? 0)%Z then -1 else i + 1
  end%Z.

(** An index argument brought into [0, len]. *)
Definition clamp (n : Z) (len : nat) : nat :=
  Z.to_nat (Z.min (Z.max n 0) (Z.of_nat len)).

(** [s.substring(a, b)]; [b = None] stands for the one-argument call. *)
Definition substring (s : jsstring) (a : Z) (b : option Z) : jsstring :=
  let i := clamp a (length s) in
  let j := match b with Some b => clamp b (length s) | None => length s end in
  take (Nat.max i j - Nat.min i j) (drop (Nat.min i j) s).

(** [s.split(c)] for a one-character separator. *)
Fixpoint split_char (c : ascii) (s : jsstring) : list jsstring :=
  match s with
  | [] => [ [] ]
  | a :: s' =>
      if bool_decide (a = c) then [] :: split_char c s'
      else match split_char c s' with
           | w :: ws => (a :: w) :: ws
           | [] => [ [a] ]
           end
  end.

(** [l.join(sep)] *)
Fixpoint join (sep : jsstring) (l : list jsstring) : jsstring :=
  match l with
  | [] => []
  | [w] => w
  | w :: ws => w ++ sep ++ join sep ws
  end.

(** [s.replace(pat, rep)] with a string pattern: the first occurrence only.
    The replacement is taken literally (the source passes the empty
    string). *)
Fixpoint replace_first (pat rep s : jsstring) : jsstring :=
  if startsWith pat s then rep ++ drop (length pat) s
  else match s with
       | [] => []
       | a :: s' => a :: replace_first pat rep s'
       end.

(** Replacement templates: literal text, [$&] and [$n]. *)
Inductive tpart : Type :=
| TLit (s : jsstring)
| TWhole
| TGroup (i : nat).

(** The replacement text for one match; a group that took no part in the
    match stands for the empty string. *)
Definition subst1 (whole : jsstring) (c : caps) (p : tpart) : jsstring :=
  match p with
  | TLit s => s
  | TWhole => whole
  | TGroup i => default [] (c !! i)
  end.

Definition subst (tmpl : list tpart) (whole : jsstring) (c : caps) : jsstring :=
  concat (map (subst1 whole c) tmpl).

(** Global iteration: after an empty match the scan moves on by one code
    unit, as [lastIndex] does. *)
Fixpoint match_loop (r : regex) (fuel : nat) (pre suf : jsstring)
  : list jsstring :=
  match fuel with
  | O => []
  | S fuel' =>
      match search r pre suf with
      | None => []
      | Some (st, en, _) =>
          span st en ::
          (if bool_decide (span st en = [])
           then match ahead en with
                | [] => []
                | a :: rest => match_loop r fuel' (a :: behind en) rest
                end
           else match_loop r fuel' (behind en) (ahead en))
      end
  end.

(** [s.match(r)] for a regex with the [g] flag: [null] when nothing matches. *)
Definition match_all (r : regex) (s : jsstring) : option (list jsstring) :=
  match match_loop r (S (length s)) [] s with
  | [] => None
  | l => Some l
  end.

(** [s.match(r)] without the [g] flag: the match array, index 0 holding the
    matched text; [null] when nothing matches. *)
Definition match_first (r : regex) (s : jsstring) : option caps :=
  match search r [] s with
  | None => None
  | Some (st, en, c) => Some (<[0 := span st en]> c)
  end.

(** The text up to each match, the replacement of the match, and so on. *)
Fixpoint replace_loop (r : regex) (tmpl : list tpart) (fuel : nat)
  (pre suf : jsstring) : jsstring :=
  match fuel with
  | O => suf
  | S fuel' =>
      match search r pre suf with
      | None => suf
      | Some (st, en, c) =>
          span (pre, suf) st ++ subst tmpl (span st en) c ++
          (if bool_decide (span st en = [])
           then match ahead en with
                | [] => []
                | a :: rest => a :: replace_loop r tmpl fuel' (a :: behind en) rest
                end
           else replace_loop r tmpl fuel' (behind en) (ahead en))
      end
  end.

(** [s.replace(r, tmpl)] for a regex with the [g] flag. *)
Definition replace_all (r : regex) (tmpl : list tpart) (s : jsstring) : jsstring :=
  replace_loop r tmpl (S (length s)) [] s.

(** The pieces between the matches. *)
Fixpoint split_loop (r : regex) (fuel : nat) (pre suf : jsstring)
  : list jsstring :=
  match fuel with
  | O => [suf]
  | S fuel' =>
      match search r pre suf with
      | None => [suf]
      | Some (st, en, _) =>
          span (pre, suf) st :: split_loop r fuel' (behind en) (ahead en)
      end
  end.

(** [s.split(r)] for a regex without groups that cannot match the empty
    string (the only use in the source is [/\s+/]). *)
Definition split (r : regex) (s : jsstring) : list jsstring :=
  split_loop r (S (length s)) [] s.

End JS.

(** ** The data model *)

(** [string | string[]] *)
Inductive FieldValue : Type :=
| VString (s : jsstring)
| VArray (l : list jsstring).

(** An entry of [dateFilters].  At run time the operator is whatever the
    date pattern captured (the source casts it). *)
Record DateFilter : Type := mkDateFilter {
  field : jsstring;
  operator : jsstring;
  value : jsstring
}.

(** [ParsedQuery]; the optional members are options. *)
Record ParsedQuery : Type := mkParsedQuery {
  fields : gmap jsstring FieldValue;
  operators : list jsstring;
  fullText : option jsstring;
  dateFilters : option (list DateFilter)
}.

(** The members of [ContentItem] that the engine reads. *)
Record ContentItem : Type := mkContentItem {
  title : jsstring;
  contentType : jsstring;
  content : option jsstring;
  tags : list jsstring;
  createdAt : jsstring;
  updatedAt : jsstring
}.

(** Outcome of a call: a value, or a [TypeError] from reading a property of
    [undefined]. *)
Inductive completion (A : Type) : Type :=
| Normal (a : A)
| TypeError.
Arguments Normal {A} a.
Arguments TypeError {A}.

#[global] Instance completion_bind : MBind completion :=
  fun A B f x =>
    match x with
    | Normal a => f a
    | TypeError => TypeError
    end.

(** [l.forEach(f)] for a body that updates a local state and may throw. *)
Fixpoint forEach {A S : Type} (f : S -> A -> completion S) (l : list A) (s : S)
  : completion S :=
  match l with
  | [] => Normal s
  | a :: l' => s' ← f s a; forEach f l' s'
  end.

(** ** SearchParser *)

Module SearchParser.
Import Regex JS.

(** [\s], [[^\s]], [\w] and [:] *)
Definition space : regex := Chr Char.is_space.
Definition nonspace : regex := Chr (fun a => negb (Char.is_space a)).
Definition word : regex := Chr Char.is_word.
Definition colon : regex := Chr (Char.eq ":").

(** [/\s+/g] *)
Definition whitespaceRegex : regex := Plus space.

(** [/(\w+):\s*([^\s]+(?:\s+[^\s:]+)*?)(?=\s+\w+:|$)/g] *)
Definition fieldRegex : regex :=
  Group 1 (Plus word) >> colon >> Star true space >>
  Group 2 (Plus nonspace >>
           Star false (Plus space >>
                       Plus (Chr (fun a => negb (Char.is_space a || Char.eq ":" a))))) >>
  Look (Alt (Plus space >> Plus word >> colon) Eol).

(** The global regex of the quote removal: a double or single quote at the
    start, or a double or single quote at the end. *)
Definition quoteRegex : regex :=
  Alt (Bol >> Chr (Char.one_of [dquote; squote]))
      (Chr (Char.one_of [dquote; squote]) >> Eol).

(** [/([><=!]+)(.+)/] *)
Definition dateRegex : regex :=
  Group 1 (Plus (Chr (Char.one_of "><=!"))) >> Group 2 (Plus (Chr Char.is_dot)).

(** A literal under the [i] flag. *)
Definition lit_ci (s : jsstring) : regex :=
  foldr (fun a r => Chr (Char.is_ci a) >> r) Eps s.

(** [/\b(AND|OR|NOT)\b/gi] *)
Definition operatorRegex : regex :=
  WordB >> Group 1 (Alt (lit_ci "AND") (Alt (lit_ci "OR") (lit_ci "NOT"))) >> WordB.

(** [result.fields[field] = value]: an assignment to the key [__proto__]
    reaches the prototype setter, which ignores values that are not objects,
    and creates no own property. *)
Definition set_field (k : jsstring) (v : FieldValue) (q : ParsedQuery) : ParsedQuery :=
  if bool_decide (k = "__proto__") then q
  else mkParsedQuery (<[k := v]> (fields q)) (operators q) (fullText q) (dateFilters q).

(** [result.dateFilters?.push(d)] *)
Definition push_dateFilter (d : DateFilter) (q : ParsedQuery) : ParsedQuery :=
  mkParsedQuery (fields q) (operators q) (fullText q)
                ((fun l => l ++ [d]) <$> dateFilters q).

(** [result.operators = ops] and [result.fullText = t] *)
Definition set_operators (ops : list jsstring) (q : ParsedQuery) : ParsedQuery :=
  mkParsedQuery (fields q) ops (fullText q) (dateFilters q).

Definition set_fullText (t : jsstring) (q : ParsedQuery) : ParsedQuery :=
  mkParsedQuery (fields q) (operators q) (Some t) (dateFilters q).

(** The field name and the unquoted value of a matched clause. *)
Definition clause_field (mt : jsstring) : jsstring :=
  trim (substring mt 0 (Some (indexOf mt ":"))).

Definition clause_value (mt : jsstring) : jsstring :=
  replace_all quoteRegex [] (trim (substring mt (indexOf mt ":" + 1) None)).

(** The body of the first [fieldMatches.forEach]. *)
Definition classify (result : ParsedQuery) (mt : jsstring) : completion ParsedQuery :=
  let field := clause_field mt in
  let value := clause_value mt in
  if bool_decide (field = "created") || bool_decide (field = "updated") then
    match match_first dateRegex value with
    | Some dateMatch =>
        match dateMatch !! 2 with
        | Some v2 =>
            Normal (push_dateFilter
                      (mkDateFilter field (default [] (dateMatch !! 1)) (trim v2))
                      result)
        | None => TypeError  (* [dateMatch[2].trim()] on [undefined] *)
        end
    | None => Normal result
    end
  else if bool_decide (field = "tags") then
    if includes value ","
    then Normal (set_field field (VArray (map trim (split_char "," value))) result)
    else Normal (set_field field (VString value) result)
  else Normal (set_field field (VString value) result).

(** The initial [result] of [parse]. *)
Definition emptyResult : ParsedQuery := mkParsedQuery ∅ [] None (Some []).

(** [query.trim().replace(/\s+/g, ' ')] *)
Definition normalize (query : jsstring) : jsstring :=
  replace_all whitespaceRegex [TLit " "] (trim query).

(** [SearchParser.parse] *)
Definition parse (query : jsstring) : completion ParsedQuery :=
  let result := emptyResult in
  let normalizedQuery := normalize query in
  match match_all fieldRegex normalizedQuery with
  | Some fieldMatches =>
      result ← forEach classify fieldMatches result;
      let remainingQuery :=
        fold_left (fun rem mt => replace_first mt [] rem) fieldMatches normalizedQuery in
      let '(result, remainingQuery) :=
        match match_all operatorRegex remainingQuery with
        | Some operatorMatches =>
            (set_operators (map toUpperCase operatorMatches) result,
             trim (replace_all operatorRegex [] remainingQuery))
        | None => (result, remainingQuery)
        end in
      Normal (if bool_decide (trim remainingQuery = []) then result
              else set_fullText (trim remainingQuery) result)
  | None => Normal (set_fullText normalizedQuery result)
  end.

(** *** filter *)

Section Evaluator.
(** [Date] is provided by the runtime and depends on its time zone:
    [Date_parse s] is the time value of [new Date(s)], [None] standing for
    an invalid date (time value NaN); [Date_toDateString t] is
    [toDateString()] of a valid date. *)
Variable Date_parse : jsstring -> option Z.
Variable Date_toDateString : Z -> jsstring.

(** [d.toDateString()] *)
Definition toDateString (d : option Z) : jsstring :=
  match d with
  | Some t => Date_toDateString t
  | None => "Invalid Date"
  end.

(** [a < b] on dates: both are converted to numbers; NaN compares false. *)
Definition date_cmp (op : Z -> Z -> bool) (a b : option Z) : bool :=
  match a, b with
  | Some x, Some y => op x y
  | _, _ => false
  end.

(** [item.tags.some(tag => tag.toLowerCase().includes(v.toLowerCase()))] *)
Definition some_tag (item : ContentItem) (v : jsstring) : bool :=
  existsb (fun tag => includes (toLowerCase tag) (toLowerCase v)) (tags item).

(** The body of [Object.entries(parsedQuery.fields).forEach]. *)
Definition field_step (item : ContentItem) (matches : bool)
  (entry : jsstring * FieldValue) : bool :=
  let '(field, value) := entry in
  if bool_decide (field = "title") then
    match value with
    | VString v => matches && includes (toLowerCase (title item)) (toLowerCase v)
    | VArray _ => matches
    end
  else if bool_decide (field = "content") then
    match value, content item with
    | VString v, Some c =>
        if bool_decide (c = []) then matches
        else matches && includes (toLowerCase c) (toLowerCase v)
    | _, _ => matches
    end
  else if bool_decide (field = "type") then
    match value with
    | VString v => matches && bool_decide (contentType item = v)
    | VArray _ => matches
    end
  else if bool_decide (field = "tags") then
    match value with
    | VString v => matches && some_tag item v
    | VArray vs => matches && existsb (some_tag item) vs
    end
  else matches.

(** The body of [parsedQuery.dateFilters?.forEach]. *)
Definition date_step (item : ContentItem) (matches : bool) (dateFilter : DateFilter)
  : bool :=
  let itemDate :=
    Date_parse (if bool_decide (field dateFilter = "created")
                then createdAt item else updatedAt item) in
  let filterDate := Date_parse (value dateFilter) in
  let op := operator dateFilter in
  if bool_decide (op = ">") then matches && date_cmp Z.gtb itemDate filterDate
  else if bool_decide (op = "<") then matches && date_cmp Z.ltb itemDate filterDate
  else if bool_decide (op = ">=") then matches && date_cmp Z.geb itemDate filterDate
  else if bool_decide (op = "<=") then matches && date_cmp Z.leb itemDate filterDate
  else if bool_decide (op = "=") then
    matches && bool_decide (toDateString itemDate = toDateString filterDate)
  else matches.

(** The free-text check at the end of the callback. *)
Definition fullText_step (item : ContentItem) (matches : bool)
  (fullText : option jsstring) : bool :=
  match fullText with
  | Some t =>
      if bool_decide (t = []) then matches
      else
        let searchText := toLowerCase t in
        let fullTextMatch :=
          includes (toLowerCase (title item)) searchText ||
          match content item with
          | Some c => negb (bool_decide (c = [])) && includes (toLowerCase c) searchText
          | None => false
          end ||
          existsb (fun tag => includes (toLowerCase tag) searchText) (tags item) in
        matches && fullTextMatch
  | None => matches
  end.

(** The callback of [items.filter].  The entries of [fields] are taken in
    the order of the map; the loop and-combines them, so the result is the
    same in any order. *)
Definition item_matches (parsedQuery : ParsedQuery) (item : ContentItem) : bool :=
  let matches := true in
  let matches := fold_left (field_step item) (map_to_list (fields parsedQuery)) matches in
  let matches :=
    match dateFilters parsedQuery with
    | Some l => fold_left (date_step item) l matches
    | None => matches
    end in
  fullText_step item matches (fullText parsedQuery).

(** [SearchParser.filter] *)
Definition filter (items : list ContentItem) (parsedQuery : ParsedQuery)
  : list ContentItem :=
  List.filter (item_matches parsedQuery) items.
End Evaluator.

(** *** highlight *)

(** The characters of the bracket class of [highlight]; they are the syntax
    characters of the pattern grammar. *)
Definition syntaxChars : jsstring := ".*+?^${}()|[]\".

(** [/[.*+?^${}()|[\]\\]/g] *)
Definition metaRegex : regex := Chr (Char.one_of syntaxChars).

(** [query.replace(/[.*+?^${}()|[\]\\]/g, '\\$&')] *)
Definition escapeRegExp (query : jsstring) : jsstring :=
  replace_all metaRegex [TLit "\"; TWhole] query.

(** The [RegExp] constructor with the [i] flag on a pattern source made of
    plain pattern characters and backslash-escaped syntax characters, each
    of which stands for itself.  Any other source ([None]) would be read as
    a pattern with operators. *)
Fixpoint compile_atoms (src : jsstring) : option regex :=
  match src with
  | [] => Some Eps
  | a :: rest =>
      if bool_decide (a = "\"%char) then
        match rest with
        | b :: rest' =>
            if Char.one_of syntaxChars b
            then (fun r => Chr (Char.is_ci b) >> r) <$> compile_atoms rest'
            else None
        | [] => None
        end
      else if Char.one_of syntaxChars a then None
      else (fun r => Chr (Char.is_ci a) >> r) <$> compile_atoms rest
  end.

(** The two halves of the marker. *)
Definition markOpen : jsstring :=
  "<mark class=" ++ [dquote] ++ "bg-yellow-200 dark:bg-yellow-800" ++ [dquote] ++ ">".

Definition markClose : jsstring := "</mark>".

(** The replacement string of [highlight]: the marker around [$1]. *)
Definition markTemplate : list tpart := [TLit markOpen; TGroup 1; TLit markClose].

(** [SearchParser.highlight] *)
Definition highlight (text query : jsstring) : jsstring :=
  if bool_decide (query = []) then text
  else
    match compile_atoms (escapeRegExp query) with
    | Some body => replace_all (Group 1 body) markTemplate text
    | None => text
    end.

(** *** getSuggestions *)

(** [[...new Set(l)]]: a [Set] keeps the first occurrence of each value, in
    insertion order. *)
Definition uniq (l : list jsstring) : list jsstring :=
  fold_left (fun acc x => if bool_decide (x ∈ acc) then acc else acc ++ [x]) l [].

(** [query.split(/\s+/).pop()?.toLowerCase() || ''] *)
Definition lastWord (query : jsstring) : jsstring :=
  toLowerCase (List.last (split whitespaceRegex query) []).

(** One [forEach] of [getSuggestions]: a suggestion for each value that
    contains the last word. *)
Definition suggest (fmt : jsstring -> jsstring) (lastWord : jsstring)
  (values : list jsstring) : list jsstring :=
  map fmt (List.filter (fun v => includes (toLowerCase v) lastWord) values).

(** [SearchParser.getSuggestions] *)
Definition getSuggestions (query : jsstring) (items : list ContentItem)
  : list jsstring :=
  let lastWord := lastWord query in
  if length lastWord <? 2 then []
  else
    let uniqueTitles := uniq (map title items) in
    let uniqueTags := uniq (concat (map tags items)) in
    let uniqueTypes := uniq (map contentType items) in
    take 10
      (suggest (fun title => "title:" ++ [dquote] ++ title ++ [dquote]) lastWord uniqueTitles ++
       suggest (fun tag => "tags:" ++ tag) lastWord uniqueTags ++
       suggest (fun type => "type:" ++ type) lastWord uniqueTypes).

(** *** validateQuery *)

(** The result of [validateQuery]. *)
Record Validation : Type := mkValidation {
  isValid : bool;
  error : option jsstring
}.

(** [validFields] *)
Definition validFields : list jsstring :=
  ["title"; "content"; "tags"; "type"; "created"; "updated"].

(** [/(\w+):/g] *)
Definition fieldNameRegex : regex := Group 1 (Plus word) >> colon.

(** The global regex of [query.match] in the quote check: one double quote. *)
Definition dquoteRegex : regex := Chr (Char.eq dquote).

(** [fieldMatches.map(match => match.replace(':', ''))] *)
Definition fieldNames (fieldMatches : list jsstring) : list jsstring :=
  map (replace_first ":" []) fieldMatches.

(** [names.filter(field => !validFields.includes(field))] *)
Definition invalidFieldsOf (names : list jsstring) : list jsstring :=
  List.filter (fun field => negb (bool_decide (field ∈ validFields))) names.

(** [SearchParser.validateQuery]; nothing in its body throws, so the
    [catch] branch is never taken. *)
Definition validateQuery (query : jsstring) : Validation :=
  if bool_decide (trim query = []) then
    mkValidation false (Some "Query cannot be empty")
  else
    let quotes := match_all dquoteRegex query in
    if match quotes with
       | Some quotes => negb (length quotes mod 2 =? 0)
       | None => false
       end
    then mkValidation false (Some "Unmatched quotes in query")
    else
      match match_all fieldNameRegex query with
      | Some fieldMatches =>
          let invalidFields := invalidFieldsOf (fieldNames fieldMatches) in
          if 0 <? length invalidFields then
            mkValidation false
              (Some ("Invalid field(s): " ++ join ", " invalidFields ++
                     ". Valid fields: " ++ join ", " validFields))
          else mkValidation true None
      | None => mkValidation true None
      end.

End SearchParser.

(** * Specification vocabulary

    The predicates and reference functions in which the properties below
    are stated. *)

Module Spec.
Import Regex JS SearchParser.

(** ** Positions and captures *)

(** [consumed x mid x']: going from [x] to [x'] consumes exactly [mid]. *)
Definition consumed (x : pos) (mid : jsstring) (x' : pos) : Prop :=
  ahead x = mid ++ ahead x' /\ behind x' = rev mid ++ behind x.

(** [reach x x']: position [x'] lies at or after [x] in the same input. *)
Definition reach (x x' : pos) : Prop := exists mid, consumed x mid x'.

(** Captures are only ever added or overwritten. *)
Definition caps_le (c c' : caps) : Prop :=
  forall i, is_Some (c !! i) -> is_Some (c' !! i).

(** A result that comes from the continuation [k]. *)
Definition sound_at {R : Type} (k : cont R) (x : pos) (c : caps)
  (res : option R) : Prop :=
  forall y, res = Some y ->
    exists x' c', reach x x' /\ caps_le c c' /\ k x' c' = Some y.

(** A template made of literal text only. *)
Definition literal_template (P : ascii -> Prop) (tmpl : list tpart) : Prop :=
  Forall (fun p => match p with TLit s => Forall P s | _ => False end) tmpl.

(** ** Queries and clauses *)

(** What is left of a string after its leading run of a class. *)
Fixpoint skip (p : ascii -> bool) (s : jsstring) : jsstring :=
  match s with
  | a :: rest => if p a then skip p rest else s
  | [] => []
  end.

(** Replace every maximal run of a class by [rep]; [in_run] tells that the
    previous character belonged to a run. *)
Fixpoint collapse (p : ascii -> bool) (rep : jsstring) (in_run : bool)
  (s : jsstring) : jsstring :=
  match s with
  | [] => []
  | a :: rest =>
      if p a then
        if in_run then collapse p rep true rest
        else rep ++ collapse p rep true rest
      else a :: collapse p rep false rest
  end.

(** The trimmed query with every run of whitespace turned into one space. *)
Definition normalized (q : jsstring) : jsstring :=
  collapse Char.is_space " " false (trim q).

(** The string has no colon. *)
Definition no_colon (s : jsstring) : Prop := Forall (fun a => a <> ":"%char) s.

(** The comparison characters. *)
Definition is_comparison (a : ascii) : bool := Char.one_of "><=!" a.

(** The value begins with a comparison character. *)
Definition begins_with_operator (v : jsstring) : bool :=
  match v with
  | a :: _ => is_comparison a
  | [] => false
  end.

(** Somewhere in the value a comparison character is followed by a further
    character other than a line terminator. *)
Fixpoint has_operator (v : jsstring) : bool :=
  match v with
  | a :: rest =>
      match rest with
      | b :: _ => is_comparison a && Char.is_dot b
      | [] => false
      end || has_operator rest
  | [] => false
  end.

(** The two date fields. *)
Definition is_date_field (f : jsstring) : bool :=
  bool_decide (f = "created") || bool_decide (f = "updated").

(** ** Validation *)

(** The field names of all [word:] patterns of a query, in order. *)
Definition queryFieldNames (q : jsstring) : list jsstring :=
  fieldNames (default [] (match_all fieldNameRegex q)).

(** The number of double quotes of a query. *)
Definition quoteCount (q : jsstring) : nat :=
  length (List.filter (Char.eq dquote) q).

(** The message of the unknown-field error for a list of names. *)
Definition unknownFieldMessage (names : list jsstring) : jsstring :=
  "Invalid field(s): " ++ join ", " names ++
  ". Valid fields: title, content, tags, type, created, updated".

(** ** Suggestions *)

(** The pieces of a string between the maximal runs of a class; [in_run]
    tells that the previous character belonged to a run. *)
Fixpoint pieces (p : ascii -> bool) (in_run : bool) (s : jsstring)
  : list jsstring :=
  match s with
  | [] => [ [] ]
  | a :: rest =>
      if p a then
        if in_run then pieces p true rest else [] :: pieces p true rest
      else
        match pieces p false rest with
        | w :: ws => (a :: w) :: ws
        | [] => [ [a] ]
        end
  end.

(** The last whitespace-delimited token: the longest suffix without
    whitespace (empty when the string ends in whitespace). *)
Fixpoint lastToken (s : jsstring) : jsstring :=
  match s with
  | [] => []
  | _ :: rest => if existsb Char.is_space s then lastToken rest else s
  end.

(** The distinct values of a list in order of first occurrence. *)
Fixpoint first_occurrences (l : list jsstring) : list jsstring :=
  match l with
  | [] => []
  | x :: l' =>
      x :: List.filter (fun y => negb (bool_decide (y = x))) (first_occurrences l')
  end.

(** The three formats of a suggestion. *)
Definition titleSuggestion (title : jsstring) : jsstring :=
  "title:" ++ [dquote] ++ title ++ [dquote].

Definition tagSuggestion (tag : jsstring) : jsstring := "tags:" ++ tag.

Definition typeSuggestion (type : jsstring) : jsstring := "type:" ++ type.

(** The suggestions of one group: the distinct values containing the last
    word, in order of first occurrence, formatted. *)
Definition group (fmt : jsstring -> jsstring) (w : jsstring) (values : list jsstring)
  : list jsstring :=
  map fmt (List.filter (fun v => includes (toLowerCase v) w) (first_occurrences values)).

(** ** Highlighting *)

(** Equality of two strings up to case. *)
Definition ci_eq (s t : jsstring) : Prop :=
  map Char.canonicalize s = map Char.canonicalize t.

(** [s] begins with an occurrence of [t] up to case. *)
Fixpoint ci_startsWith (t s : jsstring) : bool :=
  match t, s with
  | [], _ => true
  | c :: t', a :: s' => Char.is_ci c a && ci_startsWith t' s'
  | _ :: _, [] => false
  end.

(** [Highlighted term text out]: [out] is [text] with the occurrences of
    [term] (up to case) wrapped in the marker, scanning from the left: each
    wrapped piece is the original piece of the text, no occurrence begins
    before the first wrapped one, and the text outside the wrapped pieces is
    copied as it is. *)
Inductive Highlighted (term : jsstring) : jsstring -> jsstring -> Prop :=
| Highlighted_none (text : jsstring) :
    (forall p1 p2, text = p1 ++ p2 -> ci_startsWith term p2 = false) ->
    Highlighted term text text
| Highlighted_wrap (before mt rest out : jsstring) :
    ci_eq mt term ->
    (forall p1 p2, before = p1 ++ p2 -> p2 <> [] ->
       ci_startsWith term (p2 ++ mt ++ rest) = false) ->
    Highlighted term rest out ->
    Highlighted term (before ++ mt ++ rest)
                (before ++ markOpen ++ mt ++ markClose ++ out).

(** ** Evaluation *)

Section Evaluator.
Variable Date_parse : jsstring -> option Z.
Variable Date_toDateString : Z -> jsstring.

(** The predicate contributed by one entry of [fields]: containment up to
    case for [title] and [content] (none for a record without content),
    equality for [type], containment up to case in some tag for [tags]
    (for some value of a sequence), none for any other name. *)
Definition field_pred (item : ContentItem) (entry : jsstring * FieldValue) : bool :=
  match entry with
  | (name, VString v) =>
      if bool_decide (name = "title") then
        includes (toLowerCase (title item)) (toLowerCase v)
      else if bool_decide (name = "content") then
        match content item with
        | Some c => bool_decide (c = []) || includes (toLowerCase c) (toLowerCase v)
        | None => true
        end
      else if bool_decide (name = "type") then bool_decide (contentType item = v)
      else if bool_decide (name = "tags") then some_tag item v
      else true
  | (name, VArray vs) =>
      if bool_decide (name = "tags") then existsb (some_tag item) vs else true
  end.

(** The predicate contributed by one entry of [dateFilters]: the comparison
    named by the operator, none for any other operator.  An invalid date
    compares false with everything, and two invalid dates are equal as
    days. *)
Definition date_pred (item : ContentItem) (dateFilter : DateFilter) : bool :=
  let itemDate :=
    Date_parse (if bool_decide (field dateFilter = "created")
                then createdAt item else updatedAt item) in
  let filterDate := Date_parse (value dateFilter) in
  let op := operator dateFilter in
  if bool_decide (op = ">") then date_cmp Z.gtb itemDate filterDate
  else if bool_decide (op = "<") then date_cmp Z.ltb itemDate filterDate
  else if bool_decide (op = ">=") then date_cmp Z.geb itemDate filterDate
  else if bool_decide (op = "<=") then date_cmp Z.leb itemDate filterDate
  else if bool_decide (op = "=") then
    bool_decide (toDateString Date_toDateString itemDate =
                 toDateString Date_toDateString filterDate)
  else true.

(** The predicate contributed by [fullText]: the text, in lower case, is
    contained in the title, in the content if there is one, or in some tag;
    none when the text is absent or empty. *)
Definition fullText_pred (item : ContentItem) (fullText : option jsstring) : bool :=
  match fullText with
  | Some t =>
      bool_decide (t = []) ||
      includes (toLowerCase (title item)) (toLowerCase t) ||
      match content item with
      | Some c => negb (bool_decide (c = [])) && includes (toLowerCase c) (toLowerCase t)
      | None => false
      end ||
      existsb (fun tag => includes (toLowerCase tag) (toLowerCase t)) (tags item)
  | None => true
  end.

(** The conjunction of all active predicates of a query. *)
Definition all_preds (q : ParsedQuery) (item : ContentItem) : bool :=
  forallb (field_pred item) (map_to_list (fields q)) &&
  forallb (date_pred item) (default [] (dateFilters q)) &&
  fullText_pred item (fullText q).

End Evaluator.

(** ** Sample records *)

(** A record without content. *)
Definition sampleNote : ContentItem :=
  mkContentItem "Team Meeting Recording" "video" None ["meeting"; "team"]
                "2024-01-12T16:00:00Z" "2024-01-12T16:00:00Z".

(** The demonstration records of the application. *)
Definition mockItems : list ContentItem :=
  [ mkContentItem "React Best Practices" "note"
      (Some "Here are some important React best practices to follow when building applications...")
      ["react"; "javascript"; "frontend"]
      "2024-01-15T10:30:00Z" "2024-01-15T10:30:00Z";
    mkContentItem "Design System Documentation" "document"
      (Some "Complete guide to our design system including colors, typography, and components.")
      ["design"; "documentation"; "ui"]
      "2024-01-14T14:20:00Z" "2024-01-14T14:20:00Z";
    mkContentItem "Architecture Diagram" "image"
      (Some "System architecture overview showing microservices and data flow.")
      ["architecture"; "system"; "diagram"]
      "2024-01-13T09:15:00Z" "2024-01-13T09:15:00Z";
    mkContentItem "Team Meeting Recording" "video"
      (Some "Weekly team sync discussing project progress and next steps.")
      ["meeting"; "team"; "sync"]
      "2024-01-12T16:00:00Z" "2024-01-12T16:00:00Z";
    mkContentItem "Useful Development Resources" "link"
      (Some "https://developer.mozilla.org/en-US/docs/Web/JavaScript")
      ["resources"; "javascript"; "learning"]
      "2024-01-11T11:45:00Z" "2024-01-11T11:45:00Z" ].

(** [SearchParser.filter(items, SearchParser.parse(query))], as the
    application calls it, with a runtime whose [Date] is not consulted. *)
Definition run_query (query : jsstring) (items : list ContentItem)
  : completion (list ContentItem) :=
  q ← parse query; Normal (filter (fun _ => None) (fun _ => []) items q).

End Spec.

(** * The callers of the engine *)

(** ** SQLSearchBar: the suggestion dropdown and the SQL preview *)

Module SQLSearchBar.
Import Regex JS SearchParser.

(** [SearchSuggestion['type']] *)
Inductive SuggestionType : Type := TField | TOperator | TValue | TFunction.

(** [SearchSuggestion]; the description is only displayed. *)
Record SearchSuggestion : Type := mkSuggestion {
  stype : SuggestionType;
  text : jsstring
}.

(** [SEARCH_SUGGESTIONS] *)
Definition SEARCH_SUGGESTIONS : list SearchSuggestion :=
  [ mkSuggestion TField "title:"; mkSuggestion TField "content:";
    mkSuggestion TField "tags:"; mkSuggestion TField "type:";
    mkSuggestion TField "created:"; mkSuggestion TField "updated:";
    mkSuggestion TOperator "AND"; mkSuggestion TOperator "OR";
    mkSuggestion TOperator "NOT"; mkSuggestion TOperator ">";
    mkSuggestion TOperator "<"; mkSuggestion TOperator ">=";
    mkSuggestion TOperator "<="; mkSuggestion TOperator "=";
    mkSuggestion TOperator "!="; mkSuggestion TOperator "LIKE";
    mkSuggestion TOperator "IN";
    mkSuggestion TFunction "COUNT()"; mkSuggestion TFunction "DATE()";
    mkSuggestion TFunction "LOWER()"; mkSuggestion TFunction "UPPER()";
    mkSuggestion TValue "document"; mkSuggestion TValue "image";
    mkSuggestion TValue "video"; mkSuggestion TValue "note";
    mkSuggestion TValue "link" ].

(** The state of the component that the handlers below read and write. *)
Record BarState : Type := mkBarState {
  query : jsstring;
  showSuggestions : bool;
  filteredSuggestions : list SearchSuggestion;
  selectedIndex : Z
}.

(** [query.split(/\s+/).pop() || ''] *)
Definition barLastWord (query : jsstring) : jsstring :=
  List.last (split whitespaceRegex query) [].

(** The effect that runs whenever [query] changes. *)
Definition queryEffect (st : BarState) : BarState :=
  let lastWord := barLastWord (query st) in
  if 0 <? length lastWord then
    let filtered :=
      List.filter (fun suggestion =>
                     includes (toLowerCase (text suggestion)) (toLowerCase lastWord))
                  SEARCH_SUGGESTIONS in
    mkBarState (query st) (0 <? length filtered) filtered (-1)
  else mkBarState (query st) false (filteredSuggestions st) (-1).

(** The [ArrowDown] and [ArrowUp] updates of the selected index, for a
    dropdown of [len] suggestions. *)
Definition arrowDown (len : nat) (prev : Z) : Z :=
  if (prev <? Z.of_nat len - 1)%Z then (prev + 1)%Z else 0%Z.

Definition arrowUp (len : nat) (prev : Z) : Z :=
  if (0 <? prev)%Z then (prev - 1)%Z else (Z.of_nat len - 1)%Z.

(** [words[words.length - 1] = text]: the array always has a last element. *)
Definition setLast (words : list jsstring) (text : jsstring) : list jsstring :=
  removelast words ++ [text].

(** [applySuggestion], the new value of [query]. *)
Definition applySuggestion (query : jsstring) (suggestion : SearchSuggestion)
  : jsstring :=
  let words := split whitespaceRegex query in
  let words := setLast words (text suggestion) in
  join " " words ++
  match stype suggestion with
  | TField => []
  | _ => " "
  end.

(** [/(\w+):([^\s]+)/g] *)
Definition sqlFieldRegex : regex :=
  Group 1 (Plus word) >> colon >> Group 2 (Plus nonspace).

(** [/[<>=!]/g] *)
Definition sqlOperatorRegex : regex := Chr (Char.one_of "<>=!").

(** A value inside a template literal: [undefined] prints as its name. *)
Definition shown (v : option jsstring) : jsstring := default "undefined" v.

(** The callback of [fieldMatches.map]: [const [field, value] =
    match.split(':')] leaves [value] undefined when there is no second
    piece, and [value.replace] then throws. *)
Definition condition (mt : jsstring) : completion jsstring :=
  let parts := split_char ":" mt in
  let field := default [] (parts !! 0) in
  let value := parts !! 1 in
  if bool_decide (field = "type") then
    Normal ("contentType = '" ++ shown value ++ "'")
  else if bool_decide (field = "tags") then
    Normal ("tags LIKE '%" ++ shown value ++ "%'")
  else if bool_decide (field = "created") || bool_decide (field = "updated") then
    match value with
    | Some v =>
        Normal (field ++ "At " ++ replace_all sqlOperatorRegex [] v ++ " '" ++
                replace_all sqlOperatorRegex [] v ++ "'")
    | None => TypeError
    end
  else Normal (field ++ " LIKE '%" ++ shown value ++ "%'").

(** [fieldMatches.map(f)] for a callback that may throw. *)
Fixpoint mapM {A B : Type} (f : A -> completion B) (l : list A)
  : completion (list B) :=
  match l with
  | [] => Normal []
  | a :: l' => b ← f a; bs ← mapM f l'; Normal (b :: bs)
  end.

(** [convertToSQL] *)
Definition convertToSQL (searchQuery : jsstring) : completion jsstring :=
  let sql := "SELECT * FROM content_items WHERE " in
  sql ←
    match match_all sqlFieldRegex searchQuery with
    | Some fieldMatches =>
        conditions ← mapM condition fieldMatches;
        Normal (sql ++ join " AND " conditions)
    | None =>
        Normal (sql ++ "(title LIKE '%" ++ searchQuery ++ "%' OR content LIKE '%" ++
                searchQuery ++ "%' OR tags LIKE '%" ++ searchQuery ++ "%')")
    end;
  Normal (sql ++ " ORDER BY updatedAt DESC").

(** The keys that [handleKeyDown] tells apart. *)
Inductive Key : Type := ArrowDown | ArrowUp | Enter | Escape | OtherKey.

(** The arguments of the call of [onSearch], when a handler makes one. *)
Definition SearchCall : Type := option (jsstring * jsstring).

(** [handleSearch]: the new state and the call of [onSearch]. *)
Definition handleSearch (st : BarState) : completion (BarState * SearchCall) :=
  if negb (bool_decide (trim (query st) = [])) then
    sql ← convertToSQL (query st);
    Normal (mkBarState (query st) false (filteredSuggestions st) (selectedIndex st),
            Some (query st, sql))
  else Normal (st, None).

(** [applySuggestion(filteredSuggestions[selectedIndex])]: an index past
    the end reads [undefined], and reading its [text] throws. *)
Definition applySelected (st : BarState) : completion BarState :=
  match filteredSuggestions st !! Z.to_nat (selectedIndex st) with
  | Some suggestion =>
      Normal (mkBarState (applySuggestion (query st) suggestion) false
                         (filteredSuggestions st) (selectedIndex st))
  | None => TypeError
  end.

(** [handleKeyDown]: the state after the handler's own updates. *)
Definition handleKeyDown (key : Key) (st : BarState)
  : completion (BarState * SearchCall) :=
  if negb (showSuggestions st) then
    match key with
    | Enter => handleSearch st
    | _ => Normal (st, None)
    end
  else
    match key with
    | ArrowDown =>
        Normal (mkBarState (query st) (showSuggestions st) (filteredSuggestions st)
                  (arrowDown (length (filteredSuggestions st)) (selectedIndex st)),
                None)
    | ArrowUp =>
        Normal (mkBarState (query st) (showSuggestions st) (filteredSuggestions st)
                  (arrowUp (length (filteredSuggestions st)) (selectedIndex st)),
                None)
    | Enter =>
        if (0 <=? selectedIndex st)%Z then
          st' ← applySelected st; Normal (st', None)
        else handleSearch st
    | Escape =>
        Normal (mkBarState (query st) false (filteredSuggestions st) (-1), None)
    | OtherKey => Normal (st, None)
    end.

(** [onFocus] of the input. *)
Definition onFocus (st : BarState) : BarState :=
  if 0 <? length (query st)
  then mkBarState (query st) true (filteredSuggestions st) (selectedIndex st)
  else st.

(** The effect is declared with the dependency list [[query]]: after the
    updates of a handler it runs when the query has changed, and not
    otherwise.  [before] is the state the handler started from, [after]
    the state with the handler's own updates. *)
Definition afterRender (before after : BarState) : BarState :=
  if bool_decide (query after = query before) then after else queryEffect after.

End SQLSearchBar.

(** ** AdvancedFilters: the filter panel *)

(** [SearchFilters]; the collection id is never read. *)
Record SearchFilters : Type := mkSearchFilters {
  f_contentType : option (list jsstring);
  f_tags : option (list jsstring);
  f_dateRange : option (jsstring * jsstring)
}.

Module AdvancedFilters.
Import JS.

(** [l.length > 0 ? l : undefined] *)
Definition orUndefined (l : list jsstring) : option (list jsstring) :=
  if 0 <? length l then Some l else None.

(** [l.filter(t => t !== x)] *)
Definition without (x : jsstring) (l : list jsstring) : list jsstring :=
  List.filter (fun t => negb (bool_decide (t = x))) l.

(** [handleContentTypeChange], the filters passed to [onFiltersChange]. *)
Definition handleContentTypeChange (type : jsstring) (filters : SearchFilters)
  : SearchFilters :=
  let currentTypes := default [] (f_contentType filters) in
  let newTypes :=
    if bool_decide (type ∈ currentTypes) then without type currentTypes
    else currentTypes ++ [type] in
  mkSearchFilters (orUndefined newTypes) (f_tags filters) (f_dateRange filters).

(** [handleTagAdd]; a blank or known tag changes nothing. *)
Definition handleTagAdd (tag : jsstring) (filters : SearchFilters) : SearchFilters :=
  if bool_decide (trim tag = []) then filters
  else
    let currentTags := default [] (f_tags filters) in
    if negb (bool_decide (tag ∈ currentTags)) then
      mkSearchFilters (f_contentType filters) (Some (currentTags ++ [tag]))
                      (f_dateRange filters)
    else filters.

(** [handleTagRemove] *)
Definition handleTagRemove (tag : jsstring) (filters : SearchFilters) : SearchFilters :=
  let currentTags := default [] (f_tags filters) in
  let newTags := without tag currentTags in
  mkSearchFilters (f_contentType filters) (orUndefined newTags) (f_dateRange filters).

(** [clearFilters] *)
Definition clearFilters : SearchFilters := mkSearchFilters None None None.

(** [l?.length] as a condition. *)
Definition nonEmpty (l : option (list jsstring)) : bool :=
  match l with
  | Some l => 0 <? length l
  | None => false
  end.

(** [filters.dateRange?.start] and [filters.dateRange?.end] as conditions. *)
Definition hasStart (filters : SearchFilters) : bool :=
  match f_dateRange filters with
  | Some (s, _) => negb (bool_decide (s = []))
  | None => false
  end.

Definition hasEnd (filters : SearchFilters) : bool :=
  match f_dateRange filters with
  | Some (_, e) => negb (bool_decide (e = []))
  | None => false
  end.

(** [getActiveFiltersCount] *)
Definition getActiveFiltersCount (filters : SearchFilters) : nat :=
  let count := 0 in
  let count := if nonEmpty (f_contentType filters) then S count else count in
  let count := if nonEmpty (f_tags filters) then S count else count in
  let count := if hasStart filters || hasEnd filters then S count else count in
  count.

End AdvancedFilters.

(** ** App: the items shown for a search query and a filter panel *)

Module App.
Import JS SearchParser AdvancedFilters.

Section Pipeline.
Variable Date_parse : jsstring -> option Z.
Variable Date_toDateString : Z -> jsstring.

(** [filtered.filter(item => filters.contentType!.includes(item.contentType))] *)
Definition byContentType (types : list jsstring) (items : list ContentItem)
  : list ContentItem :=
  List.filter (fun item => bool_decide (contentType item ∈ types)) items.

(** The panel's tag test: some filter tag is contained, up to case, in some
    tag of the item. *)
Definition byTags (filterTags : list jsstring) (items : list ContentItem)
  : list ContentItem :=
  List.filter (fun item =>
                 existsb (fun filterTag =>
                            existsb (fun itemTag =>
                                       includes (toLowerCase itemTag) (toLowerCase filterTag))
                                    (tags item))
                         filterTags)
              items.

(** [new Date(item.createdAt) >= startDate] and [<= endDate] *)
Definition fromDate (start : jsstring) (items : list ContentItem) : list ContentItem :=
  List.filter (fun item =>
                 date_cmp Z.geb (Date_parse (createdAt item)) (Date_parse start))
              items.

Definition toDate (end_ : jsstring) (items : list ContentItem) : list ContentItem :=
  List.filter (fun item =>
                 date_cmp Z.leb (Date_parse (createdAt item)) (Date_parse end_))
              items.

(** The filter stages of the effect, in the order of the source. *)
Definition applyFilters (filters : SearchFilters) (filtered : list ContentItem)
  : list ContentItem :=
  let filtered :=
    if nonEmpty (f_contentType filters)
    then byContentType (default [] (f_contentType filters)) filtered
    else filtered in
  let filtered :=
    if nonEmpty (f_tags filters)
    then byTags (default [] (f_tags filters)) filtered
    else filtered in
  let filtered :=
    if hasStart filters
    then fromDate (default [] (fst <$> f_dateRange filters)) filtered
    else filtered in
  let filtered :=
    if hasEnd filters
    then toDate (default [] (snd <$> f_dateRange filters)) filtered
    else filtered in
  filtered.

(** The items selected by the effect, before it sorts them: the search
    query is applied when it is not blank, then the panel's filters. *)
Definition selectItems (searchQuery : jsstring) (filters : SearchFilters)
  (contentItems : list ContentItem) : completion (list ContentItem) :=
  filtered ←
    (if negb (bool_decide (trim searchQuery = [])) then
       parsedQuery ← parse searchQuery;
       Normal (filter Date_parse Date_toDateString contentItems parsedQuery)
     else Normal contentItems);
  Normal (applyFilters filters filtered).

End Pipeline.

End App.

(** ** AddContentDialog: the tag list of the form *)

Module AddContentDialog.
Import JS.

(** [addTag]: the new tag list and the new tag input. *)
Definition addTag (tags : list jsstring) (tagInput : jsstring)
  : list jsstring * jsstring :=
  if negb (bool_decide (trim tagInput = [])) &&
     negb (bool_decide (trim tagInput ∈ tags))
  then (tags ++ [trim tagInput], [])
  else (tags, tagInput).

(** [removeTag] *)
Definition removeTag (tags : list jsstring) (tagToRemove : jsstring)
  : list jsstring :=
  List.filter (fun tag => negb (bool_decide (tag = tagToRemove))) tags.

End AddContentDialog.

(** ** Further vocabulary *)

Module SpecExtra.
Import Regex JS SearchParser Spec.

(** The three connectives, as [parse] records them. *)
Definition connectives : list jsstring := ["AND"; "OR"; "NOT"].

(** A date filter as [parse] can produce it: on one of the two date fields,
    with a non-empty run of comparison characters as operator. *)
Definition dateFilter_ok (d : DateFilter) : bool :=
  is_date_field (field d) && negb (bool_decide (operator d = [])) &&
  forallb is_comparison (operator d).

(** A field name as [parse] can produce it: a non-empty word that is
    neither a date field nor [__proto__]. *)
Definition fieldName_ok (k : jsstring) : bool :=
  negb (bool_decide (k = [])) && forallb Char.is_word k &&
  negb (is_date_field k) && negb (bool_decide (k = "__proto__")).

(** A field value as [parse] can produce it: a sequence only under [tags],
    and then of at least two values. *)
Definition fieldValue_ok (k : jsstring) (v : FieldValue) : bool :=
  match v with
  | VString _ => true
  | VArray l => bool_decide (k = "tags") && (2 <=? length l)
  end.

(** The entry that a clause writes into the field map. *)
Definition clause_entry (mt : jsstring) : FieldValue :=
  if bool_decide (clause_field mt = "tags") && includes (clause_value mt) ","
  then VArray (map trim (split_char "," (clause_value mt)))
  else VString (clause_value mt).

(** The clause writes into the field map: it is not a date clause and its
    name is not [__proto__]. *)
Definition is_field_clause (mt : jsstring) : bool :=
  negb (is_date_field (clause_field mt)) &&
  negb (bool_decide (clause_field mt = "__proto__")).

(** The date filter that a clause appends, if any. *)
Definition clause_date (mt : jsstring) : option DateFilter :=
  if is_date_field (clause_field mt) then
    match match_first dateRegex (clause_value mt) with
    | Some dateMatch =>
        Some (mkDateFilter (clause_field mt) (default [] (dateMatch !! 1))
                           (trim (default [] (dateMatch !! 2))))
    | None => None
    end
  else None.

(** A clause as the clause pattern finds it: a word, a colon, the rest. *)
Definition clause_shape (mt : jsstring) : Prop :=
  exists name rest,
    mt = name ++ ":"%char :: rest /\ name <> [] /\
    Forall (fun a => Char.is_word a = true) name.

(** The string is blank: empty or made of whitespace. *)
Definition blank (s : jsstring) : bool := forallb Char.is_space s.

(** The text before the first occurrence of a character. *)
Fixpoint before (c : ascii) (s : jsstring) : jsstring :=
  match s with
  | [] => []
  | a :: s' => if bool_decide (a = c) then [] else a :: before c s'
  end.

(** The text without its comparison characters. *)
Definition bare (v : jsstring) : jsstring :=
  List.filter (fun a => negb (is_comparison a)) v.

(** The SQL condition for a clause with a given name and value. *)
Definition clauseCondition (name value : jsstring) : jsstring :=
  if bool_decide (name = "type") then "contentType = '" ++ value ++ "'"
  else if bool_decide (name = "tags") then "tags LIKE '%" ++ value ++ "%'"
  else if is_date_field name then
    name ++ "At " ++ bare value ++ " '" ++ bare value ++ "'"
  else name ++ " LIKE '%" ++ value ++ "%'".

(** The SQL text around the conditions. *)
Definition sqlStatement (conditions : jsstring) : jsstring :=
  "SELECT * FROM content_items WHERE " ++ conditions ++ " ORDER BY updatedAt DESC".

(** The dropdown of the search bar is usable: when it is shown it has at
    least one suggestion and the selected index is [-1] or the index of
    one of them. *)
Definition bar_ok (st : SQLSearchBar.BarState) : Prop :=
  SQLSearchBar.showSuggestions st = true ->
  SQLSearchBar.filteredSuggestions st <> [] /\
  (-1 <= SQLSearchBar.selectedIndex st
      < Z.of_nat (length (SQLSearchBar.filteredSuggestions st)))%Z.

(** The filters of the panel are well formed: no empty list is stored,
    no type and no tag is listed twice, and no tag is blank. *)
Definition panel_ok (f : SearchFilters) : Prop :=
  f_contentType f <> Some [] /\ f_tags f <> Some [] /\
  NoDup (default [] (f_contentType f)) /\ NoDup (default [] (f_tags f)) /\
  Forall (fun t => blank t = false) (default [] (f_tags f)).

(** The tags of the form are well formed: none twice, none empty, each
    without whitespace at its ends. *)
Definition tags_ok (tags : list jsstring) : Prop :=
  NoDup tags /\ Forall (fun t => t <> [] /\ trim t = t) tags.

End SpecExtra.

(** ** getSuggestions over UTF-16 code units

    [getSuggestions] measures the length of the last token after
    lower-casing it, and outside Latin-1 lower-casing can change the number
    of code units of a string (U+0130 becomes U+0069 U+0307).  This module
    embeds [getSuggestions] once more, over strings of 16-bit code units,
    with the [toLowerCase] of the runtime as a parameter. *)

Module Utf16.

(** A code unit is a number below 65536. *)
Definition ustring : Type := list N.

(** The code units of a Latin-1 string. *)
Definition widen (s : jsstring) : ustring := map Char.code s.

Definition in_range (lo hi u : N) : bool := (lo <=? u)%N && (u <=? hi)%N.

(** [\s]: the WhiteSpace and LineTerminator code points of ECMAScript. *)
Definition is_space (u : N) : bool :=
  in_range 9 13 u || (u =? 32)%N || (u =? 160)%N || (u =? 0x1680)%N ||
  in_range 0x2000 0x200A u || (u =? 0x2028)%N || (u =? 0x2029)%N ||
  (u =? 0x202F)%N || (u =? 0x205F)%N || (u =? 0x3000)%N || (u =? 0xFEFF)%N.

(** [s.startsWith(p)] and [s.includes(t)], on code units. *)
Fixpoint startsWith (p s : ustring) : bool :=
  match p, s with
  | [], _ => true
  | a :: p', b :: s' => bool_decide (a = b) && startsWith p' s'
  | _ :: _, [] => false
  end.

Fixpoint includes (s t : ustring) : bool :=
  startsWith t s ||
  match s with
  | [] => false
  | _ :: s' => includes s' t
  end.

(** [s.split(/\s+/)]: every maximal run of whitespace separates two
    pieces, and a run at either end leaves an empty piece there;
    [in_run] tells that the previous code unit was whitespace.  On Latin-1
    strings these are the pieces that the matcher of [Regex] computes. *)
Fixpoint split_spaces (in_run : bool) (s : ustring) : list ustring :=
  match s with
  | [] => [ [] ]
  | a :: rest =>
      if is_space a then
        if in_run then split_spaces true rest else [] :: split_spaces true rest
      else
        match split_spaces false rest with
        | w :: ws => (a :: w) :: ws
        | [] => [ [a] ]
        end
  end.

(** [[...new Set(l)]] *)
Definition uniq (l : list ustring) : list ustring :=
  fold_left (fun acc x => if bool_decide (x ∈ acc) then acc else acc ++ [x]) l [].

(** The members of [ContentItem] that [getSuggestions] reads. *)
Record ContentItem : Type := mkContentItem {
  title : ustring;
  contentType : ustring;
  tags : list ustring
}.

Section Runtime.
(** [String.prototype.toLowerCase] of the runtime. *)
Variable toLowerCase : ustring -> ustring.

(** [query.split(/\s+/).pop()?.toLowerCase() || ''] *)
Definition lastWord (query : ustring) : ustring :=
  toLowerCase (List.last (split_spaces false query) []).

(** One [forEach] of [getSuggestions]. *)
Definition suggest (fmt : ustring -> ustring) (lastWord : ustring)
  (values : list ustring) : list ustring :=
  map fmt (List.filter (fun v => includes (toLowerCase v) lastWord) values).

(** [SearchParser.getSuggestions] *)
Definition getSuggestions (query : ustring) (items : list ContentItem)
  : list ustring :=
  let lastWord := lastWord query in
  if length lastWord <? 2 then []
  else
    let uniqueTitles := uniq (map title items) in
    let uniqueTags := uniq (concat (map tags items)) in
    let uniqueTypes := uniq (map contentType items) in
    take 10
      (suggest (fun title => widen "title:" ++ [34%N] ++ title ++ [34%N])
               lastWord uniqueTitles ++
       suggest (fun tag => widen "tags:" ++ tag) lastWord uniqueTags ++
       suggest (fun type => widen "type:" ++ type) lastWord uniqueTypes).

End Runtime.

(** The lower case of one code unit, for the letters of Basic Latin and
    Latin-1 and for U+0130, whose lower case is the two code units U+0069
    U+0307.  Other code units are left as they are: the strings lower-cased
    with this function below hold no other letter. *)
Definition lower_units (u : N) : list N :=
  if (u =? 0x130)%N then [0x69; 0x307]%N
  else if in_range 65 90 u || in_range 192 214 u || in_range 216 222 u
       then [(u + 32)%N]
       else [u].

Definition lowerCase (s : ustring) : ustring := concat (map lower_units s).

(** *** Specification vocabulary *)

(** The last whitespace-delimited token. *)
Fixpoint lastToken (s : ustring) : ustring :=
  match s with
  | [] => []
  | _ :: rest => if existsb is_space s then lastToken rest else s
  end.

(** The distinct values of a list in order of first occurrence. *)
Fixpoint first_occurrences (l : list ustring) : list ustring :=
  match l with
  | [] => []
  | x :: l' =>
      x :: List.filter (fun y => negb (bool_decide (y = x))) (first_occurrences l')
  end.

(** The three formats of a suggestion. *)
Definition titleSuggestion (title : ustring) : ustring :=
  widen "title:" ++ [34%N] ++ title ++ [34%N].

Definition tagSuggestion (tag : ustring) : ustring := widen "tags:" ++ tag.

Definition typeSuggestion (type : ustring) : ustring := widen "type:" ++ type.

(** The suggestions of one group, for a lower-casing [lower] and a lower-cased
    token [w]. *)
Definition group (lower : ustring -> ustring) (fmt : ustring -> ustring)
  (w : ustring) (values : list ustring) : list ustring :=
  map fmt (List.filter (fun v => includes (lower v) w) (first_occurrences values)).

End Utf16.

(** A record of the Latin-1 model, over code units. *)
Definition widenItem (item : ContentItem) : Utf16.ContentItem :=
  Utf16.mkContentItem (Utf16.widen (title item)) (Utf16.widen (contentType item))
                      (map Utf16.widen (tags item)).

(** * Properties of lists *)

Module ListFacts.

Lemma List_filter_idem {A : Type} (f : A -> bool) (l : list A) :
  List.filter f (List.filter f l) = List.filter f l.
Proof.
  induction l as [|a l IH]; simpl; [done|].
  destruct (f a) eqn:E; simpl; [|done]. by rewrite E, IH.
Qed.

Lemma List_filter_all {A : Type} (f : A -> bool) (l : list A) :
  (forall a, f a = true) -> List.filter f l = l.
Proof.
  intros Hf. induction l as [|a l IH]; simpl; [done|]. by rewrite Hf, IH.
Qed.

Lemma List_filter_sublist {A : Type} (f : A -> bool) (l : list A) :
  sublist (List.filter f l) l.
Proof.
  induction l as [|a l IH]; simpl; [constructor|].
  destruct (f a); by constructor.
Qed.

Lemma forallb_perm {A : Type} (f : A -> bool) (l l' : list A) :
  l ≡ₚ l' -> forallb f l = forallb f l'.
Proof.
  induction 1 as [|x l l' _ IH|x y l|l1 l2 l3 _ IH1 _ IH2]; simpl.
  - done.
  - by rewrite IH.
  - by destruct (f x), (f y).
  - by rewrite IH1.
Qed.

Lemma forallb_eq {A : Type} (f g : A -> bool) (l : list A) :
  (forall a, f a = g a) -> forallb f l = forallb g l.
Proof.
  intros H. induction l as [|a l IH]; simpl; [done|]. by rewrite H, IH.
Qed.

(** A loop whose body only ever and-combines a test into the running flag
    computes the conjunction of the tests. *)
Lemma fold_and {A : Type} (step : bool -> A -> bool) (l : list A) :
  (forall b a, step b a = b && step true a) ->
  forall b, fold_left step l b = b && forallb (step true) l.
Proof.
  intros Hstep. induction l as [|a l IH]; intros b; simpl.
  - by rewrite andb_true_r.
  - rewrite IH, Hstep. by rewrite andb_assoc.
Qed.

Lemma filter_filter {A : Type} (f g : A -> bool) (l : list A) :
  List.filter f (List.filter g l) = List.filter (fun x => g x && f x) l.
Proof.
  induction l as [|a l IH]; simpl; [done|].
  destruct (g a); simpl; [destruct (f a)|]; by rewrite IH.
Qed.

End ListFacts.

(** * Properties of the matcher *)

Module RegexFacts.
Import Regex Spec.

Lemma reach_refl x : reach x x.
Proof. by exists []. Qed.

Lemma reach_trans x y z : reach x y -> reach y z -> reach x z.
Proof.
  intros [m1 [H1 H2]] [m2 [H3 H4]]. exists (m1 ++ m2). split.
  - rewrite H1, H3. by rewrite app_assoc.
  - rewrite H4, H2, rev_app_distr. by rewrite app_assoc.
Qed.

Lemma reach_step pre a suf : reach (pre, a :: suf) (a :: pre, suf).
Proof. by exists [a]. Qed.

Lemma reach_length x x' : reach x x' -> length (ahead x') <= length (ahead x).
Proof. intros [mid [H _]]. rewrite H, length_app. lia. Qed.

Lemma reach_suffix x x' : reach x x' -> ahead x' `suffix_of` ahead x.
Proof. intros [mid [H _]]. by exists mid. Qed.

Lemma caps_le_refl c : caps_le c c.
Proof. by intros i. Qed.

Lemma caps_le_trans c1 c2 c3 : caps_le c1 c2 -> caps_le c2 c3 -> caps_le c1 c3.
Proof. intros H1 H2 i Hi. auto. Qed.

Lemma caps_le_insert c i v : caps_le c (<[i := v]> c).
Proof.
  intros j Hj. destruct (decide (i = j)) as [->|Hne].
  - rewrite lookup_insert_eq. eauto.
  - by rewrite lookup_insert_ne.
Qed.

Ltac reached x c :=
  exists x, c; split_and!;
  [ eauto using reach_refl, reach_trans, reach_step
  | eauto using caps_le_refl, caps_le_trans, caps_le_insert
  | done ].

Lemma repeat_loop_sound {R : Type} (body : pos -> caps -> cont R -> option R)
  (g : bool) (k : cont R) :
  (forall x c k', sound_at k' x c (body x c k')) ->
  forall n x c, sound_at k x c (repeat_loop body g k n x c).
Proof.
  intros Hbody n. induction n as [|n IHn]; intros x c y H.
  - assert (k x c = Some y)
      by (destruct g; simpl in H; unfold orelse in H; [done | by destruct (k x c)]).
    reached x c.
  - assert (Hiter : forall z,
      body x c (fun x' c' =>
        if length (ahead x') <? length (ahead x)
        then repeat_loop body g k n x' c' else None) = Some z ->
      exists x' c', reach x x' /\ caps_le c c' /\ k x' c' = Some z).
    { intros z Hz. apply Hbody in Hz as (x1 & c1 & Hr1 & Hc1 & Hz).
      destruct (length (ahead x1) <? length (ahead x)); [|done].
      apply IHn in Hz as (x2 & c2 & Hr2 & Hc2 & Hz). reached x2 c2. }
    simpl in H. unfold orelse in H. destruct g.
    + match type of H with
      | match ?e with _ => _ end = _ => destruct e eqn:E
      end.
      * inversion H; subst. by apply Hiter.
      * reached x c.
    + destruct (k x c) eqn:E.
      * inversion H; subst. reached x c.
      * by apply Hiter.
Qed.

(** Every result of the matcher is a result of its continuation, called at a
    position at or after the starting one with at least the same captures. *)
Lemma m_sound (r : regex) :
  forall (R : Type) (x : pos) (c : caps) (k : cont R) (y : R),
    m r x c k = Some y ->
    exists x' c', reach x x' /\ caps_le c c' /\ k x' c' = Some y.
Proof.
  induction r as [|p|r1 IH1 r2 IH2|r1 IH1 r2 IH2|g r1 IH1|i r1 IH1|r1 IH1| | |];
    intros R x c k y H; simpl in H.
  - reached x c.
  - destruct x as [pre suf]; simpl in H. destruct suf as [|a rest]; [done|].
    destruct (p a); [|done]. simpl in H. reached (a :: pre, rest) c.
  - apply IH1 in H as (x1 & c1 & Hr1 & Hc1 & H).
    apply IH2 in H as (x2 & c2 & Hr2 & Hc2 & H). reached x2 c2.
  - unfold orelse in H. destruct (m r1 x c k) eqn:E.
    + inversion H; subst. by apply IH1 in E.
    + by apply IH2 in H.
  - eapply repeat_loop_sound; [|exact H]. intros x0 c0 k' z. apply IH1.
  - apply IH1 in H as (x1 & c1 & Hr1 & Hc1 & H).
    reached x1 (<[i := span x x1]> c1).
  - destruct (m r1 x c (fun _ c' => Some c')) as [c1|] eqn:E; [|done].
    apply IH1 in E as (x1 & c2 & Hr1 & Hc1 & E). inversion E; subst.
    reached x c1.
  - destruct (behind x); [|done]. reached x c.
  - destruct (ahead x); [|done]. reached x c.
  - destruct (xorb _ _); [|done]. reached x c.
Qed.

Lemma repeat_loop_ext {R : Type} (body : pos -> caps -> cont R -> option R)
  (g : bool) (k1 k2 : cont R) :
  (forall x c k k', (forall x' c', reach x x' -> k x' c' = k' x' c') ->
     body x c k = body x c k') ->
  forall n x c,
    (forall x' c', reach x x' -> k1 x' c' = k2 x' c') ->
    repeat_loop body g k1 n x c = repeat_loop body g k2 n x c.
Proof.
  intros Hbody n. induction n as [|n IHn]; intros x c Hk.
  - simpl. by rewrite (Hk x c (reach_refl x)).
  - cbn [repeat_loop]. rewrite (Hk x c (reach_refl x)).
    rewrite (Hbody x c _ (fun x' c' =>
      if length (ahead x') <? length (ahead x)
      then repeat_loop body g k2 n x' c' else None)); [done|].
    intros x' c' Hr. destruct (_ <? _); [|done]. apply IHn.
    intros x2 c2 Hr2. apply Hk. by eapply reach_trans.
Qed.

(** The matcher consults its continuation only at positions at or after the
    starting one. *)
Lemma m_ext (r : regex) :
  forall (R : Type) (x : pos) (c : caps) (k1 k2 : cont R),
    (forall x' c', reach x x' -> k1 x' c' = k2 x' c') ->
    m r x c k1 = m r x c k2.
Proof.
  induction r as [|p|r1 IH1 r2 IH2|r1 IH1 r2 IH2|g r1 IH1|i r1 IH1|r1 IH1| | |];
    intros R x c k1 k2 Hk; simpl.
  - by apply Hk, reach_refl.
  - destruct x as [pre suf]. simpl. destruct suf as [|a rest]; [done|].
    destruct (p a); [|done]. apply Hk, reach_step.
  - apply IH1. intros x1 c1 Hr1. apply IH2. intros x2 c2 Hr2.
    apply Hk. by eapply reach_trans.
  - by rewrite (IH1 _ x c k1 k2), (IH2 _ x c k1 k2).
  - apply repeat_loop_ext; [|done]. intros x0 c0 k k' Hkk. by apply IH1.
  - apply IH1. intros x1 c1 Hr1. by apply Hk.
  - destruct (m r1 x c (fun _ c' => Some c')); [|done]. apply Hk, reach_refl.
  - destruct (behind x); [|done]. apply Hk, reach_refl.
  - destruct (ahead x); [|done]. apply Hk, reach_refl.
  - destruct (xorb _ _); [|done]. apply Hk, reach_refl.
Qed.

(** The bound of a repetition is never the reason for stopping: any bound
    that is at least the length of the remaining input gives the same
    result. *)
Lemma repeat_loop_bound {R : Type} (r : regex) (g : bool) (k : cont R) (n : nat) :
  forall n' x c,
    length (ahead x) <= n -> length (ahead x) <= n' ->
    repeat_loop (m r) g k n x c = repeat_loop (m r) g k n' x c.
Proof.
  assert (Hstuck : forall x c j,
    length (ahead x) = 0 ->
    m r x c (fun x' c' =>
      if length (ahead x') <? length (ahead x)
      then repeat_loop (m r) g k j x' c' else None) = None).
  { intros x c j Hx.
    destruct (m r x c _) as [y|] eqn:E; [|done].
    apply m_sound in E as (x1 & c1 & _ & _ & E). rewrite Hx in E.
    by destruct (length (ahead x1)). }
  induction n as [|n IHn]; intros n' x c Hn Hn'.
  - destruct n' as [|n']; [done|]. cbn [repeat_loop].
    rewrite Hstuck by lia. done.
  - destruct n' as [|n'].
    + cbn [repeat_loop]. rewrite Hstuck by lia. done.
    + cbn [repeat_loop]. rewrite (m_ext r _ x c _ (fun x' c' =>
        if length (ahead x') <? length (ahead x)
        then repeat_loop (m r) g k n' x' c' else None)); [done|].
      intros x' c' Hr. destruct (length (ahead x') <? length (ahead x)) eqn:E; [|done].
      apply Nat.ltb_lt in E. apply IHn; lia.
Qed.

(** The defining equations of the matcher, for rewriting. *)
Lemma m_seq {R : Type} r1 r2 x c (k : cont R) :
  m (r1 >> r2) x c k = m r1 x c (fun x' c' => m r2 x' c' k).
Proof. reflexivity. Qed.

Lemma m_group {R : Type} i r x c (k : cont R) :
  m (Group i r) x c k = m r x c (fun x' c' => k x' (<[i := span x x']> c')).
Proof. reflexivity. Qed.

(** A run of characters of one class: what [p*] and [p+] consume. *)
Lemma repeat_chr_sound {R : Type} (p : ascii -> bool) (g : bool) (k : cont R)
  (n : nat) :
  forall x c y,
    repeat_loop (m (Chr p)) g k n x c = Some y ->
    exists mid x', Forall (fun a => p a = true) mid /\ consumed x mid x' /\
                   k x' c = Some y.
Proof.
  induction n as [|n IHn]; intros x c y H.
  - assert (k x c = Some y)
      by (destruct g; simpl in H; unfold orelse in H; [done | by destruct (k x c)]).
    exists [], x. by repeat split.
  - assert (Hiter : forall z,
      m (Chr p) x c (fun x' c' =>
        if length (ahead x') <? length (ahead x)
        then repeat_loop (m (Chr p)) g k n x' c' else None) = Some z ->
      exists mid x', Forall (fun a => p a = true) mid /\ consumed x mid x' /\
                     k x' c = Some z).
    { intros z Hz. simpl in Hz. destruct x as [pre suf]. simpl in Hz.
      destruct suf as [|a rest]; [done|]. destruct (p a) eqn:Ea; [|done].
      destruct (_ <? _); [|done]. apply IHn in Hz as (mid & x' & Hm & [H1 H2] & Hz).
      exists (a :: mid), x'. split_and!; [by constructor| |done].
      split; simpl in *; [by rewrite H1|]. by rewrite H2, <- app_assoc. }
    simpl in H. unfold orelse in H. destruct g.
    + match type of H with
      | match ?e with _ => _ end = _ => destruct e eqn:E
      end.
      * inversion H; subst. by apply Hiter.
      * exists [], x. by repeat split.
    + destruct (k x c) eqn:E.
      * inversion H; subst. exists [], x. by repeat split.
      * by apply Hiter.
Qed.

Lemma m_plus_chr {R : Type} (p : ascii -> bool) (k : cont R) x c y :
  m (Plus (Chr p)) x c k = Some y ->
  exists mid x', mid <> [] /\ Forall (fun a => p a = true) mid /\
                 consumed x mid x' /\ k x' c = Some y.
Proof.
  intros H. simpl in H. destruct x as [pre suf]. simpl in H.
  destruct suf as [|a rest]; [done|]. destruct (p a) eqn:Ea; [|done].
  apply repeat_chr_sound in H as (mid & x' & Hm & [H1 H2] & H).
  exists (a :: mid), x'. split_and!; [done|by constructor| |done].
  split; simpl in *; [by rewrite H1|]. by rewrite H2, <- app_assoc.
Qed.

Lemma m_chr_cons {R : Type} p pre a rest c (k : cont R) :
  m (Chr p) (pre, a :: rest) c k = if p a then k (a :: pre, rest) c else None.
Proof. reflexivity. Qed.

Lemma repeat_loop_S {R : Type} (body : pos -> caps -> cont R -> option R) g k n x c :
  repeat_loop body g k (S n) x c =
  let iter :=
    body x c (fun x' c' =>
      if length (ahead x') <? length (ahead x)
      then repeat_loop body g k n x' c' else None) in
  if g then orelse iter (k x c) else orelse (k x c) iter.
Proof. reflexivity. Qed.

Lemma m_star {R : Type} g r x c (k : cont R) :
  m (Star g r) x c k = repeat_loop (m r) g k (length (ahead x)) x c.
Proof. reflexivity. Qed.

Lemma consumed_nil x x' : consumed x [] x' -> x' = x.
Proof. destruct x, x'. intros [H1 H2]. simpl in *. by subst. Qed.

(** A run of characters of one class is accepted whenever the continuation
    accepts after some prefix of the run. *)
Lemma repeat_chr_complete {R : Type} (p : ascii -> bool) (g : bool) (k : cont R)
  (n : nat) :
  forall x c mid x',
    Forall (fun a => p a = true) mid -> consumed x mid x' ->
    length (ahead x) <= n -> is_Some (k x' c) ->
    is_Some (repeat_loop (m (Chr p)) g k n x c).
Proof.
  induction n as [|n IHn]; intros x c mid x' Hall Hc Hn Hk.
  - destruct mid as [|a mid].
    + apply consumed_nil in Hc as ->. destruct Hk as [y Hk]. simpl.
      rewrite Hk. destruct g; simpl; eauto.
    + destruct Hc as [Hc _]. rewrite Hc in Hn. simpl in Hn. lia.
  - destruct mid as [|a mid].
    + apply consumed_nil in Hc as ->. destruct Hk as [y Hk]. simpl.
      rewrite Hk. destruct g; unfold orelse; [|eauto].
      match goal with |- is_Some (match ?e with _ => _ end) => destruct e end; eauto.
    + apply Forall_cons in Hall as [Ha Hall]. destruct x as [pre suf].
      destruct Hc as [Hc1 Hc2]. simpl in Hc1, Hc2, Hn. subst suf.
      assert (Hi : is_Some (repeat_loop (m (Chr p)) g k n (a :: pre, mid ++ ahead x') c)).
      { apply (IHn _ _ mid x'); [done| |simpl in *; lia|done].
        split; [done|]. simpl. by rewrite Hc2, <- app_assoc. }
      destruct Hi as [y Hi].
      rewrite repeat_loop_S. cbv zeta. rewrite m_chr_cons, Ha.
      cbn [ahead snd length].
      replace (length (mid ++ ahead x') <? S (length (mid ++ ahead x'))) with true
        by (symmetry; apply Nat.ltb_lt; lia).
      rewrite Hi. destruct g; unfold orelse; [eauto|].
      destruct (k (pre, a :: mid ++ ahead x') c); eauto.
Qed.

Lemma m_plus_chr_complete {R : Type} (p : ascii -> bool) (k : cont R) x c mid x' :
  mid <> [] -> Forall (fun a => p a = true) mid -> consumed x mid x' ->
  is_Some (k x' c) -> is_Some (m (Plus (Chr p)) x c k).
Proof.
  intros Hne Hall Hc Hk. destruct mid as [|a mid]; [done|].
  apply Forall_cons in Hall as [Ha Hall]. destruct x as [pre suf].
  destruct Hc as [Hc1 Hc2]. simpl in Hc1, Hc2. subst suf.
  unfold Plus. rewrite m_seq. cbn [app]. rewrite m_chr_cons, Ha.
  apply (repeat_chr_complete p true k _ _ _ mid x'); [done| |done|done].
  split; [done|]. simpl. by rewrite Hc2, <- app_assoc.
Qed.

Lemma skip_length p s : length (skip p s) <= length s.
Proof.
  induction s as [|a s IH]; simpl; [lia|]. destruct (p a); simpl; lia.
Qed.

(** With nothing to satisfy afterwards, a greedy repetition of a class
    takes the whole run. *)
Lemma repeat_chr_greedy (p : ascii -> bool) (n : nat) :
  forall pre suf c,
    length suf <= n ->
    exists b,
      repeat_loop (m (Chr p)) true (fun x c => Some (x, c)) n (pre, suf) c =
      Some ((b, skip p suf), c).
Proof.
  induction n as [|n IHn]; intros pre suf c Hn.
  - destruct suf; [|simpl in Hn; lia]. by exists pre.
  - destruct suf as [|a rest]; [by exists pre|].
    rewrite repeat_loop_S. cbv zeta. rewrite m_chr_cons. cbn [skip].
    destruct (p a); [|by exists pre].
    cbn [ahead snd length].
    replace (length rest <? S (length rest)) with true
      by (symmetry; apply Nat.ltb_lt; lia).
    destruct (IHn (a :: pre) rest c) as [b ->]; [simpl in Hn; lia|].
    by exists b.
Qed.

Lemma exec_at_plus_chr_some p pre a rest :
  p a = true ->
  exists b, exec_at (Plus (Chr p)) (pre, a :: rest) = Some ((b, skip p rest), ∅).
Proof.
  intros Ha. unfold exec_at, Plus. rewrite m_seq, m_chr_cons, Ha, m_star.
  cbn [ahead snd].
  destruct (repeat_chr_greedy p (length rest) (a :: pre) rest ∅) as [b ->]; eauto.
Qed.

Lemma exec_at_plus_chr_none p pre suf :
  match suf with a :: _ => p a = false | [] => True end ->
  exec_at (Plus (Chr p)) (pre, suf) = None.
Proof.
  intros H. unfold exec_at, Plus. rewrite m_seq. destruct suf as [|a rest]; [done|].
  by rewrite m_chr_cons, H.
Qed.

Lemma exec_at_reach r x x' c : exec_at r x = Some (x', c) -> reach x x'.
Proof.
  unfold exec_at. intros H. apply m_sound in H as (x1 & c1 & Hr & _ & H).
  by inversion H; subst.
Qed.

Lemma search_sound r pre suf st en c :
  search r pre suf = Some (st, en, c) ->
  reach (pre, suf) st /\ reach st en /\ exec_at r st = Some (en, c).
Proof.
  revert pre. induction suf as [|a suf IH]; intros pre H; simpl in H.
  - destruct (exec_at r (pre, [])) as [[x' c']|] eqn:E; [|done].
    inversion H; subst. eauto using reach_refl, exec_at_reach.
  - destruct (exec_at r (pre, a :: suf)) as [[x' c']|] eqn:E.
    + inversion H; subst. eauto using reach_refl, exec_at_reach.
    + apply IH in H as (H1 & H2 & H3). split_and!; [|done..].
      eapply reach_trans; [apply reach_step | done].
Qed.

(** No match at any later position: no match at all. *)
Lemma search_none r pre suf :
  (forall x, reach (pre, suf) x -> exec_at r x = None) ->
  search r pre suf = None.
Proof.
  revert pre. induction suf as [|a suf IH]; intros pre H; simpl.
  - by rewrite (H _ (reach_refl _)).
  - rewrite (H _ (reach_refl _)). apply IH. intros x Hx. apply H.
    eapply reach_trans; [apply reach_step | done].
Qed.

Lemma search_some_inv r suf : forall pre st en c,
  search r pre suf = Some (st, en, c) ->
  exists before,
    suf = before ++ ahead st /\ behind st = rev before ++ pre /\
    exec_at r st = Some (en, c) /\
    forall p1 p2, before = p1 ++ p2 -> p2 <> [] ->
      exec_at r (rev p1 ++ pre, p2 ++ ahead st) = None.
Proof.
  induction suf as [|a suf IH]; intros pre st en c H; simpl in H.
  - destruct (exec_at r (pre, [])) as [[x' c']|] eqn:E; [|done].
    inversion H; subst. exists []. split_and!; [done..|].
    intros p1 p2 Hp Hne. by destruct p1, p2.
  - destruct (exec_at r (pre, a :: suf)) as [[x' c']|] eqn:E.
    + inversion H; subst. exists []. split_and!; [done..|].
      intros p1 p2 Hp Hne. by destruct p1, p2.
    + apply IH in H as (before & H1 & H2 & H3 & H4).
      exists (a :: before). split_and!.
      * simpl. by rewrite <- H1.
      * rewrite H2. simpl. by rewrite <- app_assoc.
      * done.
      * intros p1 p2 Hp Hne. destruct p1 as [|b p1]; simpl in Hp.
        -- subst p2. simpl. by rewrite <- H1.
        -- inversion Hp; subst. simpl. rewrite <- app_assoc. simpl.
           by apply H4.
Qed.

Lemma search_none_inv r suf : forall pre,
  search r pre suf = None ->
  forall p1 p2, suf = p1 ++ p2 -> exec_at r (rev p1 ++ pre, p2) = None.
Proof.
  induction suf as [|a suf IH]; intros pre H p1 p2 Hp; simpl in H.
  - destruct p1, p2; try done. simpl.
    by destruct (exec_at r (pre, [])) as [[x' c']|].
  - destruct (exec_at r (pre, a :: suf)) as [[x' c']|] eqn:E; [done|].
    destruct p1 as [|b p1]; simpl in Hp.
    + by subst p2.
    + inversion Hp; subst. simpl. rewrite <- app_assoc. simpl. by apply IH.
Qed.

(** An attempt that succeeds somewhere makes the search succeed. *)
Lemma search_some r pre suf p1 p2 :
  suf = p1 ++ p2 -> is_Some (exec_at r (rev p1 ++ pre, p2)) ->
  is_Some (search r pre suf).
Proof.
  intros Hp [y Hy]. destruct (search r pre suf) eqn:E; [eauto|].
  rewrite (search_none_inv _ _ _ E p1 p2 Hp) in Hy. done.
Qed.

End RegexFacts.

(** * Properties of the string helpers *)

Module JSFacts.
Import Regex JS Spec RegexFacts.

Lemma trimStart_suffix s : trimStart s `suffix_of` s.
Proof.
  induction s as [|a s IH]; simpl; [done|].
  destruct (Char.is_space a); [by apply suffix_cons_r | done].
Qed.

Lemma Forall_trimStart (P : ascii -> Prop) s : Forall P s -> Forall P (trimStart s).
Proof.
  intros H. destruct (trimStart_suffix s) as [k Hk]. rewrite Hk in H.
  by apply Forall_app in H as [_ H].
Qed.

Lemma Forall_trim (P : ascii -> Prop) s : Forall P s -> Forall P (trim s).
Proof.
  intros H. unfold trim, trimEnd. apply Forall_rev, Forall_trimStart, Forall_rev.
  by apply Forall_trimStart.
Qed.

Lemma Forall_subst (P : ascii -> Prop) tmpl whole c :
  literal_template P tmpl -> Forall P (subst tmpl whole c).
Proof.
  unfold subst. induction 1 as [|p tmpl Hp _ IH]; simpl; [done|].
  apply Forall_app. split; [|done]. by destruct p.
Qed.

(** Replacing matches by literal text keeps every property that holds of all
    code units of the input and of the replacement. *)
Lemma Forall_replace_loop (P : ascii -> Prop) r tmpl fuel :
  literal_template P tmpl ->
  forall pre suf, Forall P suf -> Forall P (replace_loop r tmpl fuel pre suf).
Proof.
  intros Ht. induction fuel as [|fuel IH]; intros pre suf H; simpl; [done|].
  destruct (search r pre suf) as [[[st en] c]|] eqn:E; [|done].
  apply search_sound in E as (H1 & H2 & _).
  assert (Hen : Forall P (ahead en)).
  { destruct (reach_suffix _ _ (reach_trans _ _ _ H1 H2)) as [k Hk].
    simpl in Hk. rewrite Hk in H. by apply Forall_app in H as [_ H]. }
  apply Forall_app. split; [by apply Forall_take|].
  apply Forall_app. split; [by apply Forall_subst|].
  case_bool_decide.
  - destruct (ahead en) as [|a rest]; [done|].
    apply Forall_cons in Hen as [Ha Hrest]. apply Forall_cons. auto.
  - by apply IH.
Qed.

Lemma Forall_replace_all (P : ascii -> Prop) r tmpl s :
  literal_template P tmpl -> Forall P s -> Forall P (replace_all r tmpl s).
Proof. intros. by apply Forall_replace_loop. Qed.

Lemma match_all_none r s : search r [] s = None -> match_all r s = None.
Proof. intros H. unfold match_all. simpl. by rewrite H. Qed.

(** Every step of a global scan moves forward. *)
Lemma search_progress r pre suf st en c :
  search r pre suf = Some (st, en, c) ->
  length (ahead en) <= length suf /\
  (span st en <> [] -> length (ahead en) < length suf).
Proof.
  intros H. apply search_sound in H as (H1 & H2 & _).
  apply reach_length in H1, H2. simpl in H1. split; [lia|].
  intros Hne. unfold span in Hne.
  destruct (length (ahead st) - length (ahead en)) eqn:E; [by rewrite take_0 in Hne|].
  lia.
Qed.

(** The bounds of the global loops are never the reason for stopping: any
    bound above the length of the input gives the same result. *)
Lemma match_loop_bound r fuel : forall fuel' pre suf,
  length suf < fuel -> length suf < fuel' ->
  match_loop r fuel pre suf = match_loop r fuel' pre suf.
Proof.
  induction fuel as [|fuel IH]; intros fuel' pre suf Hf Hf'; [lia|].
  destruct fuel' as [|fuel']; [lia|]. cbn [match_loop].
  destruct (search r pre suf) as [[[st en] c]|] eqn:E; [|done].
  apply search_progress in E as [Hle Hlt]. f_equal. case_bool_decide as Hs.
  - destruct (ahead en) as [|a rest] eqn:Ea; [done|]. simpl in Hle. apply IH; lia.
  - specialize (Hlt Hs). apply IH; lia.
Qed.

Lemma replace_loop_bound r tmpl fuel : forall fuel' pre suf,
  length suf < fuel -> length suf < fuel' ->
  replace_loop r tmpl fuel pre suf = replace_loop r tmpl fuel' pre suf.
Proof.
  induction fuel as [|fuel IH]; intros fuel' pre suf Hf Hf'; [lia|].
  destruct fuel' as [|fuel']; [lia|]. cbn [replace_loop].
  destruct (search r pre suf) as [[[st en] c]|] eqn:E; [|done].
  apply search_progress in E as [Hle Hlt]. do 2 f_equal. case_bool_decide as Hs.
  - destruct (ahead en) as [|a rest] eqn:Ea; [done|]. simpl in Hle.
    f_equal. apply IH; lia.
  - specialize (Hlt Hs). apply IH; lia.
Qed.

Lemma exec_at_chr p pre suf :
  exec_at (Chr p) (pre, suf) =
  match suf with
  | a :: rest => if p a then Some ((a :: pre, rest), ∅) else None
  | [] => None
  end.
Proof. reflexivity. Qed.

Lemma span_step pre a rest : span (pre, a :: rest) (a :: pre, rest) = [a].
Proof.
  unfold span. simpl. replace (S (length rest) - length rest) with 1 by lia. done.
Qed.

(** The global matches of a one-character class are the characters of the
    class, one by one and in order. *)
Lemma match_loop_chr p suf : forall fuel pre,
  length suf < fuel ->
  match_loop (Chr p) fuel pre suf = map (fun a => [a]) (List.filter p suf).
Proof.
  induction suf as [|a rest IH]; intros fuel pre Hf.
  - destruct fuel; [simpl in Hf; lia | reflexivity].
  - destruct fuel as [|fuel]; [simpl in Hf; lia|].
    cbn [match_loop search List.filter]. rewrite exec_at_chr.
    destruct (p a) eqn:Ea.
    + rewrite span_step. rewrite bool_decide_false by done. cbn [map].
      f_equal. apply IH. simpl in Hf. lia.
    + rewrite <- (IH (S fuel) (a :: pre)) by (simpl in Hf; lia). done.
Qed.

Lemma span_refl x : span x x = [].
Proof. unfold span. by rewrite Nat.sub_diag. Qed.

(** Where the pattern does not match, the scan copies one code unit. *)
Lemma replace_loop_skip r tmpl fuel pre a rest :
  exec_at r (pre, a :: rest) = None ->
  replace_loop r tmpl (S fuel) pre (a :: rest) =
  a :: replace_loop r tmpl (S fuel) (a :: pre) rest.
Proof.
  intros H. cbn [replace_loop search]. rewrite H.
  destruct (search r (a :: pre) rest) as [[[st en] c]|] eqn:E; [|done].
  apply search_sound in E as (Hr & _ & _). apply reach_length in Hr.
  simpl in Hr. unfold span. cbn [ahead snd length].
  replace (S (length rest) - length (ahead st))
    with (S (length rest - length (ahead st))) by lia.
  done.
Qed.

Lemma collapse_in_run p rep s :
  collapse p rep true s = collapse p rep false (skip p s).
Proof.
  induction s as [|a s IH]; [done|]. simpl.
  destruct (p a) eqn:Ea; [done|]. simpl. by rewrite Ea.
Qed.

(** Replacing the runs of a class by a literal. *)
Lemma replace_loop_runs p rep n : forall suf fuel pre,
  length suf <= n -> length suf < fuel ->
  replace_loop (Plus (Chr p)) [TLit rep] fuel pre suf = collapse p rep false suf.
Proof.
  induction n as [|n IHn]; intros suf fuel pre Hn Hf.
  - destruct suf; [|simpl in Hn; lia]. destruct fuel; [lia | reflexivity].
  - destruct suf as [|a rest]; [destruct fuel; [lia | reflexivity]|].
    destruct fuel as [|fuel]; [lia|]. simpl in Hn, Hf.
    cbn [collapse]. destruct (p a) eqn:Ea.
    + destruct (exec_at_plus_chr_some p pre a rest Ea) as [b Hb].
      cbn [replace_loop search]. rewrite Hb. rewrite span_refl.
      pose proof (skip_length p rest) as Hs.
      rewrite bool_decide_false.
      2:{ unfold span. cbn [ahead snd length].
          replace (S (length rest) - length (skip p rest))
            with (S (length rest - length (skip p rest))) by lia.
          done. }
      cbn [ahead behind fst snd]. rewrite IHn by lia.
      rewrite collapse_in_run. unfold subst. simpl. by rewrite app_nil_r.
    + rewrite replace_loop_skip by (apply exec_at_plus_chr_none; done).
      f_equal. apply IHn; lia.
Qed.

(** Where the pattern does not match, the scan extends the current piece. *)
Lemma split_loop_skip r fuel pre a rest :
  exec_at r (pre, a :: rest) = None ->
  split_loop r (S fuel) pre (a :: rest) =
  match split_loop r (S fuel) (a :: pre) rest with
  | w :: ws => (a :: w) :: ws
  | [] => [ [a] ]
  end.
Proof.
  intros H. cbn [split_loop search]. rewrite H.
  destruct (search r (a :: pre) rest) as [[[st en] c]|] eqn:E; [|done].
  apply search_sound in E as (Hr & _ & _). apply reach_length in Hr.
  simpl in Hr. unfold span. cbn [ahead snd length].
  replace (S (length rest) - length (ahead st))
    with (S (length rest - length (ahead st))) by lia.
  done.
Qed.

Lemma pieces_in_run p s : pieces p true s = pieces p false (skip p s).
Proof.
  induction s as [|a s IH]; [done|]. simpl.
  destruct (p a) eqn:Ea; [done|]. simpl. by rewrite Ea.
Qed.

(** Splitting at the runs of a class. *)
Lemma split_loop_runs p n : forall suf fuel pre,
  length suf <= n -> length suf < fuel ->
  split_loop (Plus (Chr p)) fuel pre suf = pieces p false suf.
Proof.
  induction n as [|n IHn]; intros suf fuel pre Hn Hf.
  - destruct suf; [|simpl in Hn; lia]. destruct fuel; [lia | reflexivity].
  - destruct suf as [|a rest]; [destruct fuel; [lia | reflexivity]|].
    destruct fuel as [|fuel]; [lia|]. simpl in Hn, Hf.
    cbn [pieces]. destruct (p a) eqn:Ea.
    + destruct (exec_at_plus_chr_some p pre a rest Ea) as [b Hb].
      cbn [split_loop search]. rewrite Hb. rewrite span_refl.
      pose proof (skip_length p rest) as Hs.
      cbn [ahead behind fst snd]. rewrite IHn by lia.
      by rewrite pieces_in_run.
    + rewrite split_loop_skip by (apply exec_at_plus_chr_none; done).
      rewrite IHn by lia. done.
Qed.

Lemma pieces_no_run p s : existsb p s = false -> pieces p false s = [s].
Proof.
  induction s as [|a s IH]; [done|]. simpl. intros H.
  apply orb_false_elim in H as [Ha Hs]. by rewrite Ha, IH.
Qed.

Lemma pieces_length p s : forall b, 1 <= length (pieces p b s).
Proof.
  induction s as [|a s IH]; intros b; simpl; [lia|].
  destruct (p a); [destruct b; simpl; [apply IH | lia]|].
  destruct (pieces p false s); simpl; lia.
Qed.

Lemma pieces_run p s : existsb p s = true -> 2 <= length (pieces p false s).
Proof.
  induction s as [|a s IH]; [done|]. simpl. intros H.
  destruct (p a) eqn:Ea; simpl.
  - pose proof (pieces_length p s true). lia.
  - simpl in H. specialize (IH H). destruct (pieces p false s); simpl in *; lia.
Qed.

(** The last piece of a split at whitespace is the last token. *)
Lemma last_pieces s : forall b,
  List.last (pieces Char.is_space b s) [] = lastToken s.
Proof.
  induction s as [|a s IH]; intros b; [done|].
  cbn [pieces lastToken existsb]. destruct (Char.is_space a) eqn:Ea.
  - cbn [orb]. rewrite <- (IH true). destruct b; [done|].
    pose proof (pieces_length Char.is_space s true).
    by destruct (pieces Char.is_space true s).
  - cbn [orb]. destruct (existsb Char.is_space s) eqn:Es.
    + rewrite <- (IH false). pose proof (pieces_run _ _ Es) as Hl.
      destruct (pieces Char.is_space false s) as [|w [|w' ws]]; simpl in Hl; [lia..|].
      done.
    + by rewrite pieces_no_run.
Qed.

(** Replacing the characters of a class one by one. *)
Lemma replace_loop_chr p tmpl suf : forall fuel pre,
  length suf < fuel ->
  replace_loop (Chr p) tmpl fuel pre suf =
  concat (map (fun a => if p a then subst tmpl [a] ∅ else [a]) suf).
Proof.
  induction suf as [|a rest IH]; intros fuel pre Hf.
  - destruct fuel; [simpl in Hf; lia | reflexivity].
  - destruct fuel as [|fuel]; [simpl in Hf; lia|].
    cbn [replace_loop search map concat]. rewrite exec_at_chr.
    destruct (p a) eqn:Ea.
    + rewrite span_refl, span_step. rewrite bool_decide_false by done.
      cbn [ahead behind fst snd]. rewrite IH by (simpl in Hf; lia). done.
    + specialize (IH (S fuel) (a :: pre)). cbn [replace_loop] in IH.
      rewrite <- IH by (simpl in Hf; lia).
      destruct (search (Chr p) (a :: pre) rest) as [[[st en] c]|] eqn:E; [|done].
      apply search_sound in E as (Hr & _ & _). apply reach_length in Hr.
      simpl in Hr. unfold span. cbn [ahead snd length].
      replace (S (length rest) - length (ahead st))
        with (S (length rest - length (ahead st))) by lia.
      done.
Qed.

End JSFacts.

(** * Properties of the parser *)

Module ParseFacts.
Import Regex JS SearchParser Spec RegexFacts JSFacts.

Lemma no_colon_normalize q : no_colon q -> no_colon (normalize q).
Proof.
  intros H. unfold normalize. apply Forall_replace_all.
  - repeat constructor; done.
  - by apply Forall_trim.
Qed.

(** [normalize] trims the query and turns every run of whitespace into one
    space. *)
Lemma normalize_spec q : normalize q = normalized q.
Proof.
  unfold normalize, normalized, replace_all, whitespaceRegex, space.
  apply (replace_loop_runs _ _ (length (trim q))); lia.
Qed.

(** The clause pattern needs a colon ahead. *)
Lemma fieldRegex_needs_colon x : no_colon (ahead x) -> exec_at fieldRegex x = None.
Proof.
  intros H. unfold exec_at, fieldRegex.
  destruct (m _ x ∅ _) as [y|] eqn:E; [|done]. exfalso.
  change (m (Group 1 (Plus word)) x ∅
            (fun x' c' => m (colon >> Star true space >>
               Group 2 (Plus nonspace >>
                 Star false (Plus space >>
                   Plus (Chr (fun a => negb (Char.is_space a || Char.eq ":" a))))) >>
               Look (Alt (Plus space >> Plus word >> colon) Eol))
               x' c' (fun x' c => Some (x', c))) = Some y) in E.
  apply m_sound in E as (x1 & c1 & Hr & _ & E).
  apply reach_suffix in Hr as [k Hk]. rewrite Hk in H.
  apply Forall_app in H as [_ H]. simpl in E.
  destruct (ahead x1) as [|a rest]; [done|].
  apply Forall_cons in H as [Ha _]. unfold Char.eq in E.
  by rewrite bool_decide_false in E.
Qed.

Lemma fieldMatches_none s : no_colon s -> match_all fieldRegex s = None.
Proof.
  intros H. apply match_all_none, search_none. intros x Hx.
  apply fieldRegex_needs_colon. apply reach_suffix in Hx as [k Hk].
  simpl in Hk. rewrite Hk in H. by apply Forall_app in H as [_ H].
Qed.

Lemma has_operator_run mid1 b rest :
  mid1 <> [] -> Forall (fun a => is_comparison a = true) mid1 ->
  Char.is_dot b = true -> has_operator (mid1 ++ b :: rest) = true.
Proof.
  induction mid1 as [|a mid1 IH]; intros Hne Hall Hb; [done|].
  apply Forall_cons in Hall as [Ha Hall]. destruct mid1 as [|a' mid1].
  - simpl. by rewrite Ha, Hb.
  - change (has_operator ((a :: a' :: mid1) ++ b :: rest))
      with (is_comparison a && Char.is_dot a' || has_operator ((a' :: mid1) ++ b :: rest)).
    rewrite IH by done. apply orb_true_r.
Qed.

Lemma has_operator_suffix k v : has_operator (k ++ v) = false -> has_operator v = false.
Proof.
  induction k as [|a k IH]; [done|]. intros H. apply IH.
  change (has_operator (a :: k ++ v)) with
    (match k ++ v with b :: _ => is_comparison a && Char.is_dot b | [] => false end
     || has_operator (k ++ v)) in H.
  by apply orb_false_elim in H as [_ H].
Qed.

(** The date pattern needs a comparison character followed by a character. *)
Lemma dateRegex_needs_operator x :
  has_operator (ahead x) = false -> exec_at dateRegex x = None.
Proof.
  intros H. unfold exec_at, dateRegex.
  destruct (m _ x ∅ _) as [y|] eqn:E; [|done]. exfalso.
  rewrite m_seq, m_group in E.
  apply m_plus_chr in E as (mid1 & x1 & Hne1 & Hall1 & [H1 _] & E).
  rewrite m_group in E.
  apply m_plus_chr in E as (mid2 & x2 & Hne2 & Hall2 & [H2 _] & _).
  destruct mid2 as [|b mid2]; [done|]. apply Forall_cons in Hall2 as [Hb _].
  rewrite H1, H2 in H. simpl in H.
  by rewrite has_operator_run in H.
Qed.

Lemma dateMatch_none v : has_operator v = false -> match_first dateRegex v = None.
Proof.
  intros H. unfold match_first. rewrite search_none; [done|].
  intros x Hx. apply dateRegex_needs_operator.
  apply reach_suffix in Hx as [k Hk]. simpl in Hk. rewrite Hk in H.
  by apply has_operator_suffix in H.
Qed.

Lemma has_operator_split v :
  has_operator v = true ->
  exists p1 a b rest, v = p1 ++ a :: b :: rest /\
                      is_comparison a = true /\ Char.is_dot b = true.
Proof.
  induction v as [|a v IH]; [done|]. intros H.
  change (has_operator (a :: v)) with
    (match v with b :: _ => is_comparison a && Char.is_dot b | [] => false end
     || has_operator v) in H.
  apply orb_true_iff in H as [H|H].
  - destruct v as [|b rest]; [done|]. apply andb_true_iff in H as [Ha Hb].
    by exists [], a, b, rest.
  - destruct (IH H) as (p1 & a' & b & rest & -> & Ha & Hb).
    by exists (a :: p1), a', b, rest.
Qed.

Lemma dateRegex_accepts pre a b rest :
  is_comparison a = true -> Char.is_dot b = true ->
  is_Some (exec_at dateRegex (pre, a :: b :: rest)).
Proof.
  intros Ha Hb. unfold exec_at, dateRegex. rewrite m_seq, m_group.
  apply (m_plus_chr_complete _ _ _ _ [a] (a :: pre, b :: rest));
    [done|by repeat constructor|by split|].
  rewrite m_group.
  apply (m_plus_chr_complete _ _ _ _ [b] (b :: a :: pre, rest));
    [done|by repeat constructor|by split|eauto].
Qed.

(** The date pattern matches exactly the values in which a comparison
    character is followed by a further character. *)
Lemma dateMatch_iff v : match_first dateRegex v = None <-> has_operator v = false.
Proof.
  split; [|apply dateMatch_none]. intros H.
  destruct (has_operator v) eqn:E; [|done]. exfalso.
  apply has_operator_split in E as (p1 & a & b & rest & -> & Ha & Hb).
  unfold match_first in H.
  destruct (search_some dateRegex [] (p1 ++ a :: b :: rest) p1 (a :: b :: rest) eq_refl
              (dateRegex_accepts _ a b rest Ha Hb)) as [[[st en] c] Hs].
  by rewrite Hs in H.
Qed.

(** A successful date match always binds its second group, so reading
    [dateMatch[2].trim()] cannot fail. *)
Lemma dateMatch_group2 v dateMatch :
  match_first dateRegex v = Some dateMatch -> is_Some (dateMatch !! 2).
Proof.
  unfold match_first. destruct (search dateRegex [] v) as [[[st en] c]|] eqn:E; [|done].
  intros [= <-]. apply search_sound in E as (_ & _ & E).
  unfold exec_at, dateRegex in E. rewrite m_seq, m_group in E.
  apply m_sound in E as (x1 & c1 & _ & _ & E). rewrite m_group in E.
  apply m_sound in E as (x2 & c2 & _ & _ & E). inversion E; subst.
  rewrite lookup_insert_ne by done. rewrite lookup_insert_eq. eauto.
Qed.

Lemma classify_normal result mt : exists r, classify result mt = Normal r.
Proof.
  unfold classify. destruct (_ || _).
  - destruct (match_first dateRegex _) as [dateMatch|] eqn:E; [|eauto].
    destruct (dateMatch_group2 _ _ E) as [v2 ->]. eauto.
  - destruct (bool_decide _); [destruct (includes _ _)|]; eauto.
Qed.

Lemma forEach_classify_normal ms : forall result,
  exists r, forEach classify ms result = Normal r.
Proof.
  induction ms as [|mt ms IH]; intros result; simpl; [eauto|].
  destruct (classify_normal result mt) as [r ->]. apply IH.
Qed.

Lemma forEach_app {A S : Type} (f : S -> A -> completion S) l1 l2 s :
  forEach f (l1 ++ l2) s = (s' ← forEach f l1 s; forEach f l2 s').
Proof.
  revert s. induction l1 as [|a l1 IH]; intros s; simpl; [done|].
  destruct (f s a); simpl; [apply IH | done].
Qed.

Lemma parse_normal q : exists r, parse q = Normal r.
Proof.
  unfold parse. destruct (match_all fieldRegex _) as [ms|]; [|eauto].
  destruct (forEach_classify_normal ms emptyResult) as [r ->]. simpl.
  destruct (match_all operatorRegex _); eauto.
Qed.

(** The loop over the clauses touches neither the free text nor the
    connectives, and keeps the sequence of date filters present. *)
Lemma classify_keeps result mt r :
  classify result mt = Normal r ->
  fullText r = fullText result /\ operators r = operators result /\
  (is_Some (dateFilters result) -> is_Some (dateFilters r)).
Proof.
  unfold classify, set_field, push_dateFilter. intros H.
  repeat match type of H with
         | context [match ?e with _ => _ end] => destruct e
         end;
    inversion H; subst; simpl; split_and!; try done;
    intros [dfs ->]; simpl; eauto.
Qed.

Lemma forEach_classify_keeps ms : forall result r,
  forEach classify ms result = Normal r ->
  fullText r = fullText result /\ operators r = operators result /\
  (is_Some (dateFilters result) -> is_Some (dateFilters r)).
Proof.
  induction ms as [|mt ms IH]; intros result r H; simpl in H.
  - by inversion H; subst.
  - destruct (classify result mt) as [r1|] eqn:E; [|done]. simpl in H.
    apply classify_keeps in E as (E1 & E2 & E3).
    apply IH in H as (H1 & H2 & H3). rewrite H1, H2, E1, E2. auto.
Qed.

Lemma collapse_nil p rep s : rep <> [] -> collapse p rep false s = [] -> s = [].
Proof.
  intros Hrep. destruct s as [|a s]; [done|]. simpl.
  destruct (p a); [|done]. destruct rep; done.
Qed.

(** What holds of the result on every input: the sequence of date filters
    is present, and the free text is the empty string only for a blank
    query. *)
Lemma parse_invariant q r :
  parse q = Normal r ->
  is_Some (dateFilters r) /\ (fullText r = Some [] -> trim q = []).
Proof.
  unfold parse. destruct (match_all fieldRegex (normalize q)) as [ms|].
  - destruct (forEach classify ms emptyResult) as [r1|] eqn:E; [|done]. simpl.
    apply forEach_classify_keeps in E as (E1 & _ & E3).
    assert (Hd : is_Some (dateFilters r1)) by (apply E3; simpl; eauto).
    simpl in E1.
    destruct (match_all operatorRegex _); simpl; case_bool_decide as Ht;
      intros [= <-]; simpl; (split; [done|]); rewrite ?E1; intros [= Hx];
      congruence.
  - intros [= <-]. simpl. split; [eauto|]. intros [= H].
    rewrite normalize_spec in H. by apply collapse_nil in H.
Qed.

End ParseFacts.

(** * The claims about [parse] *)

Module ParseClaims.
Import Regex JS SearchParser Spec RegexFacts JSFacts ParseFacts.

(** C1.  On the input [type:document AND tags:react] the clause pattern
    lets the value of [type] run up to the next field marker, so the
    connective is absorbed into the value: [parse] returns [type] mapped to
    [document AND], [tags] mapped to [react], no connective and no free
    text. *)
Theorem C1_parse_type_and_tags :
  parse "type:document AND tags:react" =
  Normal (mkParsedQuery
            (<["type" := VString "document AND"]> (<["tags" := VString "react"]> ∅))
            [] None (Some [])).
Proof. vm_compute. reflexivity. Qed.

(** The effect on the application's records: the placeholder query and the
    documented example query select nothing, the single clause selects the
    document. *)
Example C1_effect :
  run_query "type:document AND tags:react" mockItems = Normal [] /\
  run_query "title:React AND tags:javascript" mockItems = Normal [] /\
  run_query "type:document" mockItems = Normal (take 1 (drop 1 mockItems)) /\
  run_query "design" mockItems = Normal (take 1 (drop 1 mockItems)).
Proof. split_and!; by vm_compute. Qed.

(** The clauses found in that input. *)
Example C1_clauses :
  match_all fieldRegex (normalize "type:document AND tags:react") =
  Some ["type:document AND"; "tags:react"].
Proof. vm_compute. reflexivity. Qed.

(** C2.  On the empty query, and on a query of whitespace, no clause is
    found and the whole normalized string becomes the free text: [fullText]
    is present and is the empty string.  ([parse_invariant] shows that this
    happens for blank queries only.) *)
Theorem C2_parse_empty_fullText :
  parse "" = Normal (mkParsedQuery ∅ [] (Some "") (Some [])) /\
  parse "   " = Normal (mkParsedQuery ∅ [] (Some "") (Some [])).
Proof. split; vm_compute; reflexivity. Qed.

(** C4.  A query without a colon has no clause: the field map and the
    connectives are empty, whatever words the query contains, and the free
    text is the trimmed query with every run of whitespace turned into one
    space. *)
Theorem C4_parse_no_colon (q : jsstring) :
  no_colon q ->
  parse q = Normal (mkParsedQuery ∅ [] (Some (normalized q)) (Some [])).
Proof.
  intros H. unfold parse.
  by rewrite (fieldMatches_none _ (no_colon_normalize _ H)), normalize_spec.
Qed.

Lemma C4_parse_no_colon_witness :
  no_colon "  find AND   keep  " /\
  parse "  find AND   keep  " =
  Normal (mkParsedQuery ∅ [] (Some (normalized "  find AND   keep  ")) (Some [])).
Proof.
  assert (H : no_colon "  find AND   keep  ") by (repeat constructor; done).
  split; [exact H | exact (C4_parse_no_colon _ H)].
Defined.

Example normalize_example : normalized "  find AND   keep  " = "find AND keep".
Proof. vm_compute. reflexivity. Qed.

(** C6, as stated, fails: the date pattern is searched anywhere in the
    value.  The value of the clause [created:2024>01] does not begin with a
    comparison character, yet the clause yields a date filter. *)
Lemma C6_counterexample :
  clause_field "created:2024>01" = "created" /\
  begins_with_operator (clause_value "created:2024>01") = false /\
  classify emptyResult "created:2024>01" <> Normal emptyResult /\
  parse "created:2024>01" =
  Normal (mkParsedQuery ∅ [] None (Some [mkDateFilter "created" ">" "01"])).
Proof. split_and!; [by vm_compute..| |by vm_compute]. vm_compute. discriminate. Qed.

(** C6, amended.  A [created:] or [updated:] clause in whose value no
    comparison character is followed by a further character (other than a
    line terminator) is dropped: the loop body returns the result unchanged
    and without error, so the clause can be removed from any sequence of
    clauses without changing the outcome; and [parse] completes normally on
    every input. *)
Theorem C6_date_clause_dropped (mt : jsstring) :
  is_date_field (clause_field mt) = true ->
  has_operator (clause_value mt) = false ->
  (forall result, classify result mt = Normal result) /\
  (forall ms1 ms2 result,
     forEach classify (ms1 ++ mt :: ms2) result =
     forEach classify (ms1 ++ ms2) result) /\
  (forall q, exists r, parse q = Normal r).
Proof.
  intros Hf Hv.
  assert (Hdrop : forall result, classify result mt = Normal result).
  { intros result. unfold classify. unfold is_date_field in Hf. rewrite Hf.
    by rewrite dateMatch_none. }
  split_and!; [done| |apply parse_normal].
  intros ms1 ms2 result. rewrite !forEach_app.
  destruct (forEach classify ms1 result) as [r|]; simpl; [|done].
  by rewrite Hdrop.
Qed.

Lemma C6_date_clause_dropped_witness :
  is_date_field (clause_field "created:2024") = true /\
  has_operator (clause_value "created:2024") = false /\
  classify emptyResult "created:2024" = Normal emptyResult.
Proof.
  split_and!; [reflexivity..|].
  exact (proj1 (C6_date_clause_dropped "created:2024" eq_refl eq_refl) emptyResult).
Defined.

Example parse_examples :
  parse "tags:a,b,c" =
    Normal (mkParsedQuery {["tags" := VArray ["a"; "b"; "c"]]} [] None (Some [])) /\
  parse "created:>2024-01-01" =
    Normal (mkParsedQuery ∅ [] None (Some [mkDateFilter "created" ">" "2024-01-01"])) /\
  parse "notes AND title:'exact phrase' drafts" =
    Normal (mkParsedQuery {["title" := VString "exact phrase' drafts"]} ["AND"]
                          (Some "notes") (Some [])).
Proof. split_and!; by vm_compute. Qed.

Example parse_dropped_clause :
  parse "created:2024" = Normal (mkParsedQuery ∅ [] None (Some [])) /\
  parse "updated:>" = Normal (mkParsedQuery ∅ [] None (Some [])) /\
  parse "" = Normal (mkParsedQuery ∅ [] (Some "") (Some [])).
Proof. split_and!; by vm_compute. Qed.

End ParseClaims.

(** * The claims about [filter] *)

Module FilterClaims.
Import JS SearchParser Spec ListFacts.

Section Evaluator.
Variable Date_parse : jsstring -> option Z.
Variable Date_toDateString : Z -> jsstring.

Abbreviation filter := (filter Date_parse Date_toDateString).
Abbreviation item_matches := (item_matches Date_parse Date_toDateString).
Abbreviation date_step := (date_step Date_parse Date_toDateString).
Abbreviation date_pred := (date_pred Date_parse Date_toDateString).
Abbreviation all_preds := (all_preds Date_parse Date_toDateString).

Lemma field_step_pred item b e : field_step item b e = b && field_pred item e.
Proof.
  destruct e as [f v]. unfold field_step, field_pred.
  repeat case_bool_decide; destruct v; destruct (content item);
    repeat case_bool_decide; destruct b; simpl; try reflexivity; congruence.
Qed.

Lemma date_step_pred item b d : date_step item b d = b && date_pred item d.
Proof.
  unfold SearchParser.date_step, Spec.date_pred.
  repeat (case_bool_decide; [destruct b; reflexivity|]).
  destruct b; reflexivity.
Qed.

Lemma fullText_step_pred item b t :
  fullText_step item b t = b && fullText_pred item t.
Proof.
  unfold fullText_step, fullText_pred. destruct t as [t|]; [|by rewrite andb_true_r].
  case_bool_decide; destruct b; reflexivity.
Qed.

Lemma field_step_and item b e : field_step item b e = b && field_step item true e.
Proof. rewrite (field_step_pred item b), (field_step_pred item true). done. Qed.

Lemma date_step_and item b d : date_step item b d = b && date_step item true d.
Proof. rewrite (date_step_pred item b), (date_step_pred item true). done. Qed.

(** The loop over [Object.entries] computes a conjunction: the order in
    which the entries are enumerated does not matter. *)
Lemma field_loop_order item (l l' : list (jsstring * FieldValue)) b :
  l ≡ₚ l' -> fold_left (field_step item) l b = fold_left (field_step item) l' b.
Proof.
  intros Hp. rewrite !(fold_and (field_step item)) by apply field_step_and.
  by rewrite (forallb_perm _ _ _ Hp).
Qed.

(** The callback of [filter] computes the conjunction of the predicates. *)
Lemma item_matches_all_preds q item : item_matches q item = all_preds q item.
Proof.
  unfold SearchParser.item_matches, Spec.all_preds.
  rewrite fullText_step_pred. f_equal.
  assert (Hf : forall l, forallb (field_step item true) l = forallb (field_pred item) l).
  { intros l. apply forallb_eq. intros e. by rewrite field_step_pred. }
  assert (Hd : forall l, forallb (date_step item true) l = forallb (date_pred item) l).
  { intros l. apply forallb_eq. intros d. by rewrite date_step_pred. }
  destruct (dateFilters q) as [l|]; simpl.
  - rewrite (fold_and (date_step item)) by apply date_step_and.
    rewrite (fold_and (field_step item)) by apply field_step_and.
    by rewrite Hf, Hd.
  - rewrite (fold_and (field_step item)) by apply field_step_and.
    by rewrite Hf, andb_true_r.
Qed.

(** C5.  [filter] keeps exactly the records on which every active predicate
    of the query holds, in their original order; a query with no field, no
    date filter and no free text keeps every record.  The function is pure:
    its result is a value computed from its arguments. *)
Theorem C5_filter_conjunction (items : list ContentItem) (q : ParsedQuery) :
  filter items q = List.filter (all_preds q) items /\
  sublist (filter items q) items /\
  (forall item, item ∈ filter items q <-> item ∈ items /\ all_preds q item = true) /\
  (forall ops, filter items (mkParsedQuery ∅ ops None (Some [])) = items) /\
  (forall ops, filter items (mkParsedQuery ∅ ops None None) = items).
Proof.
  assert (Heq : filter items q = List.filter (all_preds q) items).
  { unfold SearchParser.filter. apply filter_ext. intros item.
    apply item_matches_all_preds. }
  split_and!.
  - exact Heq.
  - apply List_filter_sublist.
  - intros item. rewrite Heq, !list_elem_of_In. apply filter_In.
  - intros ops. apply List_filter_all. intros item. rewrite item_matches_all_preds.
    unfold all_preds. simpl. by rewrite map_to_list_empty.
  - intros ops. apply List_filter_all. intros item. rewrite item_matches_all_preds.
    unfold all_preds. simpl. by rewrite map_to_list_empty.
Qed.

(** C9.  Filtering a filtered sequence again with the same query changes
    nothing. *)
Theorem C9_filter_idempotent (items : list ContentItem) (q : ParsedQuery) :
  filter (filter items q) q = filter items q.
Proof. apply List_filter_idem. Qed.

(** C10.  For a record without content a [content] entry of the field map
    contributes no predicate: the loop body leaves the flag as it is, the
    record matches a query exactly when it matches the query without its
    [content] entry, and a query made of a [content] clause alone keeps the
    record. *)
Theorem C10_content_absent (item : ContentItem) (q : ParsedQuery) (v : FieldValue) :
  content item = None ->
  (forall b, field_step item b ("content", v) = b) /\
  item_matches q item =
    item_matches (mkParsedQuery (delete "content" (fields q)) (operators q)
                                (fullText q) (dateFilters q)) item /\
  filter [item] (mkParsedQuery {["content" := v]} [] None (Some [])) = [item].
Proof.
  intros Hc.
  assert (Hstep : forall w b, field_step item b ("content", w) = b).
  { intros w b. unfold field_step. rewrite Hc. simpl. by destruct w. }
  assert (Hpred : forall w, field_pred item ("content", w) = true).
  { intros w. specialize (Hstep w true). by rewrite field_step_pred in Hstep. }
  split_and!.
  - apply Hstep.
  - rewrite !item_matches_all_preds. unfold all_preds. simpl. do 2 f_equal.
    destruct (fields q !! "content") as [w|] eqn:E.
    + rewrite <- (forallb_perm _ _ _ (map_to_list_delete _ _ _ E)).
      cbn [forallb]. by rewrite Hpred.
    + by rewrite delete_id.
  - unfold SearchParser.filter. simpl. rewrite item_matches_all_preds.
    unfold all_preds. cbn [fields dateFilters fullText default].
    rewrite map_to_list_singleton. cbn [forallb]. by rewrite Hpred.
Qed.

End Evaluator.

Lemma C10_content_absent_witness :
  content sampleNote = None /\
  SearchParser.filter (fun _ => None) (fun _ => []) [sampleNote]
    (mkParsedQuery {["content" := VString "budget"]} [] None (Some [])) = [sampleNote].
Proof.
  split; [reflexivity|].
  exact (proj2 (proj2 (C10_content_absent (fun _ => None) (fun _ => [])
                         sampleNote (mkParsedQuery ∅ [] None None)
                         (VString "budget") eq_refl))).
Defined.

End FilterClaims.

(** * The claims about [validateQuery] *)

Module ValidateClaims.
Import Regex JS SearchParser Spec ListFacts RegexFacts JSFacts.

Lemma quotes_length q :
  length (default [] (match_all dquoteRegex q)) = quoteCount q.
Proof.
  unfold match_all, dquoteRegex, quoteCount.
  rewrite match_loop_chr by lia.
  destruct (List.filter _ q); simpl; [done|]. by rewrite length_map.
Qed.

Lemma invalidFieldsOf_spec names g :
  g ∈ invalidFieldsOf names <-> g ∈ names /\ g ∉ validFields.
Proof.
  unfold invalidFieldsOf. rewrite !list_elem_of_In, filter_In, <- !list_elem_of_In.
  rewrite negb_true_iff, bool_decide_eq_false. done.
Qed.

(** C3, as stated, fails: the offending names are listed once per
    occurrence, not deduplicated. *)
Lemma C3_counterexample :
  trim "bogus:x bogus:y" <> [] /\
  quoteCount "bogus:x bogus:y" mod 2 = 0 /\
  queryFieldNames "bogus:x bogus:y" = ["bogus"; "bogus"] /\
  validateQuery "bogus:x bogus:y" =
    mkValidation false (Some (unknownFieldMessage ["bogus"; "bogus"])) /\
  validateQuery "bogus:x bogus:y" <>
    mkValidation false
      (Some (unknownFieldMessage
               (uniq (invalidFieldsOf (queryFieldNames "bogus:x bogus:y"))))).
Proof. split_and!; by vm_compute. Qed.

(** C3, amended.  A query that is not blank, has an even number of double
    quotes and contains a [word:] pattern whose name is outside the allowed
    set is invalid, and the message lists the offending names once per
    occurrence, in order of occurrence, followed by the full allowed set. *)
Theorem C3_unknown_fields_reported (q f : jsstring) :
  trim q <> [] ->
  quoteCount q mod 2 = 0 ->
  f ∈ queryFieldNames q ->
  f ∉ validFields ->
  validateQuery q =
    mkValidation false
      (Some (unknownFieldMessage (invalidFieldsOf (queryFieldNames q)))) /\
  f ∈ invalidFieldsOf (queryFieldNames q) /\
  (forall g, g ∈ invalidFieldsOf (queryFieldNames q) <->
             g ∈ queryFieldNames q /\ g ∉ validFields) /\
  sublist (invalidFieldsOf (queryFieldNames q)) (queryFieldNames q).
Proof.
  intros Hne Hq Hf Hbad.
  assert (Hin : f ∈ invalidFieldsOf (queryFieldNames q))
    by by apply invalidFieldsOf_spec.
  split_and!; [|done|apply invalidFieldsOf_spec|apply List_filter_sublist].
  unfold validateQuery. rewrite bool_decide_false by done.
  pose proof (quotes_length q) as Hlen.
  destruct (match_all dquoteRegex q) as [quotes|] eqn:Eq; simpl in Hlen.
  - rewrite Hlen, Hq. simpl. revert Hf Hin. unfold queryFieldNames.
    destruct (match_all fieldNameRegex q) as [ms|]; simpl; intros Hf Hin.
    + destruct (invalidFieldsOf (fieldNames ms)) eqn:E; [by inversion Hin|]. done.
    + by inversion Hf.
  - revert Hf Hin. unfold queryFieldNames.
    destruct (match_all fieldNameRegex q) as [ms|]; simpl; intros Hf Hin.
    + destruct (invalidFieldsOf (fieldNames ms)) eqn:E; [by inversion Hin|]. done.
    + by inversion Hf.
Qed.

Lemma C3_unknown_fields_reported_witness :
  validateQuery "author:x title:y bogus:z" =
  mkValidation false
    (Some (unknownFieldMessage (invalidFieldsOf (queryFieldNames "author:x title:y bogus:z")))).
Proof.
  refine (proj1 (C3_unknown_fields_reported "author:x title:y bogus:z" "bogus" _ _ _ _)).
  - vm_compute. discriminate.
  - reflexivity.
  - vm_compute. apply list_elem_of_In. simpl. tauto.
  - vm_compute. intros H. apply list_elem_of_In in H. simpl in H.
    repeat destruct H as [H|H]; try discriminate H. exact H.
Defined.

Example validate_examples :
  validateQuery "author:x title:y bogus:z" =
    mkValidation false
      (Some "Invalid field(s): author, bogus. Valid fields: title, content, tags, type, created, updated") /\
  validateQuery "title:y" = mkValidation true None /\
  validateQuery "  " = mkValidation false (Some "Query cannot be empty").
Proof. split_and!; by vm_compute. Qed.

End ValidateClaims.

(** * The claims about [getSuggestions] *)

Module SuggestClaims.
Import Regex JS SearchParser Spec ListFacts RegexFacts JSFacts.

Lemma uniq_from (l : list jsstring) : forall acc,
  fold_left (fun acc x => if bool_decide (x ∈ acc) then acc else acc ++ [x]) l acc =
  acc ++ List.filter (fun y => negb (bool_decide (y ∈ acc))) (first_occurrences l).
Proof.
  induction l as [|x l IH]; intros acc; simpl.
  - by rewrite app_nil_r.
  - rewrite filter_filter. case_bool_decide as Hx; simpl; rewrite IH.
    + f_equal. apply filter_ext. intros y.
      repeat case_bool_decide; simpl; try done; by subst.
    + rewrite <- app_assoc. simpl. do 2 f_equal. apply filter_ext. intros y.
      assert (Hy : y ∈ acc ++ [x] <-> y = x \/ y ∈ acc)
        by (rewrite elem_of_app, list_elem_of_singleton; tauto).
      repeat case_bool_decide; simpl; try done; tauto.
Qed.

(** Spreading a [Set] yields the first occurrences. *)
Lemma uniq_first_occurrences l : uniq l = first_occurrences l.
Proof.
  unfold uniq. rewrite uniq_from. simpl. by apply List_filter_all.
Qed.

Lemma first_occurrences_elem l x : x ∈ first_occurrences l <-> x ∈ l.
Proof.
  induction l as [|a l IH]; simpl; [done|].
  rewrite !elem_of_cons, <- IH, !list_elem_of_In, filter_In, <- !list_elem_of_In.
  rewrite negb_true_iff, bool_decide_eq_false.
  destruct (decide (x = a)); tauto.
Qed.

Lemma first_occurrences_NoDup l : NoDup (first_occurrences l).
Proof.
  induction l as [|a l IH]; simpl; constructor.
  - rewrite list_elem_of_In, filter_In, negb_true_iff, bool_decide_eq_false.
    tauto.
  - revert IH. generalize (first_occurrences l). intros k Hk.
    induction Hk as [|y k Hy Hk IHk]; simpl; [constructor|].
    destruct (negb _); [|done]. constructor; [|done].
    rewrite list_elem_of_In, filter_In, <- list_elem_of_In. tauto.
Qed.

(** The last word of the query is its last token, in lower case. *)
Lemma lastWord_spec query : lastWord query = toLowerCase (lastToken query).
Proof.
  unfold lastWord, split, whitespaceRegex, space.
  rewrite (split_loop_runs _ (length query)) by lia.
  by rewrite last_pieces.
Qed.

(** On Latin-1 strings lower-casing keeps the number of code units, so
    there the guard is on the length of the last token itself; the
    suggestions are the first ten of: the title suggestions, then the tag
    suggestions, then the type suggestions, each group over the distinct
    values in order of first occurrence. *)
Lemma getSuggestions_latin1 (query : jsstring) (items : list ContentItem) :
  getSuggestions query items =
    (if length (lastToken query) <? 2 then []
     else take 10
            (group titleSuggestion (toLowerCase (lastToken query)) (map title items) ++
             group tagSuggestion (toLowerCase (lastToken query)) (concat (map tags items)) ++
             group typeSuggestion (toLowerCase (lastToken query)) (map contentType items))) /\
  length (getSuggestions query items) <= 10.
Proof.
  assert (H : getSuggestions query items =
    (if length (lastToken query) <? 2 then []
     else take 10
            (group titleSuggestion (toLowerCase (lastToken query)) (map title items) ++
             group tagSuggestion (toLowerCase (lastToken query)) (concat (map tags items)) ++
             group typeSuggestion (toLowerCase (lastToken query)) (map contentType items)))).
  { unfold getSuggestions, suggest, group.
    rewrite !uniq_first_occurrences, lastWord_spec.
    unfold toLowerCase at 1. by rewrite length_map. }
  split; [done|]. rewrite H. destruct (_ <? _); simpl; [lia|].
  rewrite length_take. lia.
Qed.

Example getSuggestions_examples :
  getSuggestions "type:note re" mockItems =
    [titleSuggestion "React Best Practices"; titleSuggestion "Architecture Diagram";
     titleSuggestion "Team Meeting Recording";
     titleSuggestion "Useful Development Resources";
     "tags:react"; "tags:architecture"; "tags:resources"] /\
  getSuggestions "java" mockItems = ["tags:javascript"] /\
  getSuggestions "r" mockItems = [] /\
  getSuggestions "react " mockItems = [] /\
  lastToken "type:note RE" = "RE" /\
  lastToken "react " = "".
Proof. split_and!; by vm_compute. Qed.

End SuggestClaims.

(** * The claims about [highlight] *)

Module HighlightClaims.
Import Regex JS SearchParser Spec RegexFacts JSFacts.

Lemma ci_startsWith_spec t s :
  ci_startsWith t s = true ->
  length t <= length s /\ ci_eq (take (length t) s) t.
Proof.
  revert s. induction t as [|c t IH]; intros s H; simpl in *.
  - split; [lia | done].
  - destruct s as [|a s]; [done|]. apply andb_true_iff in H as [Hc H].
    apply IH in H as [Hl He]. split; [simpl; lia|].
    unfold ci_eq in *. simpl. f_equal; [|done].
    unfold Char.is_ci in Hc. by apply bool_decide_eq_true in Hc.
Qed.

(** The matcher of a literal, up to case. *)
Lemma m_lit_ci {R : Type} t : forall x c (k : cont R),
  m (lit_ci t) x c k =
  if ci_startsWith t (ahead x)
  then k (rev (take (length t) (ahead x)) ++ behind x, drop (length t) (ahead x)) c
  else None.
Proof.
  induction t as [|a t IH]; intros [pre suf] c k.
  - reflexivity.
  - change (lit_ci (a :: t)) with (Chr (Char.is_ci a) >> lit_ci t).
    rewrite m_seq. cbn [m ahead behind fst snd ci_startsWith].
    destruct suf as [|b suf]; [done|]. destruct (Char.is_ci a b); [|done].
    rewrite IH. cbn [ahead behind fst snd andb length take drop rev].
    by rewrite <- app_assoc.
Qed.

Lemma exec_at_lit_ci t pre suf :
  exec_at (Group 1 (lit_ci t)) (pre, suf) =
  if ci_startsWith t suf
  then Some ((rev (take (length t) suf) ++ pre, drop (length t) suf),
             {[1 := take (length t) suf]})
  else None.
Proof.
  unfold exec_at. rewrite m_group, m_lit_ci. cbn [ahead behind fst snd].
  destruct (ci_startsWith t suf) eqn:E; [|done].
  apply ci_startsWith_spec in E as [Hl _]. unfold span. cbn [ahead snd].
  rewrite length_drop. replace (length suf - (length suf - length t)) with (length t) by lia.
  by rewrite insert_empty.
Qed.

(** A syntax character is escaped, any other character is kept. *)
Lemma escapeRegExp_spec q :
  escapeRegExp q =
  concat (map (fun a => if Char.one_of syntaxChars a then ["\"%char; a] else [a]) q).
Proof.
  unfold escapeRegExp, replace_all, metaRegex. rewrite replace_loop_chr by lia.
  f_equal.
Qed.

(** The escaped term is read by the [RegExp] constructor as the literal
    term: no character of the term acts as an operator. *)
Lemma compile_escaped q : compile_atoms (escapeRegExp q) = Some (lit_ci q).
Proof.
  rewrite escapeRegExp_spec. induction q as [|a q IH]; [done|].
  cbn [map concat]. destruct (Char.one_of syntaxChars a) eqn:E.
  - cbn [app compile_atoms]. rewrite bool_decide_true by done.
    rewrite E, IH. done.
  - cbn [app compile_atoms]. rewrite E. case_bool_decide as Ha.
    + subst a. by vm_compute in E.
    + by rewrite IH.
Qed.

Lemma highlight_loop term : term <> [] ->
  forall fuel pre suf, length suf < fuel ->
    Highlighted term suf (replace_loop (Group 1 (lit_ci term)) markTemplate fuel pre suf).
Proof.
  intros Hne fuel. induction fuel as [|fuel IH]; intros pre suf Hf; [lia|].
  cbn [replace_loop].
  destruct (search (Group 1 (lit_ci term)) pre suf) as [[[st en] c]|] eqn:E.
  - apply search_some_inv in E as (before & H1 & H2 & H3 & H4).
    destruct st as [spre ssuf]. cbn [ahead behind fst snd] in *.
    rewrite exec_at_lit_ci in H3.
    destruct (ci_startsWith term ssuf) eqn:Es; [|done].
    inversion H3; subst en c; clear H3.
    pose proof (ci_startsWith_spec _ _ Es) as [Hl Hci].
    assert (Hb : span (pre, suf) (spre, ssuf) = before).
    { unfold span. cbn [ahead snd]. rewrite H1, length_app.
      replace (length before + length ssuf - length ssuf) with (length before) by lia.
      by rewrite take_app_length. }
    assert (Hm : span (spre, ssuf) (rev (take (length term) ssuf) ++ spre,
                                     drop (length term) ssuf)
                 = take (length term) ssuf).
    { unfold span. cbn [ahead snd]. rewrite length_drop. f_equal. lia. }
    rewrite Hb, Hm. rewrite bool_decide_false.
    2:{ intros Hnil. apply (f_equal length) in Hnil. rewrite length_take in Hnil.
        destruct term; [done|]. cbn [length] in *. lia. }
    cbn [ahead behind fst snd].
    replace (subst markTemplate (take (length term) ssuf) {[1 := take (length term) ssuf]})
      with (markOpen ++ take (length term) ssuf ++ markClose).
    2:{ unfold subst, markTemplate. cbn [map subst1 concat].
        rewrite lookup_singleton_eq. cbn [default]. by rewrite app_nil_r. }
    rewrite H1. rewrite <- (take_drop (length term) ssuf) at 1.
    rewrite <- !app_assoc.
    apply Highlighted_wrap; [done| |].
    + intros p1 p2 Hp Hp2. specialize (H4 p1 p2 Hp Hp2).
      rewrite exec_at_lit_ci in H4. rewrite take_drop.
      by destruct (ci_startsWith term (p2 ++ ssuf)).
    + apply IH. rewrite length_drop. rewrite H1, length_app in Hf.
      destruct term; [done|]. cbn [length] in *. lia.
  - apply Highlighted_none. intros p1 p2 Hp.
    pose proof (search_none_inv _ _ _ E p1 p2 Hp) as H.
    rewrite exec_at_lit_ci in H. by destruct (ci_startsWith term p2).
Qed.

(** C7.  An empty term leaves the text unchanged.  A term that is not empty
    is read literally, whatever characters it contains, and the result is
    the text with the occurrences of the term up to case wrapped in the
    marker, each with its original spelling, the rest of the text being
    copied as it is. *)
Theorem C7_highlight (text term : jsstring) :
  term <> [] ->
  highlight text [] = text /\
  compile_atoms (escapeRegExp term) = Some (lit_ci term) /\
  Highlighted term text (highlight text term).
Proof.
  intros Hne. split_and!; [done|apply compile_escaped|].
  unfold highlight. rewrite bool_decide_false by done.
  rewrite compile_escaped. by apply highlight_loop; [|lia].
Qed.

Lemma C7_highlight_witness :
  Highlighted "a.b" "A.B axb a.b" (highlight "A.B axb a.b" "a.b").
Proof.
  refine (proj2 (proj2 (C7_highlight "A.B axb a.b" "a.b" _))). discriminate.
Defined.

Example highlight_examples :
  highlight "Hello World" "world" = "Hello " ++ markOpen ++ "World" ++ markClose /\
  highlight "A.B axb a.b" "a.b" =
    markOpen ++ "A.B" ++ markClose ++ " axb " ++ markOpen ++ "a.b" ++ markClose /\
  highlight "aaa" "aa" = markOpen ++ "aa" ++ markClose ++ "a" /\
  highlight "Hello" "" = "Hello".
Proof. split_and!; by vm_compute. Qed.

End HighlightClaims.

(** * Further properties of [parse] *)

Module ParseExtras.
Import Regex JS SearchParser Spec SpecExtra ListFacts RegexFacts JSFacts ParseFacts.
Import HighlightClaims.

Lemma forallb_Forall {A : Type} (f : A -> bool) (l : list A) :
  Forall (fun a => f a = true) l <-> forallb f l = true.
Proof.
  induction l as [|a l IH]; simpl; [by split|].
  rewrite Forall_cons, andb_true_iff, IH. done.
Qed.

Lemma m_wordb {R : Type} x c (k : cont R) :
  m WordB x c k = if xorb (word_before x) (word_after x) then k x c else None.
Proof. reflexivity. Qed.

Lemma m_alt {R : Type} r1 r2 x c (k : cont R) :
  m (Alt r1 r2) x c k = orelse (m r1 x c k) (m r2 x c k).
Proof. reflexivity. Qed.

Lemma span_take st b n :
  n <= length (ahead st) -> span st (b, drop n (ahead st)) = take n (ahead st).
Proof.
  intros Hn. unfold span. cbn [ahead snd]. rewrite length_drop. f_equal. lia.
Qed.

Lemma consumed_span x mid x' : consumed x mid x' -> span x x' = mid.
Proof.
  intros [H _]. unfold span. rewrite H, length_app.
  replace (length mid + length (ahead x') - length (ahead x')) with (length mid) by lia.
  by rewrite take_app_length.
Qed.

(** Every element of a global match is the text of a successful attempt. *)
Lemma match_loop_elem r fuel : forall pre suf x,
  x ∈ match_loop r fuel pre suf ->
  exists st en c, exec_at r st = Some (en, c) /\ x = span st en.
Proof.
  induction fuel as [|fuel IH]; intros pre suf x Hx; simpl in Hx.
  - by apply elem_of_nil in Hx.
  - destruct (search r pre suf) as [[[st en] c]|] eqn:E;
      [|by apply elem_of_nil in Hx].
    apply search_sound in E as (_ & _ & E).
    apply elem_of_cons in Hx as [->|Hx]; [eauto|].
    case_bool_decide.
    + destruct (ahead en); [by apply elem_of_nil in Hx|]. by eapply IH.
    + by eapply IH.
Qed.

Lemma match_all_elem r s l x :
  match_all r s = Some l -> x ∈ l ->
  exists st en c, exec_at r st = Some (en, c) /\ x = span st en.
Proof.
  unfold match_all. intros H Hx.
  destruct (match_loop r (S (length s)) [] s) eqn:E; [done|].
  inversion H; subst. rewrite <- E in Hx. by eapply match_loop_elem.
Qed.

Lemma ci_upper s t : ci_eq s t -> toUpperCase s = toUpperCase t.
Proof. done. Qed.

(** What the connective pattern matches is one of the three keywords, up
    to case. *)
Lemma operatorRegex_keyword st en c :
  exec_at operatorRegex st = Some (en, c) ->
  toUpperCase (span st en) ∈ ["AND"; "OR"; "NOT"].
Proof.
  unfold exec_at, operatorRegex. rewrite m_seq, m_wordb.
  destruct (xorb _ _); [|done].
  rewrite m_seq, m_group, !m_alt. unfold orelse. rewrite !m_lit_ci.
  assert (Hk : forall (lit : jsstring),
    ci_startsWith lit (ahead st) = true ->
    forall y : pos * caps,
    m WordB (rev (take (length lit) (ahead st)) ++ behind st,
             drop (length lit) (ahead st))
      (<[1 := span st (rev (take (length lit) (ahead st)) ++ behind st,
                       drop (length lit) (ahead st))]> ∅)
      (fun x' c0 => Some (x', c0)) = Some y ->
    toUpperCase (span st (fst y)) = toUpperCase lit).
  { intros lit Hl y. rewrite m_wordb. destruct (xorb _ _); [|done].
    intros [= <-]. cbn [fst]. apply ci_startsWith_spec in Hl as [Hlen Hci].
    rewrite span_take by done. by apply ci_upper. }
  destruct (ci_startsWith "AND" (ahead st)) eqn:E1.
  - destruct (m WordB _ _ _) as [y|] eqn:Ey at 1.
    + intros [= Hy]. pose proof (Hk _ E1 _ Ey) as H. rewrite Hy in H. cbn [fst] in H.
      rewrite H. set_solver.
    + destruct (ci_startsWith "OR" (ahead st)) eqn:E2.
      * destruct (m WordB _ _ _) as [y|] eqn:Ey2 at 1.
        -- intros [= Hy]. pose proof (Hk _ E2 _ Ey2) as H. rewrite Hy in H.
           cbn [fst] in H. rewrite H. set_solver.
        -- destruct (ci_startsWith "NOT" (ahead st)) eqn:E3; [|done].
           intros Hy. pose proof (Hk _ E3 _ Hy) as H. cbn [fst] in H.
           rewrite H. set_solver.
      * destruct (ci_startsWith "NOT" (ahead st)) eqn:E3; [|done].
        intros Hy. pose proof (Hk _ E3 _ Hy) as H. cbn [fst] in H.
        rewrite H. set_solver.
  - destruct (ci_startsWith "OR" (ahead st)) eqn:E2.
    + destruct (m WordB _ _ _) as [y|] eqn:Ey2 at 1.
      * intros [= Hy]. pose proof (Hk _ E2 _ Ey2) as H. rewrite Hy in H.
        cbn [fst] in H. rewrite H. set_solver.
      * destruct (ci_startsWith "NOT" (ahead st)) eqn:E3; [|done].
        intros Hy. pose proof (Hk _ E3 _ Hy) as H. cbn [fst] in H.
        rewrite H. set_solver.
    + destruct (ci_startsWith "NOT" (ahead st)) eqn:E3; [|done].
      intros Hy. pose proof (Hk _ E3 _ Hy) as H. cbn [fst] in H.
      rewrite H. set_solver.
Qed.

(** X1.  The connectives recorded by [parse] are always among [AND], [OR]
    and [NOT], in upper case, however the query spells them. *)
Theorem parse_operators_keywords (q : jsstring) (r : ParsedQuery) :
  parse q = Normal r ->
  Forall (fun op => op ∈ connectives) (operators r).
Proof.
  unfold parse. destruct (match_all fieldRegex (normalize q)) as [ms|].
  - destruct (forEach classify ms emptyResult) as [r1|] eqn:E; [|done]. simpl.
    apply forEach_classify_keeps in E as (_ & E2 & _). simpl in E2.
    destruct (match_all operatorRegex _) as [ops|] eqn:Eo; simpl.
    + assert (Hops : Forall (fun op => op ∈ connectives) (map toUpperCase ops)).
      { apply Forall_forall. intros op Hop. apply list_elem_of_fmap in Hop as (o & -> & Ho).
        destruct (match_all_elem _ _ _ _ Eo Ho) as (st & en & c & Hex & ->).
        by eapply operatorRegex_keyword. }
      case_bool_decide; intros [= <-]; done.
    + case_bool_decide; intros [= <-]; simpl; rewrite E2; constructor.
  - intros [= <-]. constructor.
Qed.

Lemma parse_operators_keywords_witness :
  parse "cats and dogs Or title:x y nOT" =
    Normal (mkParsedQuery {["title" := VString "x y nOT"]} ["AND"; "OR"]
                          (Some "cats  dogs") (Some [])) /\
  Forall (fun op => op ∈ connectives) ["AND"; "OR"].
Proof.
  assert (H : parse "cats and dogs Or title:x y nOT" =
    Normal (mkParsedQuery {["title" := VString "x y nOT"]} ["AND"; "OR"]
                          (Some "cats  dogs") (Some []))) by (vm_compute; reflexivity).
  split; [exact H | exact (parse_operators_keywords _ _ H)].
Defined.

(** A successful date match binds its first group to a non-empty run of
    comparison characters. *)
Lemma dateMatch_group1 v dateMatch :
  match_first dateRegex v = Some dateMatch ->
  exists op, dateMatch !! 1 = Some op /\ op <> [] /\
             Forall (fun a => is_comparison a = true) op.
Proof.
  unfold match_first. destruct (search dateRegex [] v) as [[[st en] c]|] eqn:E; [|done].
  intros [= <-]. apply search_sound in E as (_ & _ & E).
  unfold exec_at, dateRegex in E. rewrite m_seq, m_group in E.
  apply m_plus_chr in E as (mid1 & x1 & Hne1 & Hall1 & Hc1 & E).
  rewrite m_group in E.
  apply m_plus_chr in E as (mid2 & x2 & _ & _ & _ & E). inversion E; subst.
  exists mid1. split_and!; [|done..].
  rewrite lookup_insert_ne by done. rewrite lookup_insert_ne by done.
  rewrite lookup_insert_eq. by rewrite (consumed_span _ _ _ Hc1).
Qed.

(** The loop body, as a function of the clause: a date clause appends its
    filter, if it has one, and any other clause writes its entry. *)
Lemma classify_spec result mt :
  classify result mt =
  Normal (if is_date_field (clause_field mt) then
            match clause_date mt with
            | Some d => push_dateFilter d result
            | None => result
            end
          else set_field (clause_field mt) (clause_entry mt) result).
Proof.
  unfold classify, clause_date, clause_entry, is_date_field.
  destruct (_ || _).
  - destruct (match_first dateRegex _) as [dateMatch|] eqn:E; [|done].
    by destruct (dateMatch_group2 _ _ E) as [v2 ->].
  - case_bool_decide; [|done]. simpl. by destruct (includes _ _).
Qed.

Lemma clause_date_ok mt d : clause_date mt = Some d -> dateFilter_ok d = true.
Proof.
  unfold clause_date. destruct (is_date_field (clause_field mt)) eqn:Ef; [|done].
  destruct (match_first dateRegex _) as [dateMatch|] eqn:E; [|done].
  intros [= <-]. destruct (dateMatch_group1 _ _ E) as (op & -> & Hne & Hall).
  unfold dateFilter_ok. cbn [field operator default]. rewrite Ef.
  rewrite bool_decide_false by done. simpl. by apply forallb_Forall.
Qed.

Lemma forEach_cons {A S : Type} (f : S -> A -> completion S) a l s s' :
  f s a = Normal s' -> forEach f (a :: l) s = forEach f l s'.
Proof. intros H. cbn [forEach]. by rewrite H. Qed.

Lemma clause_date_field mt :
  is_date_field (clause_field mt) = false -> clause_date mt = None.
Proof. intros H. unfold clause_date. by rewrite H. Qed.

Lemma forEach_classify_dates ms : forall result r,
  forEach classify ms result = Normal r ->
  dateFilters r = (fun l => l ++ omap clause_date ms) <$> dateFilters result.
Proof.
  induction ms as [|mt ms IH]; intros result r H.
  - inversion H; subst. destruct (dateFilters r); simpl; [|done].
    by rewrite app_nil_r.
  - rewrite (forEach_cons _ _ _ _ _ (classify_spec result mt)) in H.
    apply IH in H. rewrite H. cbn [omap list_omap].
    destruct (is_date_field (clause_field mt)) eqn:Ef.
    + destruct (clause_date mt) as [d|]; [|done]. cbn [push_dateFilter dateFilters].
      destruct (dateFilters result); simpl; [|done]. by rewrite <- app_assoc.
    + rewrite (clause_date_field _ Ef). unfold set_field. by case_bool_decide.
Qed.

(** X2.  The date filters of a parsed query are the filters of its date
    clauses: each is on [created] or [updated] and its operator is a
    non-empty run of comparison characters. *)
Theorem parse_dateFilters_ok (q : jsstring) (r : ParsedQuery) :
  parse q = Normal r ->
  exists l, dateFilters r = Some l /\ Forall (fun d => dateFilter_ok d = true) l.
Proof.
  unfold parse. destruct (match_all fieldRegex (normalize q)) as [ms|].
  - destruct (forEach classify ms emptyResult) as [r1|] eqn:E; [|done]. simpl.
    apply forEach_classify_dates in E. simpl in E.
    assert (Hall : Forall (fun d => dateFilter_ok d = true) (omap clause_date ms)).
    { apply Forall_forall. intros d Hd. apply list_elem_of_omap in Hd as (mt & _ & Hd).
      by eapply clause_date_ok. }
    destruct (match_all operatorRegex _); simpl; case_bool_decide;
      intros [= <-]; simpl; eauto.
  - intros [= <-]. simpl. eauto.
Qed.

Lemma parse_dateFilters_ok_witness :
  parse "created:>=2024-01-01 updated:!x created:today" =
    Normal (mkParsedQuery ∅ [] None
              (Some [mkDateFilter "created" ">=" "2024-01-01";
                     mkDateFilter "updated" "!" "x"])) /\
  exists l, Some [mkDateFilter "created" ">=" "2024-01-01";
                  mkDateFilter "updated" "!" "x"] = Some l /\
            Forall (fun d => dateFilter_ok d = true) l.
Proof.
  assert (H : parse "created:>=2024-01-01 updated:!x created:today" =
    Normal (mkParsedQuery ∅ [] None
              (Some [mkDateFilter "created" ">=" "2024-01-01";
                     mkDateFilter "updated" "!" "x"]))) by (vm_compute; reflexivity).
  split; [exact H | exact (parse_dateFilters_ok _ _ H)].
Defined.

(** X3.  Date clauses are appended in the order of the clauses and never
    overwrite one another: after the loop the date filters are the initial
    ones followed by the filter of every date clause that has one. *)
Theorem classify_dates_appended (ms : list jsstring) (result r : ParsedQuery) :
  forEach classify ms result = Normal r ->
  dateFilters r = (fun l => l ++ omap clause_date ms) <$> dateFilters result.
Proof. apply forEach_classify_dates. Qed.

Lemma classify_dates_appended_witness :
  forEach classify ["created:>1"; "title:x"; "created:<9"; "created:>1"] emptyResult =
    Normal (mkParsedQuery {["title" := VString "x"]} [] None
              (Some [mkDateFilter "created" ">" "1"; mkDateFilter "created" "<" "9";
                     mkDateFilter "created" ">" "1"])) /\
  Some [mkDateFilter "created" ">" "1"; mkDateFilter "created" "<" "9";
        mkDateFilter "created" ">" "1"] =
  (fun l => l ++ omap clause_date ["created:>1"; "title:x"; "created:<9"; "created:>1"])
    <$> dateFilters emptyResult.
Proof.
  assert (H : forEach classify ["created:>1"; "title:x"; "created:<9"; "created:>1"]
                emptyResult =
    Normal (mkParsedQuery {["title" := VString "x"]} [] None
              (Some [mkDateFilter "created" ">" "1"; mkDateFilter "created" "<" "9";
                     mkDateFilter "created" ">" "1"]))) by (vm_compute; reflexivity).
  split; [exact H | exact (classify_dates_appended _ _ _ H)].
Defined.

Lemma consumed_trans x y z m1 m2 :
  consumed x m1 y -> consumed y m2 z -> consumed x (m1 ++ m2) z.
Proof.
  intros [H1 H2] [H3 H4]. split.
  - rewrite H1, H3. by rewrite app_assoc.
  - rewrite H4, H2, rev_app_distr. by rewrite app_assoc.
Qed.

(** What the clause pattern matches begins with a word and a colon. *)
Lemma fieldRegex_shape st en c :
  exec_at fieldRegex st = Some (en, c) -> clause_shape (span st en).
Proof.
  unfold exec_at, fieldRegex. rewrite m_seq, m_group. intros E.
  apply m_plus_chr in E as (name & x1 & Hne & Hall & Hc1 & E).
  rewrite m_seq in E. destruct x1 as [p1 s1]. destruct s1 as [|a rest1]; [done|].
  unfold colon in E. rewrite m_chr_cons in E.
  destruct (Char.eq ":" a) eqn:Ea; [|done].
  apply bool_decide_eq_true in Ea as ->.
  apply m_sound in E as (x' & c' & [mid' Hc'] & _ & E). inversion E; subst.
  exists name, mid'. split_and!; [|done..].
  apply consumed_span.
  apply (consumed_trans _ (p1, ":"%char :: rest1) _ name (":"%char :: mid')); [done|].
  apply (consumed_trans _ (":"%char :: p1, rest1) _ [":"%char] mid'); [by split|done].
Qed.

Lemma word_not_space a : Char.is_word a = true -> Char.is_space a = false.
Proof. destruct a as [[] [] [] [] [] [] [] []]; by vm_compute. Qed.

Lemma word_not_colon a : Char.is_word a = true -> a <> ":"%char.
Proof. intros H ->. by vm_compute in H. Qed.

Lemma indexOf_app name c rest :
  Forall (fun a => a <> c) name ->
  indexOf (name ++ c :: rest) c = Z.of_nat (length name).
Proof.
  induction 1 as [|a name Ha _ IH]; simpl.
  - by rewrite bool_decide_true.
  - rewrite bool_decide_false by done. rewrite IH.
    destruct (Z.of_nat (length name) <? 0)%Z eqn:E; [|lia].
    apply Z.ltb_lt in E. lia.
Qed.

Lemma substring_prefix s n :
  n <= length s -> substring s 0 (Some (Z.of_nat n)) = take n s.
Proof.
  intros Hn. unfold substring, clamp.
  replace (Z.to_nat (Z.min (Z.max 0 0) (Z.of_nat (length s)))) with 0 by lia.
  replace (Z.to_nat (Z.min (Z.max (Z.of_nat n) 0) (Z.of_nat (length s)))) with n by lia.
  rewrite Nat.max_r, Nat.min_l by lia. simpl. f_equal. lia.
Qed.

Lemma trimStart_id s :
  match s with a :: _ => Char.is_space a = false | [] => True end ->
  trimStart s = s.
Proof. destruct s as [|a s]; simpl; [done|]. by intros ->. Qed.

Lemma trim_word name :
  Forall (fun a => Char.is_word a = true) name -> trim name = name.
Proof.
  intros Hall. unfold trim, trimEnd.
  rewrite (trimStart_id name).
  2:{ destruct Hall; [done|]. by apply word_not_space. }
  rewrite (trimStart_id (rev name)); [by rewrite rev_involutive|].
  apply Forall_rev in Hall. destruct Hall; [done|]. by apply word_not_space.
Qed.

(** The name of a clause is its leading word. *)
Lemma clause_field_shape name rest :
  Forall (fun a => Char.is_word a = true) name ->
  clause_field (name ++ ":"%char :: rest) = name.
Proof.
  intros Hall. unfold clause_field.
  rewrite indexOf_app by (eapply Forall_impl; [done | apply word_not_colon]).
  rewrite substring_prefix by (rewrite length_app; lia).
  rewrite take_app_length. by apply trim_word.
Qed.

Lemma fields_push d q : fields (push_dateFilter d q) = fields q.
Proof. done. Qed.

Lemma fields_set_field k v q j :
  fields (set_field k v q) !! j =
  if bool_decide (k = j) && negb (bool_decide (k = "__proto__"))
  then Some v else fields q !! j.
Proof.
  unfold set_field. case_bool_decide as Hp; simpl.
  - by rewrite andb_false_r.
  - rewrite andb_true_r. case_bool_decide as Hk.
    + subst. apply lookup_insert_eq.
    + by apply lookup_insert_ne.
Qed.

Lemma forEach_classify_fields ms : forall result r k,
  forEach classify ms result = Normal r ->
  fields r !! k =
  match last (List.filter (fun mt => is_field_clause mt &&
                                     bool_decide (clause_field mt = k)) ms) with
  | Some mt => Some (clause_entry mt)
  | None => fields result !! k
  end.
Proof.
  induction ms as [|mt ms IH]; intros result r k H.
  - by inversion H; subst.
  - rewrite (forEach_cons _ _ _ _ _ (classify_spec result mt)) in H.
    rewrite (IH _ _ k H). cbn [List.filter]. unfold is_field_clause at 2.
    destruct (is_date_field (clause_field mt)) eqn:Ef; simpl.
    + by destruct (clause_date mt).
    + rewrite fields_set_field.
      rewrite (andb_comm (negb (bool_decide (clause_field mt = "__proto__")))).
      destruct (_ && _); [|done]. rewrite last_cons.
      by destruct (last _).
Qed.

(** X4.  A later clause for a field overwrites an earlier one: after the
    loop over the clauses, the entry of a name is the entry of the last
    clause that writes under that name, and the initial entry when there
    is none. *)
Theorem classify_last_write_wins (ms : list jsstring) (result r : ParsedQuery)
  (k : jsstring) :
  forEach classify ms result = Normal r ->
  fields r !! k =
  match last (List.filter (fun mt => is_field_clause mt &&
                                     bool_decide (clause_field mt = k)) ms) with
  | Some mt => Some (clause_entry mt)
  | None => fields result !! k
  end.
Proof. apply forEach_classify_fields. Qed.

Lemma classify_last_write_wins_witness :
  forEach classify ["title:a"; "tags:x,y"; "title:b"; "created:c"] emptyResult =
    Normal (mkParsedQuery (<["title" := VString "b"]>
                             {["tags" := VArray ["x"; "y"]]}) [] None (Some [])) /\
  (<["title" := VString "b"]> {["tags" := VArray ["x"; "y"]]}
     : gmap jsstring FieldValue) !! "title" =
  match last (List.filter (fun mt => is_field_clause mt &&
                                     bool_decide (clause_field mt = "title"))
                          ["title:a"; "tags:x,y"; "title:b"; "created:c"]) with
  | Some mt => Some (clause_entry mt)
  | None => fields emptyResult !! "title"
  end.
Proof.
  assert (H : forEach classify ["title:a"; "tags:x,y"; "title:b"; "created:c"]
                emptyResult =
    Normal (mkParsedQuery (<["title" := VString "b"]>
                             {["tags" := VArray ["x"; "y"]]}) [] None (Some [])))
    by (vm_compute; reflexivity).
  split; [exact H | exact (classify_last_write_wins _ _ _ "title" H)].
Defined.

Lemma split_char_length c s : 1 <= length (split_char c s).
Proof.
  induction s as [|a s IH]; simpl; [lia|].
  case_bool_decide; simpl; [lia|]. destruct (split_char c s); simpl in *; lia.
Qed.

(** A value that contains the separator splits into at least two pieces. *)
Lemma split_char_includes c s :
  includes s [c] = true -> 2 <= length (split_char c s).
Proof.
  induction s as [|a s IH]; [done|].
  cbn [includes startsWith split_char]. rewrite andb_true_r. intros H.
  apply orb_true_iff in H as [H|H].
  - apply bool_decide_eq_true in H as <-. rewrite bool_decide_true by done.
    pose proof (split_char_length c s). simpl. lia.
  - specialize (IH H). case_bool_decide; simpl; [lia|].
    destruct (split_char c s); simpl in *; lia.
Qed.

Lemma List_filter_elem {A : Type} (f : A -> bool) (l : list A) x :
  x ∈ List.filter f l <-> x ∈ l /\ f x = true.
Proof. rewrite !list_elem_of_In. apply filter_In. Qed.

Lemma clause_entry_ok mt : fieldValue_ok (clause_field mt) (clause_entry mt) = true.
Proof.
  unfold clause_entry. case_bool_decide as Hk; simpl; [|done].
  destruct (includes (clause_value mt) ",") eqn:Hi; [|done].
  cbn [fieldValue_ok]. rewrite bool_decide_true by done.
  rewrite length_map. apply Nat.leb_le. by apply split_char_includes.
Qed.

(** X5.  Every entry of the field map of a parsed query is under a
    non-empty word that is neither a date field nor [__proto__], and only
    the [tags] entry can hold a sequence, which then has at least two
    values. *)
Theorem parse_fields_ok (q : jsstring) (r : ParsedQuery) (k : jsstring)
  (v : FieldValue) :
  parse q = Normal r ->
  fields r !! k = Some v ->
  fieldName_ok k = true /\ fieldValue_ok k v = true.
Proof.
  unfold parse. destruct (match_all fieldRegex (normalize q)) as [ms|] eqn:Em.
  - destruct (forEach classify ms emptyResult) as [r1|] eqn:E; [|done]. simpl.
    intros Hr Hk.
    assert (Hf : fields r = fields r1).
    { destruct (match_all operatorRegex _); simpl in Hr;
        case_bool_decide; by inversion Hr. }
    rewrite Hf, (forEach_classify_fields _ _ _ k E) in Hk.
    destruct (last _) as [mt|] eqn:El; [|done]. inversion Hk; subst v.
    apply last_Some_elem_of, List_filter_elem in El as [Hmt HP].
    apply andb_true_iff in HP as [Hfc Hname].
    apply bool_decide_eq_true in Hname. subst k.
    split; [|apply clause_entry_ok].
    destruct (match_all_elem _ _ _ _ Em Hmt) as (st & en & c & Hex & ->).
    destruct (fieldRegex_shape _ _ _ Hex) as (name & rest & Hs & Hne & Hall).
    unfold is_field_clause in Hfc. rewrite Hs in *.
    rewrite clause_field_shape in * by done.
    unfold fieldName_ok. rewrite bool_decide_false by done.
    rewrite (proj1 (forallb_Forall _ _) Hall). done.
  - intros [= <-]. simpl. by rewrite lookup_empty.
Qed.

Lemma parse_fields_ok_witness :
  parse "my_key:1 tags:a,b created:>1 __proto__:x" =
    Normal (mkParsedQuery (<["my_key" := VString "1"]>
                             {["tags" := VArray ["a"; "b"]]}) [] None
                          (Some [mkDateFilter "created" ">" "1"])) /\
  fieldName_ok "tags" = true /\ fieldValue_ok "tags" (VArray ["a"; "b"]) = true.
Proof.
  assert (H : parse "my_key:1 tags:a,b created:>1 __proto__:x" =
    Normal (mkParsedQuery (<["my_key" := VString "1"]>
                             {["tags" := VArray ["a"; "b"]]}) [] None
                          (Some [mkDateFilter "created" ">" "1"])))
    by (vm_compute; reflexivity).
  split; [exact H|].
  exact (parse_fields_ok _ _ "tags" (VArray ["a"; "b"]) H ltac:(vm_compute; reflexivity)).
Defined.

Lemma trimStart_head s :
  match trimStart s with a :: _ => Char.is_space a = false | [] => True end.
Proof.
  induction s as [|a s IH]; simpl; [done|]. by destruct (Char.is_space a) eqn:E.
Qed.

Lemma trimStart_idem s : trimStart (trimStart s) = trimStart s.
Proof. apply trimStart_id, trimStart_head. Qed.

Lemma trimStart_snoc s z :
  Char.is_space z = false -> trimStart (s ++ [z]) = trimStart s ++ [z].
Proof.
  intros Hz. induction s as [|a s IH]; simpl; [by rewrite Hz|].
  by destruct (Char.is_space a).
Qed.

(** A trimmed string neither begins nor ends with whitespace. *)
Lemma trim_ends q :
  trimStart (trim q) = trim q /\ trimStart (rev (trim q)) = rev (trim q).
Proof.
  unfold trim, trimEnd. rewrite rev_involutive. split; [|apply trimStart_idem].
  pose proof (trimStart_head q) as Hq. destruct (trimStart q) as [|a u]; [done|].
  cbn [rev]. rewrite trimStart_snoc by done. rewrite rev_app_distr. simpl.
  by rewrite Hq.
Qed.

Lemma collapse_snoc p rep b s z :
  p z = false -> collapse p rep b (s ++ [z]) = collapse p rep b s ++ [z].
Proof.
  intros Hz. revert b. induction s as [|a s IH]; intros b; simpl; [by rewrite Hz|].
  destruct (p a); [destruct b|]; rewrite IH; by rewrite <- ?app_assoc.
Qed.

Lemma collapse_idem p c : p c = true -> forall s b,
  collapse p [c] b (collapse p [c] b s) = collapse p [c] b s.
Proof.
  intros Hc s. induction s as [|a s IH]; intros b; [done|]. simpl.
  destruct (p a) eqn:Ea.
  - destruct b; [apply IH|]. simpl. rewrite Hc. by rewrite IH.
  - simpl. rewrite Ea. by rewrite IH.
Qed.

Lemma collapse_ends p rep s :
  match s with a :: _ => p a = false | [] => True end ->
  match rev s with a :: _ => p a = false | [] => True end ->
  match collapse p rep false s with a :: _ => p a = false | [] => True end /\
  match rev (collapse p rep false s) with a :: _ => p a = false | [] => True end.
Proof.
  intros Hh Hl. split.
  - destruct s as [|a s]; [done|]. simpl. by rewrite Hh.
  - destruct s as [|a s] using rev_ind; [done|].
    rewrite rev_app_distr in Hl. simpl in Hl.
    rewrite collapse_snoc by done. rewrite rev_app_distr. done.
Qed.

Lemma normalized_idem q : normalized (normalized q) = normalized q.
Proof.
  unfold normalized. destruct (trim_ends q) as [H1 H2].
  assert (Ht : trim (collapse Char.is_space " " false (trim q)) =
               collapse Char.is_space " " false (trim q)).
  { destruct (collapse_ends Char.is_space " " (trim q)) as [Hh Hl].
    - rewrite <- H1. apply trimStart_head.
    - rewrite <- H2. apply trimStart_head.
    - unfold trim at 1, trimEnd. rewrite (trimStart_id _ Hh), (trimStart_id _ Hl).
      apply rev_involutive. }
  rewrite Ht. by apply collapse_idem.
Qed.

(** X6.  Only the normalized form of a query matters: the query with its
    ends trimmed and every run of whitespace turned into one space parses
    to the same result, and normalizing it again changes nothing. *)
Theorem parse_normalized (q : jsstring) :
  parse (normalized q) = parse q /\ normalized (normalized q) = normalized q.
Proof.
  split; [|apply normalized_idem]. unfold parse.
  by rewrite !normalize_spec, normalized_idem.
Qed.

End ParseExtras.

(** * Further properties of [validateQuery] *)

Module ValidateExtras.
Import Regex JS SearchParser Spec SpecExtra ListFacts RegexFacts JSFacts.
Import ValidateClaims ParseExtras.

Lemma trimStart_nil s : trimStart s = [] <-> blank s = true.
Proof.
  unfold blank. induction s as [|a s IH]; simpl; [done|].
  destruct (Char.is_space a); simpl; [done|]. split; discriminate.
Qed.

Lemma blank_rev s : blank (rev s) = blank s.
Proof.
  unfold blank. destruct (forallb Char.is_space s) eqn:E.
  - apply forallb_Forall. apply Forall_rev. by apply forallb_Forall.
  - destruct (forallb Char.is_space (rev s)) eqn:E'; [|done].
    apply forallb_Forall, Forall_rev in E'. rewrite rev_involutive in E'.
    apply forallb_Forall in E'. congruence.
Qed.

(** [!query.trim()] holds exactly of the blank queries. *)
Lemma trim_nil_iff q : trim q = [] <-> blank q = true.
Proof.
  unfold trim, trimEnd. split.
  - intros H. apply (f_equal (@rev ascii)) in H. rewrite rev_involutive in H.
    simpl in H. apply trimStart_nil in H. rewrite blank_rev in H.
    pose proof (trimStart_head q) as Hh.
    destruct (trimStart q) as [|a u] eqn:Eu; [by apply trimStart_nil|].
    unfold blank in H. simpl in H. by rewrite Hh in H.
  - intros H. apply trimStart_nil in H. by rewrite H.
Qed.

Lemma invalidFieldsOf_nil names :
  invalidFieldsOf names = [] <-> Forall (fun name => name ∈ validFields) names.
Proof.
  unfold invalidFieldsOf. induction names as [|n l IH]; simpl.
  - split; [constructor|done].
  - rewrite Forall_cons. destruct (bool_decide (n ∈ validFields)) eqn:E; simpl.
    + apply bool_decide_eq_true in E. tauto.
    + apply bool_decide_eq_false in E. split; [done|tauto].
Qed.

(** X7.  The outcome of validation, check by check: a blank query is
    reported as empty; otherwise an odd number of double quotes is
    reported as unmatched quotes, whatever the field names; otherwise the
    query is valid exactly when every name before a colon is an allowed
    field. *)
Theorem validateQuery_outcome (q : jsstring) :
  validateQuery q =
    (if blank q then mkValidation false (Some "Query cannot be empty")
     else if negb (quoteCount q mod 2 =? 0)
     then mkValidation false (Some "Unmatched quotes in query")
     else if bool_decide (invalidFieldsOf (queryFieldNames q) = [])
     then mkValidation true None
     else mkValidation false
            (Some (unknownFieldMessage (invalidFieldsOf (queryFieldNames q))))) /\
  (isValid (validateQuery q) = true <->
   blank q = false /\ quoteCount q mod 2 = 0 /\
   Forall (fun name => name ∈ validFields) (queryFieldNames q)).
Proof.
  assert (H : validateQuery q =
    (if blank q then mkValidation false (Some "Query cannot be empty")
     else if negb (quoteCount q mod 2 =? 0)
     then mkValidation false (Some "Unmatched quotes in query")
     else if bool_decide (invalidFieldsOf (queryFieldNames q) = [])
     then mkValidation true None
     else mkValidation false
            (Some (unknownFieldMessage (invalidFieldsOf (queryFieldNames q)))))).
  { unfold validateQuery. destruct (blank q) eqn:Eb.
    - by rewrite bool_decide_true by by apply trim_nil_iff.
    - rewrite bool_decide_false
        by (intros Ht; apply trim_nil_iff in Ht; congruence).
      pose proof (quotes_length q) as Hlen. unfold queryFieldNames.
      assert (Hq : match match_all dquoteRegex q with
                   | Some quotes => negb (length quotes mod 2 =? 0)
                   | None => false
                   end = negb (quoteCount q mod 2 =? 0)).
      { destruct (match_all dquoteRegex q); simpl in Hlen; by rewrite <- Hlen. }
      cbv zeta. rewrite Hq. destruct (negb _); [done|].
      destruct (match_all fieldNameRegex q) as [ms|]; simpl; [|done].
      by destruct (invalidFieldsOf (fieldNames ms)). }
  split; [done|]. rewrite H.
  pose proof (invalidFieldsOf_nil (queryFieldNames q)) as Hinv.
  clear H. destruct (blank q); [simpl; split; [done|by intros [? _]]|].
  destruct (quoteCount q mod 2 =? 0) eqn:Eq; simpl.
  - apply Nat.eqb_eq in Eq. case_bool_decide as Hi; simpl.
    + split; [|done]. intros _. split_and!; [done..|by apply Hinv].
    + split; [done|]. intros (_ & _ & Hf). by apply Hinv in Hf.
  - apply Nat.eqb_neq in Eq. split; [done|by intros (_ & ? & _)].
Qed.

End ValidateExtras.

(** * Further properties of [filter] *)

Module FilterExtras.
Import JS SearchParser Spec SpecExtra ListFacts FilterClaims.

Lemma List_filter_mono {A : Type} (f g : A -> bool) (l : list A) :
  (forall x, f x = true -> g x = true) ->
  sublist (List.filter f l) (List.filter g l).
Proof.
  intros H. induction l as [|a l IH]; simpl; [constructor|].
  destruct (f a) eqn:Ef.
  - rewrite (H a Ef). by constructor.
  - destruct (g a); [by constructor|done].
Qed.

Section Evaluator.
Variable Date_parse : jsstring -> option Z.
Variable Date_toDateString : Z -> jsstring.

Abbreviation filter := (filter Date_parse Date_toDateString).
Abbreviation item_matches := (item_matches Date_parse Date_toDateString).
Abbreviation date_pred := (date_pred Date_parse Date_toDateString).
Abbreviation all_preds := (all_preds Date_parse Date_toDateString).

(** The query with one entry of its field map set, or removed. *)
Abbreviation with_field k v q :=
  (mkParsedQuery (<[k := v]> (fields q)) (operators q) (fullText q) (dateFilters q)).
Abbreviation without_field k q :=
  (mkParsedQuery (delete k (fields q)) (operators q) (fullText q) (dateFilters q)).

Lemma all_preds_with_field q k v item :
  all_preds (with_field k v q) item =
  field_pred item (k, v) && all_preds (without_field k q) item.
Proof.
  unfold Spec.all_preds. cbn [fields dateFilters fullText].
  rewrite <- (insert_delete_eq (fields q)).
  rewrite (forallb_perm _ _ _ (map_to_list_insert _ k v (lookup_delete_eq _ _))).
  cbn [forallb]. by rewrite !andb_assoc.
Qed.

Lemma all_preds_push q d l item :
  dateFilters q = Some l ->
  all_preds (push_dateFilter d q) item = date_pred item d && all_preds q item.
Proof.
  intros Hl. unfold Spec.all_preds, push_dateFilter.
  cbn [fields dateFilters fullText]. rewrite Hl.
  cbn [fmap option_fmap option_map default]. unfold id.
  rewrite forallb_app. cbn [forallb].
  destruct (forallb (field_pred item) _), (forallb (date_pred item) l),
    (date_pred item d); reflexivity.
Qed.

(** X8.  Adding a condition to a query never adds results: the records
    kept with a field entry set are among those kept without the entry,
    those kept with one more date filter or with a free text are among
    those kept without it, in the same order. *)
Theorem filter_refines (items : list ContentItem) (q : ParsedQuery) :
  (forall k v, sublist (filter items (with_field k v q))
                       (filter items (without_field k q))) /\
  (forall d, sublist (filter items (push_dateFilter d q)) (filter items q)) /\
  (forall t, sublist (filter items (set_fullText t q))
                     (filter items (mkParsedQuery (fields q) (operators q) None
                                                  (dateFilters q)))).
Proof.
  split_and!.
  - intros k v. apply List_filter_mono. intros item.
    rewrite !item_matches_all_preds, all_preds_with_field.
    by intros [_ ?]%andb_true_iff.
  - intros d. apply List_filter_mono. intros item.
    rewrite !item_matches_all_preds. destruct (dateFilters q) as [l|] eqn:El.
    + rewrite (all_preds_push _ _ _ _ El). by intros [_ ?]%andb_true_iff.
    + unfold Spec.all_preds, push_dateFilter. cbn [fields dateFilters fullText].
      by rewrite El.
  - intros t. apply List_filter_mono. intros item.
    rewrite !item_matches_all_preds. unfold Spec.all_preds, set_fullText.
    cbn [fields dateFilters fullText fullText_pred].
    rewrite andb_true_r. by intros [? _]%andb_true_iff.
Qed.

(** X9.  An entry of the field map under a name other than [title],
    [content], [type] and [tags] is ignored: the records kept are those
    kept without the entry. *)
Theorem filter_unknown_field (items : list ContentItem) (q : ParsedQuery)
  (k : jsstring) (v : FieldValue) :
  k ∉ ["title"; "content"; "type"; "tags"] ->
  filter items (with_field k v q) = filter items (without_field k q).
Proof.
  intros Hk. apply filter_ext. intros item.
  rewrite !item_matches_all_preds, all_preds_with_field.
  assert (Hp : field_pred item (k, v) = true); [|by rewrite Hp].
  unfold field_pred.
  destruct v; repeat case_bool_decide; subst; try done;
    exfalso; apply Hk; set_solver.
Qed.

(** X10.  A date filter whose operator is none of [>], [<], [>=], [<=]
    and [=] is ignored: the records kept are those kept without it. *)
Theorem filter_unknown_operator (items : list ContentItem) (q : ParsedQuery)
  (d : DateFilter) :
  operator d ∉ [">"; "<"; ">="; "<="; "="] ->
  filter items (push_dateFilter d q) = filter items q.
Proof.
  intros Hop. apply filter_ext. intros item. rewrite !item_matches_all_preds.
  destruct (dateFilters q) as [l|] eqn:El.
  - rewrite (all_preds_push _ _ _ _ El).
    assert (Hp : date_pred item d = true); [|by rewrite Hp].
    unfold Spec.date_pred.
    repeat case_bool_decide; try done; exfalso; apply Hop;
      match goal with H : operator d = _ |- _ => rewrite H end; set_solver.
  - unfold Spec.all_preds, push_dateFilter. cbn [fields dateFilters fullText].
    by rewrite El.
Qed.

(** X11.  A date filter with an ordering operator whose value is not a
    date keeps no record, and no record whose own date is not a date
    passes such a filter. *)
Theorem filter_invalid_date (items : list ContentItem) (q : ParsedQuery)
  (d : DateFilter) :
  operator d ∈ [">"; "<"; ">="; "<="] ->
  d ∈ default [] (dateFilters q) ->
  (Date_parse (value d) = None -> filter items q = []) /\
  (forall item, item ∈ filter items q ->
     Date_parse (if bool_decide (field d = "created")
                 then createdAt item else updatedAt item) <> None).
Proof.
  intros Hop Hd.
  assert (Hpred : forall item, item_matches q item = true -> date_pred item d = true).
  { intros item. rewrite item_matches_all_preds. unfold Spec.all_preds.
    intros [[_ Hds]%andb_true_iff _]%andb_true_iff.
    rewrite forallb_forall in Hds. apply Hds. by apply list_elem_of_In. }
  assert (Hcmp : forall item, date_pred item d = true ->
            exists op,
              date_cmp op
                (Date_parse (if bool_decide (field d = "created")
                             then createdAt item else updatedAt item))
                (Date_parse (value d)) = true).
  { intros item. unfold Spec.date_pred. cbv zeta.
    destruct (bool_decide (operator d = ">")) eqn:E1; [eauto|].
    destruct (bool_decide (operator d = "<")) eqn:E2; [eauto|].
    destruct (bool_decide (operator d = ">=")) eqn:E3; [eauto|].
    destruct (bool_decide (operator d = "<=")) eqn:E4; [eauto|].
    apply bool_decide_eq_false in E1, E2, E3, E4.
    exfalso. revert Hop. rewrite !elem_of_cons, elem_of_nil. tauto. }
  split.
  - intros Hv. unfold SearchParser.filter.
    induction items as [|item items' IH]; simpl; [done|].
    destruct (item_matches q item) eqn:E; [|done].
    apply Hpred, Hcmp in E as (op & Hc).
    rewrite Hv in Hc. unfold date_cmp in Hc.
    by destruct (Date_parse (if bool_decide (field d = "created")
                             then createdAt item else updatedAt item)).
  - intros item Hin Hnone. unfold SearchParser.filter in Hin.
    apply list_elem_of_In, filter_In in Hin as [_ E].
    apply Hpred, Hcmp in E as (op & Hc).
    by rewrite Hnone in Hc.
Qed.

End Evaluator.

Lemma filter_unknown_field_witness :
  ("author" ∉ ["title"; "content"; "type"; "tags"]) /\
  SearchParser.filter (fun _ => None) (fun _ => []) mockItems
    (mkParsedQuery (<["author" := VString "x"]> ∅) [] None (Some [])) =
  SearchParser.filter (fun _ => None) (fun _ => []) mockItems
    (mkParsedQuery (delete "author" ∅) [] None (Some [])).
Proof.
  assert (H : "author" ∉ ["title"; "content"; "type"; "tags"]).
  { apply not_elem_of_cons; split; [done|]. apply not_elem_of_cons; split; [done|].
    apply not_elem_of_cons; split; [done|]. apply not_elem_of_cons; split; [done|].
    apply not_elem_of_nil. }
  split; [exact H|].
  exact (filter_unknown_field (fun _ => None) (fun _ => []) mockItems
           (mkParsedQuery ∅ [] None (Some [])) "author" (VString "x") H).
Defined.

Lemma filter_unknown_operator_witness :
  (operator (mkDateFilter "created" "!=" "2024-01-01") ∉ [">"; "<"; ">="; "<="; "="]) /\
  SearchParser.filter (fun _ => None) (fun _ => []) mockItems
    (push_dateFilter (mkDateFilter "created" "!=" "2024-01-01") emptyResult) =
  SearchParser.filter (fun _ => None) (fun _ => []) mockItems emptyResult.
Proof.
  assert (H : operator (mkDateFilter "created" "!=" "2024-01-01")
              ∉ [">"; "<"; ">="; "<="; "="]).
  { simpl. repeat (apply not_elem_of_cons; split; [done|]). apply not_elem_of_nil. }
  split; [exact H|].
  exact (filter_unknown_operator (fun _ => None) (fun _ => []) mockItems
           emptyResult _ H).
Defined.

Lemma filter_invalid_date_witness :
  SearchParser.filter (fun _ => None) (fun _ => []) mockItems
    (push_dateFilter (mkDateFilter "created" ">" "soon") emptyResult) = [].
Proof.
  refine (proj1 (filter_invalid_date (fun _ => None) (fun _ => []) mockItems
            (push_dateFilter (mkDateFilter "created" ">" "soon") emptyResult)
            (mkDateFilter "created" ">" "soon") _ _) eq_refl).
  - simpl. apply list_elem_of_here.
  - simpl. apply list_elem_of_here.
Defined.

End FilterExtras.

(** * The search bar: the SQL text *)

Module SQLExtras.
Import Regex JS SearchParser Spec SpecExtra ListFacts RegexFacts JSFacts ParseFacts.
Import ParseExtras SQLSearchBar.

(** A greedy run of a class that ends where the class ends hands over to
    the continuation there, when the continuation accepts. *)
Lemma repeat_chr_run {R : Type} (p : ascii -> bool) (k : cont R) rest c y run :
  match rest with a :: _ => p a = false | [] => True end ->
  Forall (fun a => p a = true) run ->
  forall n pre,
    length (run ++ rest) <= n ->
    k (rev run ++ pre, rest) c = Some y ->
    repeat_loop (m (Chr p)) true k n (pre, run ++ rest) c = Some y.
Proof.
  intros Hrest. induction 1 as [|a run Ha _ IH]; intros n pre Hn Hk.
  - simpl in Hk. destruct n as [|n].
    + simpl. by rewrite Hk.
    + rewrite repeat_loop_S. cbv zeta. cbn [app].
      destruct rest as [|b rest].
      * simpl. by rewrite Hk.
      * rewrite m_chr_cons, Hrest. simpl. by rewrite Hk.
  - destruct n as [|n]; [simpl in Hn; lia|].
    rewrite repeat_loop_S. cbv zeta. cbn [app]. rewrite m_chr_cons, Ha.
    cbn [ahead snd length].
    replace (length (run ++ rest) <? S (length (run ++ rest))) with true
      by (symmetry; apply Nat.ltb_lt; lia).
    rewrite (IH n (a :: pre)); [done|simpl in Hn; lia|].
    simpl in Hk. by rewrite <- app_assoc in Hk.
Qed.

Lemma m_plus_chr_run {R : Type} (p : ascii -> bool) (k : cont R) pre run rest c y :
  run <> [] -> Forall (fun a => p a = true) run ->
  match rest with a :: _ => p a = false | [] => True end ->
  k (rev run ++ pre, rest) c = Some y ->
  m (Plus (Chr p)) (pre, run ++ rest) c k = Some y.
Proof.
  intros Hne Hall Hrest Hk. destruct run as [|a run]; [done|].
  apply Forall_cons in Hall as [Ha Hall].
  unfold Plus. rewrite m_seq. cbn [app]. rewrite m_chr_cons, Ha, m_star.
  cbn [ahead snd]. apply repeat_chr_run; [done|done|lia|].
  simpl in Hk. by rewrite <- app_assoc in Hk.
Qed.

(** What the clause pattern of the bar matches: a word, a colon and a
    non-empty text without whitespace. *)
Lemma sqlFieldRegex_shape st en c :
  exec_at sqlFieldRegex st = Some (en, c) ->
  exists name val,
    span st en = name ++ ":"%char :: val /\ name <> [] /\
    Forall (fun a => Char.is_word a = true) name /\ val <> [].
Proof.
  unfold exec_at, sqlFieldRegex. rewrite m_seq, m_group. intros E.
  apply m_plus_chr in E as (name & x1 & Hne & Hall & Hc1 & E).
  rewrite m_seq in E. destruct x1 as [p1 s1]. destruct s1 as [|a rest1]; [done|].
  unfold colon in E. rewrite m_chr_cons in E.
  destruct (Char.eq ":" a) eqn:Ea; [|done].
  apply bool_decide_eq_true in Ea as ->. rewrite m_group in E.
  apply m_plus_chr in E as (val & x2 & Hne2 & _ & Hc2 & E). inversion E; subst.
  exists name, val. split_and!; [|done..].
  apply consumed_span.
  apply (consumed_trans _ (p1, ":"%char :: rest1) _ name (":"%char :: val)); [done|].
  apply (consumed_trans _ (":"%char :: p1, rest1) _ [":"%char] val); [by split|done].
Qed.

(** The clause pattern of the bar on a clause that ends where whitespace
    or the text ends: it takes the whole clause. *)
Lemma sqlFieldRegex_clause pre name val rest :
  name <> [] -> Forall (fun a => Char.is_word a = true) name ->
  val <> [] -> Forall (fun a => Char.is_space a = false) val ->
  match rest with a :: _ => Char.is_space a = true | [] => True end ->
  exists c,
    exec_at sqlFieldRegex (pre, name ++ ":"%char :: val ++ rest) =
    Some ((rev (name ++ ":"%char :: val) ++ pre, rest), c).
Proof.
  intros Hn Hname Hv Hval Hrest. eexists.
  unfold exec_at, sqlFieldRegex. rewrite m_seq, m_group.
  apply m_plus_chr_run; [done|done|done|].
  rewrite m_seq. unfold colon. rewrite m_chr_cons.
  unfold Char.eq at 1. rewrite bool_decide_true by done. rewrite m_group.
  apply m_plus_chr_run; [done| | |].
  - eapply Forall_impl; [exact Hval|]. intros a Ha. simpl. by rewrite Ha.
  - destruct rest as [|a rest]; [done|]. by rewrite Hrest.
  - f_equal. f_equal. f_equal.
    rewrite rev_app_distr. simpl. by rewrite <- !app_assoc.
Qed.

Lemma sqlFieldRegex_needs_colon x :
  no_colon (ahead x) -> exec_at sqlFieldRegex x = None.
Proof.
  intros H. destruct (exec_at sqlFieldRegex x) as [[en c]|] eqn:E; [|done].
  exfalso. pose proof (exec_at_reach _ _ _ _ E) as [mid Hc].
  apply sqlFieldRegex_shape in E as (name & val & Hs & _).
  rewrite (consumed_span _ _ _ Hc) in Hs. destruct Hc as [Hc _].
  rewrite Hc, Hs in H. apply Forall_app in H as [H _].
  apply Forall_app in H as [_ H]. by apply Forall_cons in H as [? _].
Qed.

Lemma split_char_app c name rest :
  Forall (fun a => a <> c) name ->
  split_char c (name ++ c :: rest) = name :: split_char c rest.
Proof.
  induction 1 as [|a name Ha _ IH]; simpl.
  - by rewrite bool_decide_true.
  - rewrite bool_decide_false by done. by rewrite IH.
Qed.

Lemma split_char_head c s : head (split_char c s) = Some (before c s).
Proof.
  induction s as [|a s IH]; simpl; [done|]. case_bool_decide; [done|].
  destruct (split_char c s) as [|w ws]; [done|]. simpl in *. congruence.
Qed.

Lemma one_of_comparison a : Char.one_of "<>=!" a = is_comparison a.
Proof.
  unfold is_comparison, Char.one_of. apply bool_decide_ext.
  rewrite !elem_of_cons, !elem_of_nil. tauto.
Qed.

Lemma replace_all_bare v : replace_all sqlOperatorRegex [] v = bare v.
Proof.
  unfold replace_all, sqlOperatorRegex. rewrite replace_loop_chr by lia.
  unfold bare. induction v as [|a v IH]; simpl; [done|].
  rewrite IH, one_of_comparison. by destruct (is_comparison a).
Qed.

(** The condition of a clause: the value is what stands between the
    first and the second colon. *)
Lemma condition_clause name rest :
  Forall (fun a => Char.is_word a = true) name ->
  condition (name ++ ":"%char :: rest) =
  Normal (clauseCondition name (before ":" rest)).
Proof.
  intros Hall. unfold condition.
  rewrite split_char_app by (eapply Forall_impl; [done | apply word_not_colon]).
  pose proof (split_char_head ":" rest) as Hh.
  destruct (split_char ":" rest) as [|w ws] eqn:Es; [done|].
  simpl in Hh. injection Hh as ->. cbn [lookup list_lookup default shown].
  unfold clauseCondition, is_date_field, id. rewrite !replace_all_bare.
  destruct (bool_decide (name = "type")); [reflexivity|].
  destruct (bool_decide (name = "tags")); [reflexivity|].
  destruct (_ || _); reflexivity.
Qed.

Lemma mapM_Normal {A B : Type} (f : A -> completion B) (g : A -> B) l :
  Forall (fun a => f a = Normal (g a)) l -> mapM f l = Normal (map g l).
Proof.
  induction 1 as [|a l Ha _ IH]; simpl; [done|]. by rewrite Ha, IH.
Qed.

Lemma convertToSQL_normal (searchQuery : jsstring) :
  exists conditions, convertToSQL searchQuery = Normal (sqlStatement conditions).
Proof.
  unfold convertToSQL, sqlStatement.
  destruct (match_all sqlFieldRegex searchQuery) as [ms|] eqn:Em.
  - assert (Hall : Forall (fun mt => exists s, condition mt = Normal s) ms).
    { apply Forall_forall. intros mt Hmt.
      destruct (match_all_elem _ _ _ _ Em Hmt) as (st & en & c & E & ->).
      apply sqlFieldRegex_shape in E as (name & val & -> & _ & Hw & _).
      rewrite condition_clause by done. eauto. }
    assert (Hm : exists cs, mapM condition ms = Normal cs).
    { clear Em. induction Hall as [|mt ms [s Hs] _ [cs IH]]; cbn [mapM]; [eauto|].
      rewrite Hs, IH. cbn [mbind completion_bind]. eauto. }
    destruct Hm as [cs ->]. exists (join " AND " cs).
    cbn [mbind completion_bind]. reflexivity.
  - exists ("(title LIKE '%" ++ searchQuery ++ "%' OR content LIKE '%" ++
            searchQuery ++ "%' OR tags LIKE '%" ++ searchQuery ++ "%')").
    cbn [mbind completion_bind]. reflexivity.
Qed.

(** X12.  [convertToSQL] always returns: every match of the clause
    pattern has a value after its colon, so the branch that would read a
    missing value is never taken.  The statement is the select prefix,
    some conditions, and the ordering suffix. *)
Theorem convertToSQL_returns (searchQuery : jsstring) :
  exists conditions, convertToSQL searchQuery = Normal (sqlStatement conditions).
Proof. apply convertToSQL_normal. Qed.

(** X13.  A query without a colon is searched as free text: the query
    is placed, as it is, in the three [LIKE] conditions on title, content
    and tags. *)
Theorem convertToSQL_fullText (searchQuery : jsstring) :
  no_colon searchQuery ->
  convertToSQL searchQuery =
  Normal (sqlStatement ("(title LIKE '%" ++ searchQuery ++ "%' OR content LIKE '%" ++
                        searchQuery ++ "%' OR tags LIKE '%" ++ searchQuery ++ "%')")).
Proof.
  intros H. unfold convertToSQL.
  assert (Hm : match_all sqlFieldRegex searchQuery = None).
  { apply match_all_none, search_none. intros x Hx.
    apply sqlFieldRegex_needs_colon. apply reach_suffix in Hx as [k Hk].
    simpl in Hk. rewrite Hk in H. by apply Forall_app in H as [_ H]. }
  rewrite Hm. reflexivity.
Qed.

Lemma convertToSQL_fullText_witness :
  convertToSQL "react hooks" =
  Normal "SELECT * FROM content_items WHERE (title LIKE '%react hooks%' OR content LIKE '%react hooks%' OR tags LIKE '%react hooks%') ORDER BY updatedAt DESC".
Proof.
  refine (convertToSQL_fullText "react hooks" _).
  unfold no_colon. repeat (apply Forall_cons; split; [done|]). by apply Forall_nil.
Defined.

Lemma search_here r pre suf x' c :
  exec_at r (pre, suf) = Some (x', c) -> search r pre suf = Some ((pre, suf), x', c).
Proof. intros H. destruct suf; simpl; by rewrite H. Qed.

Lemma match_loop_end r fuel pre :
  exec_at r (pre, []) = None -> match_loop r fuel pre [] = [].
Proof. intros H. destruct fuel; simpl; [done|]. by rewrite H. Qed.

(** The clause pattern finds a lone clause, whole. *)
Lemma sqlFieldMatches_single name val :
  name <> [] -> Forall (fun a => Char.is_word a = true) name ->
  val <> [] -> Forall (fun a => Char.is_space a = false) val ->
  match_all sqlFieldRegex (name ++ ":"%char :: val) = Some [name ++ ":"%char :: val].
Proof.
  intros Hn Hname Hv Hval.
  destruct (sqlFieldRegex_clause [] name val [] Hn Hname Hv Hval I) as [c E].
  rewrite !app_nil_r in E. unfold match_all. cbn [match_loop].
  rewrite (search_here _ _ _ _ _ E).
  assert (Hs : span ([], name ++ ":"%char :: val)
                    (rev (name ++ ":"%char :: val), []) = name ++ ":"%char :: val).
  { apply consumed_span. split; simpl; by rewrite app_nil_r. }
  rewrite Hs. rewrite bool_decide_false by (by destruct name).
  cbn [behind ahead fst snd]. rewrite match_loop_end; [by destruct name|].
  apply sqlFieldRegex_needs_colon. constructor.
Qed.

Lemma convertToSQL_single name val :
  name <> [] -> Forall (fun a => Char.is_word a = true) name ->
  val <> [] -> Forall (fun a => Char.is_space a = false) val ->
  convertToSQL (name ++ ":"%char :: val) =
  Normal (sqlStatement (clauseCondition name (before ":" val))).
Proof.
  intros Hn Hname Hv Hval. unfold convertToSQL.
  rewrite sqlFieldMatches_single by done. cbn [mapM].
  rewrite condition_clause by done. reflexivity.
Qed.

(** X14.  A query made of one clause gives one condition, on the clause's
    name and on the part of its value before the next colon: the rest of
    the value is dropped. *)
Theorem convertToSQL_clause (name val : jsstring) :
  name <> [] -> Forall (fun a => Char.is_word a = true) name ->
  val <> [] -> Forall (fun a => Char.is_space a = false) val ->
  convertToSQL (name ++ ":"%char :: val) =
  Normal (sqlStatement (clauseCondition name (before ":" val))).
Proof. apply convertToSQL_single. Qed.

Lemma convertToSQL_clause_witness :
  convertToSQL "title:10:30" =
  Normal "SELECT * FROM content_items WHERE title LIKE '%10%' ORDER BY updatedAt DESC".
Proof.
  refine (convertToSQL_clause "title" "10:30" _ _ _ _); try done.
  - repeat (apply Forall_cons; split; [reflexivity|]). by apply Forall_nil.
  - repeat (apply Forall_cons; split; [reflexivity|]). by apply Forall_nil.
Defined.

Lemma comparison_chars a :
  is_comparison a = true -> Char.is_space a = false /\ a <> ":"%char.
Proof.
  unfold is_comparison, Char.one_of. intros H%bool_decide_eq_true.
  rewrite !elem_of_cons, elem_of_nil in H.
  destruct H as [->|[->|[->|[->|[]]]]]; by split.
Qed.

Lemma before_all c s : Forall (fun a => a <> c) s -> before c s = s.
Proof.
  induction 1 as [|a s Ha _ IH]; simpl; [done|].
  rewrite bool_decide_false by done. by rewrite IH.
Qed.

Lemma bare_app op v :
  Forall (fun a => is_comparison a = true) op ->
  Forall (fun a => is_comparison a = false) v ->
  bare (op ++ v) = v.
Proof.
  intros Hop Hv. unfold bare. rewrite List.filter_app.
  assert (H1 : List.filter (fun a => negb (is_comparison a)) op = []).
  { induction Hop as [|a op Ha _ IH]; simpl; [done|]. by rewrite Ha. }
  assert (H2 : List.filter (fun a => negb (is_comparison a)) v = v).
  { induction Hv as [|a v Ha _ IH]; simpl; [done|]. by rewrite Ha, IH. }
  by rewrite H1, H2.
Qed.

(** X15.  The comparison of a date clause is lost in the SQL text: for a
    query made of one clause on [created] or [updated], the condition
    names the column and the date, and is the same whatever the operator
    in front of the date. *)
Theorem convertToSQL_date_operator (name op v : jsstring) :
  is_date_field name = true ->
  Forall (fun a => is_comparison a = true) op ->
  Forall (fun a => is_comparison a = false /\ Char.is_space a = false /\
                   a <> ":"%char) v ->
  v <> [] ->
  convertToSQL (name ++ ":"%char :: op ++ v) =
  Normal (sqlStatement (name ++ "At " ++ v ++ " '" ++ v ++ "'")).
Proof.
  intros Hf Hop Hv Hne.
  assert (Hname : name = "created" \/ name = "updated").
  { unfold is_date_field in Hf. apply orb_true_iff in Hf as [H|H];
      apply bool_decide_eq_true in H; tauto. }
  rewrite convertToSQL_single.
  - rewrite before_all.
    2:{ apply Forall_app. split.
        - eapply Forall_impl; [exact Hop|]. intros a Ha. by apply comparison_chars.
        - eapply Forall_impl; [exact Hv|]. tauto. }
    unfold clauseCondition. rewrite Hf.
    rewrite bare_app; [|done|eapply Forall_impl; [exact Hv|]; tauto].
    destruct Hname as [-> | ->]; reflexivity.
  - by destruct Hname as [-> | ->].
  - destruct Hname as [-> | ->];
      repeat (apply Forall_cons; split; [reflexivity|]); by apply Forall_nil.
  - destruct op; [done|discriminate].
  - apply Forall_app. split.
    + eapply Forall_impl; [exact Hop|]. intros a Ha. by apply comparison_chars.
    + eapply Forall_impl; [exact Hv|]. tauto.
Qed.

Lemma convertToSQL_date_operator_witness :
  convertToSQL "created:>=2024" =
  Normal "SELECT * FROM content_items WHERE createdAt 2024 '2024' ORDER BY updatedAt DESC".
Proof.
  refine (convertToSQL_date_operator "created" ">=" "2024" _ _ _ _); try done.
  - repeat (apply Forall_cons; split; [reflexivity|]). by apply Forall_nil.
  - repeat (apply Forall_cons; split; [by split_and!|]). by apply Forall_nil.
Defined.

End SQLExtras.

(** * The search bar: the keyboard *)

Module BarExtras.
Import JS SearchParser Spec SpecExtra SQLSearchBar SQLExtras.

Lemma arrows_bounds (len : nat) (prev : Z) :
  0 < len -> (-1 <= prev < Z.of_nat len)%Z ->
  (0 <= arrowDown len prev < Z.of_nat len)%Z /\
  (0 <= arrowUp len prev < Z.of_nat len)%Z.
Proof.
  intros Hlen Hprev. unfold arrowDown, arrowUp. split.
  - destruct (prev <? Z.of_nat len - 1)%Z eqn:E; [apply Z.ltb_lt in E|]; lia.
  - destruct (0 <? prev)%Z eqn:E; [apply Z.ltb_lt in E|]; lia.
Qed.

(** X16.  With at least one suggestion, the arrow keys move the selection
    cyclically inside the list: from [-1] or from an index of the list
    both land on an index of the list, and on such an index each key
    undoes the other. *)
Theorem arrows_cycle (len : nat) (prev : Z) :
  0 < len -> (-1 <= prev < Z.of_nat len)%Z ->
  (0 <= arrowDown len prev < Z.of_nat len)%Z /\
  (0 <= arrowUp len prev < Z.of_nat len)%Z /\
  ((0 <= prev)%Z ->
   arrowUp len (arrowDown len prev) = prev /\
   arrowDown len (arrowUp len prev) = prev).
Proof.
  intros Hlen Hprev. destruct (arrows_bounds len prev Hlen Hprev) as [Hd Hu].
  split; [done|]. split; [done|]. unfold arrowDown, arrowUp.
  intros H0. split.
  - destruct (prev <? Z.of_nat len - 1)%Z eqn:E.
    + apply Z.ltb_lt in E.
      destruct (0 <? prev + 1)%Z eqn:E'; [lia|]. apply Z.ltb_ge in E'. lia.
    + apply Z.ltb_ge in E. simpl. lia.
  - destruct (0 <? prev)%Z eqn:E.
    + apply Z.ltb_lt in E.
      destruct (prev - 1 <? Z.of_nat len - 1)%Z eqn:E'; [lia|].
      apply Z.ltb_ge in E'. lia.
    + apply Z.ltb_ge in E.
      destruct (Z.of_nat len - 1 <? Z.of_nat len - 1)%Z eqn:E'; [|lia].
      apply Z.ltb_lt in E'. lia.
Qed.

Lemma arrows_cycle_witness :
  arrowDown 3 2 = 0%Z /\ arrowUp 3 0 = 2%Z /\ arrowUp 3 (arrowDown 3 2) = 2%Z.
Proof.
  pose proof (arrows_cycle 3 2 ltac:(lia) ltac:(lia)) as (_ & _ & H).
  split; [reflexivity|]. split; [reflexivity|]. exact (proj1 (H ltac:(lia))).
Defined.

Lemma handleSearch_normal st :
  exists st' call,
    handleSearch st = Normal (st', call) /\
    filteredSuggestions st' = filteredSuggestions st /\
    selectedIndex st' = selectedIndex st /\
    (showSuggestions st' = true -> showSuggestions st = true).
Proof.
  unfold handleSearch. destruct (negb _).
  - destruct (convertToSQL_normal (query st)) as [cs ->].
    cbn [mbind completion_bind]. eexists _, _. split; [reflexivity|]. done.
  - eexists _, _. split; [reflexivity|]. done.
Qed.

(** X17.  The effect that follows a change of the query leaves the
    dropdown usable, and from a usable dropdown no key throws and every
    key leaves it usable: [Enter] on a selected index always finds its
    suggestion. *)
Theorem handleKeyDown_safe (key : Key) (st : BarState) :
  bar_ok st ->
  bar_ok (queryEffect st) /\
  exists st' call, handleKeyDown key st = Normal (st', call) /\ bar_ok st'.
Proof.
  intros Hok. split.
  - unfold queryEffect, bar_ok. destruct (0 <? length (barLastWord (query st))).
    + cbn [showSuggestions filteredSuggestions selectedIndex].
      intros Hlen%Nat.ltb_lt.
      destruct (List.filter _ SEARCH_SUGGESTIONS) as [|s l]; [simpl in Hlen; lia|].
      split; [done|]. cbn [length]. lia.
    + by cbn [showSuggestions].
  - unfold handleKeyDown. destruct (showSuggestions st) eqn:Es; cbn [negb].
    + destruct (Hok Es) as [Hne Hidx].
      assert (Hlen : 0 < length (filteredSuggestions st))
        by (destruct (filteredSuggestions st); [done|simpl; lia]).
      destruct (arrows_bounds _ _ Hlen Hidx) as [Hd Hu].
      destruct key.
      * eexists _, _. split; [reflexivity|]. intros _. split; [done|].
        cbn [filteredSuggestions selectedIndex]. lia.
      * eexists _, _. split; [reflexivity|]. intros _. split; [done|].
        cbn [filteredSuggestions selectedIndex]. lia.
      * destruct (0 <=? selectedIndex st)%Z eqn:E0.
        -- apply Z.leb_le in E0. unfold applySelected.
           destruct (lookup_lt_is_Some_2 (filteredSuggestions st)
                       (Z.to_nat (selectedIndex st)) ltac:(lia)) as [s ->].
           cbn [mbind completion_bind]. eexists _, _. split; [reflexivity|].
           intros H. by cbn [showSuggestions] in H.
        -- destruct (handleSearch_normal st) as (st' & call & -> & Hf & Hi & Hs).
           eexists _, _. split; [reflexivity|]. intros H.
           rewrite Hf, Hi. by apply Hok, Hs.
      * eexists _, _. split; [reflexivity|]. intros H.
        by cbn [showSuggestions] in H.
      * eexists _, _. split; [reflexivity|]. done.
    + destruct key; try (eexists _, _; split; [reflexivity|done]).
      destruct (handleSearch_normal st) as (st' & call & -> & Hf & Hi & Hs).
      eexists _, _. split; [reflexivity|]. intros H. apply Hs in H. congruence.
Qed.

Lemma handleKeyDown_safe_witness :
  bar_ok (mkBarState "ti" true [mkSuggestion TField "title:"] 0) /\
  exists st' call,
    handleKeyDown Enter (mkBarState "ti" true [mkSuggestion TField "title:"] 0) =
      Normal (st', call) /\ bar_ok st'.
Proof.
  assert (H : bar_ok (mkBarState "ti" true [mkSuggestion TField "title:"] 0)).
  { intros _. simpl. split; [done|lia]. }
  split; [exact H | exact (proj2 (handleKeyDown_safe Enter _ H))].
Defined.

(** X18.  Focus can reopen the dropdown on an empty list of suggestions,
    and the keyboard then throws: with a query typed that has no
    suggestion, after focus [ArrowDown] selects index [0] of the empty
    list and [Enter] reads [text] of [undefined]. *)
Theorem focus_then_keys_throw (st : BarState) :
  query st <> [] -> filteredSuggestions st = [] ->
  (-1 <= selectedIndex st)%Z ->
  exists st',
    handleKeyDown ArrowDown (onFocus st) = Normal (st', None) /\
    selectedIndex st' = 0%Z /\
    handleKeyDown Enter st' = TypeError.
Proof.
  intros Hq Hf Hi. unfold onFocus.
  replace (0 <? length (query st)) with true
    by (destruct (query st); [done|reflexivity]).
  unfold handleKeyDown at 1. cbn [showSuggestions negb filteredSuggestions selectedIndex query].
  eexists. split; [reflexivity|]. rewrite Hf. cbn [length].
  assert (Hd : arrowDown 0 (selectedIndex st) = 0%Z).
  { unfold arrowDown. destruct (selectedIndex st <? Z.of_nat 0 - 1)%Z eqn:E; [|done].
    apply Z.ltb_lt in E. lia. }
  rewrite Hd. cbn [selectedIndex]. split; [done|]. reflexivity.
Qed.

Lemma focus_then_keys_throw_witness :
  queryEffect (mkBarState "zzz" false [] (-1)) = mkBarState "zzz" false [] (-1) /\
  exists st',
    handleKeyDown ArrowDown (onFocus (mkBarState "zzz" false [] (-1))) =
      Normal (st', None) /\
    selectedIndex st' = 0%Z /\ handleKeyDown Enter st' = TypeError.
Proof.
  split; [vm_compute; reflexivity|].
  apply (focus_then_keys_throw (mkBarState "zzz" false [] (-1))); [done|done|simpl; lia].
Defined.

End BarExtras.

(** * The filter panel, the item pipeline and the tag form *)

Module PanelExtras.
Import JS SearchParser Spec SpecExtra ListFacts FilterClaims ValidateExtras.
Import AdvancedFilters.

Lemma default_orUndefined l : default [] (orUndefined l) = l.
Proof. by destruct l. Qed.

Lemma orUndefined_not_nil l : orUndefined l <> Some [].
Proof. by destruct l. Qed.

Lemma orUndefined_id o : o <> Some [] -> orUndefined (default [] o) = o.
Proof. destruct o as [[|a l]|]; done. Qed.

Lemma elem_of_without x u l : u ∈ without x l <-> u ∈ l /\ u <> x.
Proof.
  unfold without. rewrite !list_elem_of_In, filter_In, negb_true_iff.
  by rewrite bool_decide_eq_false.
Qed.

Lemma without_id x l : x ∉ l -> without x l = l.
Proof.
  unfold without. induction l as [|a l IH]; intros H; simpl; [done|].
  apply not_elem_of_cons in H as [Hx Hl].
  rewrite bool_decide_false by done. simpl. by rewrite IH.
Qed.

Lemma without_snoc x l : x ∉ l -> without x (l ++ [x]) = l.
Proof.
  intros H. unfold without. rewrite List.filter_app. simpl.
  rewrite bool_decide_true by done. simpl. rewrite app_nil_r.
  by apply without_id.
Qed.

Lemma NoDup_without x l : NoDup l -> NoDup (without x l).
Proof.
  induction 1 as [|a l Ha Hl IH]; [apply NoDup_nil_2|].
  unfold without. simpl. destruct (bool_decide (a = x)); simpl; [done|].
  apply NoDup_cons_2; [|done]. intros Hin. apply Ha.
  by apply elem_of_without in Hin as [? _].
Qed.

Lemma NoDup_snoc (x : jsstring) l : NoDup l -> x ∉ l -> NoDup (l ++ [x]).
Proof.
  intros Hl Hx. apply NoDup_app. split_and!; [done| |apply NoDup_singleton].
  intros u Hu Hux. apply list_elem_of_singleton in Hux as ->. done.
Qed.

Lemma Forall_without (P : jsstring -> Prop) x l : Forall P l -> Forall P (without x l).
Proof.
  intros H. apply Forall_forall. intros u [Hu _]%elem_of_without.
  rewrite Forall_forall in H. by apply H.
Qed.

(** X19.  Clicking a content type toggles it: afterwards the type is
    listed exactly when it was not, every other type is listed exactly
    when it was, an empty list is never stored, and the other filters are
    untouched. *)
Theorem handleContentTypeChange_toggle (type : jsstring) (filters : SearchFilters) :
  let types f := default [] (f_contentType f) in
  let filters' := handleContentTypeChange type filters in
  (type ∈ types filters' <-> type ∉ types filters) /\
  (forall u, u <> type -> u ∈ types filters' <-> u ∈ types filters) /\
  f_contentType filters' <> Some [] /\
  f_tags filters' = f_tags filters /\ f_dateRange filters' = f_dateRange filters.
Proof.
  cbv zeta. unfold handleContentTypeChange.
  cbn [f_contentType f_tags f_dateRange]. rewrite default_orUndefined.
  split_and!; [| |apply orUndefined_not_nil|done|done].
  - case_bool_decide as H.
    + rewrite elem_of_without. tauto.
    + rewrite elem_of_app, list_elem_of_singleton. tauto.
  - intros u Hu. case_bool_decide as H.
    + rewrite elem_of_without. tauto.
    + rewrite elem_of_app, list_elem_of_singleton. tauto.
Qed.

(** X20.  The handlers of the panel keep its filters well formed: no
    empty list stored, no type and no tag listed twice, no blank tag. *)
Theorem panel_handlers_ok (x : jsstring) (filters : SearchFilters) :
  panel_ok filters ->
  panel_ok (handleContentTypeChange x filters) /\
  panel_ok (handleTagAdd x filters) /\
  panel_ok (handleTagRemove x filters) /\
  panel_ok clearFilters.
Proof.
  intros (Hc & Ht & Hdc & Hdt & Hb). split_and!.
  - unfold panel_ok, handleContentTypeChange.
    cbn [f_contentType f_tags f_dateRange]. rewrite default_orUndefined.
    split_and!; [apply orUndefined_not_nil|done| |done|done].
    case_bool_decide as H; [by apply NoDup_without|by apply NoDup_snoc].
  - unfold handleTagAdd. case_bool_decide as Hx; [done|].
    case_bool_decide as Hin; cbn [negb]; [done|].
    unfold panel_ok. cbn [f_contentType f_tags f_dateRange default].
    split_and!; [done|by destruct (default [] (f_tags filters))|done|
                 by apply NoDup_snoc|].
    apply Forall_app. split; [done|]. apply Forall_singleton.
    destruct (blank x) eqn:E; [|done]. by apply trim_nil_iff in E.
  - unfold panel_ok, handleTagRemove.
    cbn [f_contentType f_tags f_dateRange]. rewrite default_orUndefined.
    split_and!; [done|apply orUndefined_not_nil|done|by apply NoDup_without|
                 by apply Forall_without].
  - unfold panel_ok, clearFilters. simpl.
    split_and!; [done|done|apply NoDup_nil_2|apply NoDup_nil_2|done].
Qed.

Lemma panel_ok_sample :
  panel_ok (mkSearchFilters (Some ["note"]) (Some ["react"; "hooks"]) None).
Proof.
  unfold panel_ok. simpl. split_and!; [done|done| | |].
  - apply NoDup_singleton.
  - apply NoDup_cons. split; [|apply NoDup_singleton].
    by intros H%list_elem_of_singleton.
  - by repeat constructor.
Defined.

Lemma panel_handlers_ok_witness :
  panel_ok (mkSearchFilters (Some ["note"]) (Some ["react"; "hooks"]) None) /\
  panel_ok (handleTagRemove "react"
              (mkSearchFilters (Some ["note"]) (Some ["react"; "hooks"]) None)).
Proof.
  split; [exact panel_ok_sample|].
  exact (proj1 (proj2 (proj2 (panel_handlers_ok "react" _ panel_ok_sample)))).
Defined.

(** X21.  Undoing in the panel restores the filters: on well-formed
    filters, clicking an unlisted content type twice, and adding then
    removing a tag that is neither blank nor listed, both give back the
    filters as they were. *)
Theorem panel_undo (x : jsstring) (filters : SearchFilters) :
  panel_ok filters ->
  (x ∉ default [] (f_contentType filters) ->
   handleContentTypeChange x (handleContentTypeChange x filters) = filters) /\
  (blank x = false -> x ∉ default [] (f_tags filters) ->
   handleTagRemove x (handleTagAdd x filters) = filters).
Proof.
  intros (Hc & Ht & _). split.
  - intros Hx. unfold handleContentTypeChange at 2.
    rewrite bool_decide_false by done.
    unfold handleContentTypeChange. cbn [f_contentType f_tags f_dateRange].
    rewrite default_orUndefined.
    rewrite bool_decide_true by (apply elem_of_app; right; apply list_elem_of_here).
    rewrite without_snoc by done. rewrite orUndefined_id by done.
    by destruct filters.
  - intros Hb Hx. unfold handleTagAdd.
    rewrite bool_decide_false
      by (intros E; apply trim_nil_iff in E; congruence).
    rewrite bool_decide_false by done. cbn [negb].
    unfold handleTagRemove. cbn [f_contentType f_tags f_dateRange default].
    unfold id. rewrite without_snoc by done. rewrite orUndefined_id by done.
    by destruct filters.
Qed.

Lemma panel_undo_witness :
  panel_ok (mkSearchFilters (Some ["note"]) (Some ["react"; "hooks"]) None) /\
  handleTagRemove "css"
    (handleTagAdd "css"
       (mkSearchFilters (Some ["note"]) (Some ["react"; "hooks"]) None)) =
  mkSearchFilters (Some ["note"]) (Some ["react"; "hooks"]) None.
Proof.
  split; [exact panel_ok_sample|].
  refine (proj2 (panel_undo "css" _ panel_ok_sample) eq_refl _).
  simpl. intros H. repeat (apply elem_of_cons in H as [H|H]; [done|]).
  by apply elem_of_nil in H.
Defined.

Section Pipeline.
Variable Date_parse : jsstring -> option Z.
Variable Date_toDateString : Z -> jsstring.

Abbreviation filter := (filter Date_parse Date_toDateString).
Abbreviation applyFilters := (App.applyFilters Date_parse).
Abbreviation selectItems := (App.selectItems Date_parse Date_toDateString).

(** X22.  When the panel counts no active filter, its stages change
    nothing: the items shown are those selected by the search query. *)
Theorem no_active_filters (filters : SearchFilters) (items : list ContentItem) :
  getActiveFiltersCount filters = 0 -> applyFilters filters items = items.
Proof.
  unfold getActiveFiltersCount, App.applyFilters.
  destruct (nonEmpty (f_contentType filters)), (nonEmpty (f_tags filters)),
    (hasStart filters), (hasEnd filters); simpl; intros H;
    first [ discriminate H | reflexivity ].
Qed.

(** X23.  The tag stage of the panel is the [tags] condition of the
    query language with a sequence of values, and the type stage with one
    type is its [type] condition: each keeps the records that [filter]
    keeps for the query with that single entry. *)
Theorem panel_stage_as_query (items : list ContentItem) :
  (forall filterTags,
     App.byTags filterTags items =
     filter items (mkParsedQuery {["tags" := VArray filterTags]} [] None (Some []))) /\
  (forall type,
     App.byContentType [type] items =
     filter items (mkParsedQuery {["type" := VString type]} [] None (Some []))).
Proof.
  split.
  - intros ts. unfold App.byTags, SearchParser.filter. apply filter_ext.
    intros item. unfold item_matches. cbn [fields dateFilters fullText].
    rewrite map_to_list_singleton. reflexivity.
  - intros t. unfold App.byContentType, SearchParser.filter. apply filter_ext.
    intros item. unfold item_matches. cbn [fields dateFilters fullText].
    rewrite map_to_list_singleton. cbn [fold_left fullText_step field_step].
    apply bool_decide_ext. rewrite list_elem_of_singleton. done.
Qed.

(** X24.  The selection of the items to show always returns, and what it
    returns is a subsequence of the items: nothing is invented and the
    order is kept. *)
Theorem selectItems_sublist (searchQuery : jsstring) (filters : SearchFilters)
  (contentItems : list ContentItem) :
  exists shown,
    selectItems searchQuery filters contentItems = Normal shown /\
    sublist shown contentItems.
Proof.
  assert (Hstage : forall l, sublist (applyFilters filters l) l).
  { intros l. unfold App.applyFilters.
    destruct (nonEmpty (f_contentType filters)), (nonEmpty (f_tags filters)),
      (hasStart filters), (hasEnd filters);
      unfold App.byContentType, App.byTags, App.fromDate, App.toDate;
      repeat (first [ done | etrans; [apply List_filter_sublist|] ]). }
  unfold App.selectItems. destruct (negb _).
  - destruct (ParseFacts.parse_normal searchQuery) as [r ->].
    cbn [mbind completion_bind]. eexists. split; [reflexivity|].
    etrans; [apply Hstage|]. apply List_filter_sublist.
  - cbn [mbind completion_bind]. eexists. split; [reflexivity|]. apply Hstage.
Qed.

End Pipeline.

Lemma no_active_filters_witness :
  getActiveFiltersCount (mkSearchFilters (Some []) None (Some ([], []))) = 0 /\
  App.applyFilters (fun _ => None) (mkSearchFilters (Some []) None (Some ([], [])))
    mockItems = mockItems.
Proof.
  split; [reflexivity|].
  exact (no_active_filters (fun _ => None)
           (mkSearchFilters (Some []) None (Some ([], []))) mockItems eq_refl).
Defined.

Lemma trim_idem s : trim (trim s) = trim s.
Proof.
  destruct (ParseExtras.trim_ends s) as [H1 H2].
  unfold trim at 1. unfold trimEnd. by rewrite H1, H2, rev_involutive.
Qed.

(** X25.  The tag form keeps its tags well formed: none twice, none
    empty, each without whitespace at its ends, after adding and after
    removing; and adding a tag then removing it leaves the tags that
    removing it at once leaves. *)
Theorem form_tags_ok (tags : list jsstring) (input : jsstring) :
  tags_ok tags ->
  tags_ok (AddContentDialog.addTag tags input).1 /\
  tags_ok (AddContentDialog.removeTag tags input) /\
  AddContentDialog.removeTag (AddContentDialog.addTag tags input).1 (trim input) =
  AddContentDialog.removeTag tags (trim input).
Proof.
  intros [Hnd Hall]. unfold AddContentDialog.addTag, AddContentDialog.removeTag.
  fold (without input tags). fold (without (trim input) tags). split_and!.
  - case_bool_decide as He; cbn [negb andb]; [done|].
    case_bool_decide as Hin; cbn [negb fst]; [done|].
    split; [by apply NoDup_snoc|]. apply Forall_app. split; [done|].
    apply Forall_singleton. split; [done|apply trim_idem].
  - split; [by apply NoDup_without|by apply Forall_without].
  - case_bool_decide as He; cbn [negb andb fst]; [done|].
    case_bool_decide as Hin; cbn [negb fst]; [done|].
    fold (without (trim input) (tags ++ [trim input])).
    rewrite without_snoc by done. by rewrite without_id.
Qed.

Lemma form_tags_ok_witness :
  tags_ok ["react"] /\ tags_ok (AddContentDialog.addTag ["react"] " hooks ").1.
Proof.
  assert (H : tags_ok ["react"]).
  { split; [apply NoDup_singleton|]. by repeat constructor. }
  split; [exact H | exact (proj1 (form_tags_ok ["react"] " hooks " H))].
Defined.

End PanelExtras.

(** * Further properties of [highlight] and of [getSuggestions] *)

Module HighlightExtras.
Import Regex JS SearchParser Spec SpecExtra ListFacts RegexFacts JSFacts.
Import HighlightClaims.

Lemma ci_eq_startsWith mt term rest :
  ci_eq mt term -> ci_startsWith term (mt ++ rest) = true.
Proof.
  unfold ci_eq. revert mt. induction term as [|c term IH]; intros mt H; [done|].
  destruct mt as [|a mt]; [done|]. simpl in H. injection H as Ha H.
  simpl. rewrite IH by done. unfold Char.is_ci. by rewrite bool_decide_true.
Qed.

Lemma Highlighted_sublist term text out :
  Highlighted term text out -> sublist text out.
Proof.
  induction 1 as [text _|before mt rest out _ _ _ IH]; [done|].
  apply sublist_app; [done|]. apply sublist_inserts_l.
  apply sublist_app; [done|]. by apply sublist_inserts_l.
Qed.

Lemma Highlighted_same term text out :
  Highlighted term text out ->
  out = text <-> forall p1 p2, text = p1 ++ p2 -> ci_startsWith term p2 = false.
Proof.
  intros H. destruct H as [text Hno|before mt rest out Hci _ Hrest]; [done|].
  split.
  - intros Heq. exfalso. apply (f_equal length) in Heq.
    apply Highlighted_sublist, sublist_length in Hrest.
    rewrite !length_app in Heq. unfold markOpen, markClose in Heq.
    rewrite !length_app in Heq. simpl in Heq. lia.
  - intros Hno. specialize (Hno before (mt ++ rest) eq_refl).
    by rewrite ci_eq_startsWith in Hno.
Qed.

Lemma highlight_Highlighted text term :
  term <> [] -> Highlighted term text (highlight text term).
Proof.
  intros Hne. unfold highlight. rewrite bool_decide_false by done.
  rewrite compile_escaped. by apply highlight_loop; [|lia].
Qed.

(** X26.  [highlight] leaves a text unchanged exactly when the term does
    not occur in it up to case: a result equal to the text means that no
    suffix of the text begins with the term as the [i] flag compares code
    units, and any occurrence changes the result. *)
Theorem highlight_unchanged_iff (text term : jsstring) :
  term <> [] ->
  highlight text term = text <->
  forall p1 p2, text = p1 ++ p2 -> ci_startsWith term p2 = false.
Proof.
  intros Hne. apply Highlighted_same. by apply highlight_Highlighted.
Qed.

Lemma highlight_unchanged_iff_witness :
  highlight "Team notes" "budget" = "Team notes" <->
  forall p1 p2, "Team notes" = p1 ++ p2 -> ci_startsWith "budget" p2 = false.
Proof.
  exact (highlight_unchanged_iff "Team notes" "budget" ltac:(discriminate)).
Defined.

(** X27.  [highlight] only inserts: the text is a subsequence of the
    result, so every character of the text, markup included, reaches the
    result unescaped and in order. *)
Theorem highlight_keeps_text (text term : jsstring) :
  sublist text (highlight text term) /\
  length text <= length (highlight text term).
Proof.
  assert (H : sublist text (highlight text term)).
  { destruct term as [|c term]; [done|].
    eapply Highlighted_sublist. by apply highlight_Highlighted. }
  split; [done|]. by apply sublist_length.
Qed.

End HighlightExtras.

Module SuggestExtras.
Import Regex JS SearchParser Spec SpecExtra ListFacts RegexFacts JSFacts.
Import SuggestClaims.

Lemma getSuggestions_groups query items :
  getSuggestions query items =
    (if length (lastToken query) <? 2 then []
     else take 10
            (group titleSuggestion (toLowerCase (lastToken query)) (map title items) ++
             group tagSuggestion (toLowerCase (lastToken query)) (concat (map tags items)) ++
             group typeSuggestion (toLowerCase (lastToken query)) (map contentType items))).
Proof.
  unfold getSuggestions, suggest, group.
  rewrite !uniq_first_occurrences, lastWord_spec.
  unfold toLowerCase at 1. by rewrite length_map.
Qed.

Lemma NoDup_List_filter {A : Type} (f : A -> bool) l :
  NoDup l -> NoDup (List.filter f l).
Proof.
  induction 1 as [|a l Ha Hl IH]; [apply NoDup_nil_2|]. simpl.
  destruct (f a); [|done]. apply NoDup_cons_2; [|done].
  intros Hin. apply Ha. by apply list_elem_of_In, filter_In in Hin as [?%list_elem_of_In _].
Qed.

Lemma NoDup_map_inj {A B : Type} (f : A -> B) l :
  (forall x y, f x = f y -> x = y) -> NoDup l -> NoDup (map f l).
Proof.
  intros Hinj. induction 1 as [|a l Ha Hl IH]; [apply NoDup_nil_2|]. simpl.
  apply NoDup_cons_2; [|done]. intros Hin.
  apply list_elem_of_In, in_map_iff in Hin as (y & Hy & Hin).
  apply Hinj in Hy as ->. by apply Ha, list_elem_of_In.
Qed.

Lemma group_NoDup fmt w values :
  (forall x y, fmt x = fmt y -> x = y) -> NoDup (group fmt w values).
Proof.
  intros Hinj. unfold group. apply NoDup_map_inj; [done|].
  apply NoDup_List_filter, first_occurrences_NoDup.
Qed.

Lemma group_elem fmt w values s :
  s ∈ group fmt w values <->
  exists v, s = fmt v /\ v ∈ values /\ includes (toLowerCase v) w = true.
Proof.
  unfold group. rewrite list_elem_of_In, in_map_iff. split.
  - intros (v & <- & Hv). apply filter_In in Hv as [Hv Hi].
    exists v. split_and!; [done| |done].
    by apply first_occurrences_elem, list_elem_of_In.
  - intros (v & -> & Hv & Hi). exists v. split; [done|]. apply filter_In.
    split; [|done]. by apply list_elem_of_In, first_occurrences_elem.
Qed.

(** X28.  No suggestion is offered twice, and every suggestion comes
    from a record: it is the title suggestion of a title, the tag
    suggestion of a tag or the type suggestion of a type of some record,
    and that value contains the last token of the query up to case. *)
Theorem getSuggestions_sound (query : jsstring) (items : list ContentItem) :
  NoDup (getSuggestions query items) /\
  forall s, s ∈ getSuggestions query items ->
    exists item v,
      item ∈ items /\
      includes (toLowerCase v) (toLowerCase (lastToken query)) = true /\
      ((s = titleSuggestion v /\ v = title item) \/
       (s = tagSuggestion v /\ v ∈ tags item) \/
       (s = typeSuggestion v /\ v = contentType item)).
Proof.
  rewrite getSuggestions_groups. destruct (_ <? _).
  { split; [apply NoDup_nil_2|]. by intros s H%elem_of_nil. }
  set (w := toLowerCase (lastToken query)). split.
  - eapply sublist_NoDup; [|apply sublist_take].
    apply NoDup_app. split_and!.
    + apply group_NoDup. intros x y H. unfold titleSuggestion in H.
      apply (app_inv_head "title:") in H. simpl in H. injection H as H.
      by apply app_inv_tail in H.
    + intros s [v1 (-> & _)]%group_elem Hin.
      apply elem_of_app in Hin as [[v2 (H & _)]%group_elem|[v2 (H & _)]%group_elem];
        discriminate H.
    + apply NoDup_app. split_and!.
      * apply group_NoDup. intros x y H. by apply (app_inv_head "tags:") in H.
      * intros s [v1 (-> & _)]%group_elem [v2 (H & _)]%group_elem. discriminate H.
      * apply group_NoDup. intros x y H. by apply (app_inv_head "type:") in H.
  - intros s Hs. apply elem_of_take in Hs as (i & Hs & _).
    apply list_elem_of_lookup_2 in Hs.
    rewrite !elem_of_app, !group_elem in Hs.
    destruct Hs as [(v & -> & Hv & Hi)|[(v & -> & Hv & Hi)|(v & -> & Hv & Hi)]].
    + apply list_elem_of_In, in_map_iff in Hv as (item & <- & Hin).
      exists item, (title item). split_and!; [by apply list_elem_of_In|done|tauto].
    + apply list_elem_of_In, in_concat in Hv as (ts & Hts & Hin).
      apply in_map_iff in Hts as (item & <- & Hitem).
      exists item, v. split_and!; [by apply list_elem_of_In|done|].
      right. left. split; [done|]. by apply list_elem_of_In.
    + apply list_elem_of_In, in_map_iff in Hv as (item & <- & Hin).
      exists item, (contentType item).
      split_and!; [by apply list_elem_of_In|done|tauto].
Qed.

End SuggestExtras.

(** * A plain query, end to end *)

Module SearchExtras.
Import Regex JS SearchParser Spec SpecExtra ListFacts RegexFacts JSFacts ParseFacts.
Import FilterClaims.

Section Evaluator.
Variable Date_parse : jsstring -> option Z.
Variable Date_toDateString : Z -> jsstring.

Abbreviation filter := (filter Date_parse Date_toDateString).

(** X29.  A query without a colon is a free-text search: parsed and
    applied, it keeps the records whose title, content or some tag
    contains the normalized query up to case. *)
Theorem plain_query_search (q : jsstring) (items : list ContentItem) :
  no_colon q ->
  exists r,
    parse q = Normal r /\
    filter items r =
    List.filter (fun item => fullText_pred item (Some (normalized q))) items.
Proof.
  intros H. eexists. split.
  - unfold parse.
    by rewrite (fieldMatches_none _ (no_colon_normalize _ H)), normalize_spec.
  - unfold SearchParser.filter. apply filter_ext. intros item.
    rewrite item_matches_all_preds. unfold all_preds, set_fullText, emptyResult.
    cbn [fields dateFilters fullText default forallb].
    by rewrite map_to_list_empty.
Qed.

End Evaluator.

Lemma plain_query_search_witness :
  no_colon "React  hooks" /\
  exists r,
    parse "React  hooks" = Normal r /\
    SearchParser.filter (fun _ => None) (fun _ => []) mockItems r =
    List.filter (fun item => fullText_pred item (Some (normalized "React  hooks")))
                mockItems.
Proof.
  assert (H : no_colon "React  hooks").
  { unfold no_colon. repeat (apply Forall_cons; split; [done|]). by apply Forall_nil. }
  split; [exact H|].
  exact (plain_query_search (fun _ => None) (fun _ => []) "React  hooks" mockItems H).
Defined.

End SearchExtras.

(** * The search bar: applying a suggestion *)

Module ApplyExtras.
Import Regex JS SearchParser Spec SpecExtra ListFacts RegexFacts JSFacts.
Import SQLSearchBar.

Lemma barLastWord_spec q : barLastWord q = lastToken q.
Proof.
  unfold barLastWord, split, whitespaceRegex, space.
  rewrite (split_loop_runs _ (length q)) by lia. apply last_pieces.
Qed.

Lemma join_snoc sep l x :
  join sep (l ++ [x]) =
  match l with [] => x | _ :: _ => join sep l ++ sep ++ x end.
Proof.
  induction l as [|a l IH]; [done|]. destruct l as [|b l]; [done|].
  change (join sep ((a :: b :: l) ++ [x]))
    with (a ++ sep ++ join sep ((b :: l) ++ [x])).
  rewrite IH. change (join sep (a :: b :: l)) with (a ++ sep ++ join sep (b :: l)).
  by rewrite <- !app_assoc.
Qed.

Lemma lastToken_plain t : existsb Char.is_space t = false -> lastToken t = t.
Proof. intros H. destruct t as [|a t]; [done|]. cbn [lastToken]. by rewrite H. Qed.

Lemma existsb_middle x sp t :
  Char.is_space sp = true -> existsb Char.is_space (x ++ sp :: t) = true.
Proof. intros H. rewrite existsb_app. simpl. rewrite H. apply orb_true_r. Qed.

Lemma lastToken_after_space x sp t :
  Char.is_space sp = true -> existsb Char.is_space t = false ->
  lastToken (x ++ sp :: t) = t.
Proof.
  intros Hsp Ht. induction x as [|a x IH].
  - cbn [app lastToken existsb]. rewrite Hsp. cbn [orb].
    by apply lastToken_plain.
  - pose proof (existsb_middle (a :: x) sp t Hsp) as He.
    change ((a :: x) ++ sp :: t) with (a :: (x ++ sp :: t)) in *.
    cbn [lastToken]. by rewrite He.
Qed.

(** Every suggestion of the bar is one non-empty token. *)
Lemma suggestions_tokens s :
  s ∈ SEARCH_SUGGESTIONS ->
  existsb Char.is_space (text s) = false /\ text s <> [].
Proof.
  intros Hs.
  assert (H : forallb (fun s => negb (existsb Char.is_space (text s)) &&
                                (0 <? length (text s))) SEARCH_SUGGESTIONS = true)
    by reflexivity.
  rewrite forallb_forall in H. apply list_elem_of_In, H in Hs.
  apply andb_true_iff in Hs as [H1 H2]. apply negb_true_iff in H1.
  split; [done|]. by destruct (text s).
Qed.

Lemma startsWith_refl s : startsWith s s = true.
Proof. induction s as [|a s IH]; simpl; [done|]. by rewrite bool_decide_true. Qed.

Lemma includes_refl s : includes s s = true.
Proof. destruct s; simpl; [done|]. by rewrite bool_decide_true, startsWith_refl. Qed.

(** The last token after a suggestion of the bar has been applied. *)
Lemma applySuggestion_token (q : jsstring) (s : SearchSuggestion) :
  s ∈ SEARCH_SUGGESTIONS ->
  barLastWord (applySuggestion q s) =
  match stype s with TField => text s | _ => [] end.
Proof.
  intros Hs. destruct (suggestions_tokens s Hs) as [Hplain Hne].
  rewrite barLastWord_spec. unfold applySuggestion.
  destruct (stype s) eqn:Et.
  - unfold setLast. rewrite app_nil_r, join_snoc.
    destruct (removelast _); [by apply lastToken_plain|].
    exact (lastToken_after_space _ " "%char _ eq_refl Hplain).
  - exact (lastToken_after_space _ " "%char [] eq_refl eq_refl).
  - exact (lastToken_after_space _ " "%char [] eq_refl eq_refl).
  - exact (lastToken_after_space _ " "%char [] eq_refl eq_refl).
Qed.

(** When the effect shows the dropdown. *)
Lemma queryEffect_shown (st : BarState) :
  showSuggestions (queryEffect st) = true <->
  barLastWord (query st) <> [] /\
  List.filter (fun suggestion =>
                 includes (toLowerCase (text suggestion))
                          (toLowerCase (barLastWord (query st))))
              SEARCH_SUGGESTIONS <> [].
Proof.
  unfold queryEffect. destruct (barLastWord (query st)) as [|a w] eqn:Ew.
  - cbn [length Nat.ltb Nat.leb showSuggestions]. split; [done|]. by intros [? _].
  - replace (0 <? length (a :: w)) with true by reflexivity.
    cbn [showSuggestions]. destruct (List.filter _ SEARCH_SUGGESTIONS); simpl.
    + split; [done|]. by intros [_ ?].
    + split; [|done]. by intros _.
Qed.

(** X30.  [Enter] on the selected suggestion replaces the last token of
    the query: after a field suggestion the last token is the suggestion,
    after any other it is empty.  The effect runs only when the query has
    changed, so the dropdown is open afterwards exactly when the
    suggestion is a field suggestion and the query has changed. *)
Theorem enter_applies_suggestion (st : BarState) (s : SearchSuggestion) :
  showSuggestions st = true -> (0 <= selectedIndex st)%Z ->
  filteredSuggestions st !! Z.to_nat (selectedIndex st) = Some s ->
  s ∈ SEARCH_SUGGESTIONS ->
  exists st',
    handleKeyDown Enter st = Normal (st', None) /\
    query st' = applySuggestion (query st) s /\
    barLastWord (query st') =
      match stype s with TField => text s | _ => [] end /\
    (showSuggestions (afterRender st st') = true <->
     stype s = TField /\ query st' <> query st).
Proof.
  intros Hshow Hidx Hsel Hs.
  pose proof (applySuggestion_token (query st) s Hs) as Htok.
  destruct (suggestions_tokens s Hs) as [_ Hne].
  unfold handleKeyDown, applySelected. rewrite Hshow. cbn [negb].
  replace (0 <=? selectedIndex st)%Z with true by (symmetry; by apply Z.leb_le).
  rewrite Hsel. cbn [mbind completion_bind]. eexists. split; [reflexivity|].
  cbn [query]. split; [reflexivity|]. split; [exact Htok|].
  unfold afterRender. cbn [query]. case_bool_decide as Hq.
  - cbn [showSuggestions]. split; [done|]. by intros [_ ?].
  - rewrite queryEffect_shown. cbn [query]. rewrite Htok.
    destruct (stype s) eqn:Et.
    + split; [done|]. intros _. split; [done|].
      assert (Hin : s ∈ List.filter
                          (fun suggestion =>
                             includes (toLowerCase (text suggestion))
                                      (toLowerCase (text s)))
                          SEARCH_SUGGESTIONS).
      { apply list_elem_of_In, filter_In. split; [by apply list_elem_of_In|].
        apply includes_refl. }
      intros E. rewrite E in Hin. by apply elem_of_nil in Hin.
    + split; [by intros [? _]|by intros [? _]].
    + split; [by intros [? _]|by intros [? _]].
    + split; [by intros [? _]|by intros [? _]].
Qed.

Lemma enter_applies_suggestion_witness :
  exists st',
    handleKeyDown Enter (mkBarState "type:note  ta" true [mkSuggestion TField "tags:"] 0) =
      Normal (st', None) /\
    query st' = applySuggestion "type:note  ta" (mkSuggestion TField "tags:") /\
    barLastWord (query st') = "tags:" /\
    (showSuggestions
       (afterRender (mkBarState "type:note  ta" true [mkSuggestion TField "tags:"] 0)
                    st') = true <->
     TField = TField /\
     query st' <> "type:note  ta").
Proof.
  refine (enter_applies_suggestion
            (mkBarState "type:note  ta" true [mkSuggestion TField "tags:"] 0)
            (mkSuggestion TField "tags:") eq_refl _ eq_refl _).
  - simpl. lia.
  - unfold SEARCH_SUGGESTIONS. do 2 apply list_elem_of_further. apply list_elem_of_here.
Defined.

End ApplyExtras.

(** * getSuggestions over UTF-16 code units *)

Module SuggestUtf16.
Import ListFacts Utf16.

Lemma uniq_from_units (l : list ustring) : forall acc,
  fold_left (fun acc x => if bool_decide (x ∈ acc) then acc else acc ++ [x]) l acc =
  acc ++ List.filter (fun y => negb (bool_decide (y ∈ acc))) (first_occurrences l).
Proof.
  induction l as [|x l IH]; intros acc; simpl.
  - by rewrite app_nil_r.
  - rewrite filter_filter. case_bool_decide as Hx; simpl; rewrite IH.
    + f_equal. apply filter_ext. intros y.
      repeat case_bool_decide; simpl; try done; by subst.
    + rewrite <- app_assoc. simpl. do 2 f_equal. apply filter_ext. intros y.
      assert (Hy : y ∈ acc ++ [x] <-> y = x \/ y ∈ acc)
        by (rewrite elem_of_app, list_elem_of_singleton; tauto).
      repeat case_bool_decide; simpl; try done; tauto.
Qed.

Lemma uniq_units l : uniq l = first_occurrences l.
Proof.
  unfold uniq. rewrite uniq_from_units. simpl. by apply List_filter_all.
Qed.

Lemma split_spaces_length s : forall b, 1 <= length (split_spaces b s).
Proof.
  induction s as [|a s IH]; intros b; simpl; [lia|].
  destruct (is_space a); [destruct b; simpl; [apply IH | lia]|].
  destruct (split_spaces false s); simpl; lia.
Qed.

Lemma split_spaces_run s :
  existsb is_space s = true -> 2 <= length (split_spaces false s).
Proof.
  induction s as [|a s IH]; [done|]. simpl. intros H.
  destruct (is_space a) eqn:Ea; simpl.
  - pose proof (split_spaces_length s true). lia.
  - simpl in H. specialize (IH H). destruct (split_spaces false s); simpl in *; lia.
Qed.

Lemma split_spaces_no_run s :
  existsb is_space s = false -> split_spaces false s = [s].
Proof.
  induction s as [|a s IH]; [done|]. simpl. intros H.
  apply orb_false_elim in H as [Ha Hs]. by rewrite Ha, IH.
Qed.

(** The last piece of a split at whitespace is the last token. *)
Lemma last_split_spaces s : forall b,
  List.last (split_spaces b s) [] = lastToken s.
Proof.
  induction s as [|a s IH]; intros b; [done|].
  cbn [split_spaces lastToken existsb]. destruct (is_space a) eqn:Ea.
  - cbn [orb]. rewrite <- (IH true). destruct b; [done|].
    pose proof (split_spaces_length s true).
    by destruct (split_spaces true s).
  - cbn [orb]. destruct (existsb is_space s) eqn:Es.
    + rewrite <- (IH false). pose proof (split_spaces_run _ Es) as Hl.
      destruct (split_spaces false s) as [|w [|w' ws]]; simpl in Hl; [lia..|].
      done.
    + by rewrite split_spaces_no_run.
Qed.

(** The code unit U+0130 alone is a token of one code unit for which the
    program offers a suggestion: its lower case has two code units. *)
Lemma C8_counterexample :
  lastToken [0x130%N] = [0x130%N] /\
  length (lastToken [0x130%N]) = 1 /\
  lowerCase [0x130%N] = [0x69; 0x307]%N /\
  getSuggestions lowerCase [0x130%N]
    [mkContentItem (0x130%N :: widen "stanbul") (widen "note") []] =
    [titleSuggestion (0x130%N :: widen "stanbul")] /\
  getSuggestions lowerCase [0x130%N]
    [mkContentItem (0x130%N :: widen "stanbul") (widen "note") []] <> [].
Proof. split_and!; by vm_compute. Qed.

Section Runtime.
Variable toLowerCase : ustring -> ustring.

Lemma getSuggestions_units (query : ustring) (items : list ContentItem) :
  getSuggestions toLowerCase query items =
    (if length (toLowerCase (lastToken query)) <? 2 then []
     else take 10
            (group toLowerCase titleSuggestion (toLowerCase (lastToken query))
                   (map title items) ++
             group toLowerCase tagSuggestion (toLowerCase (lastToken query))
                   (concat (map tags items)) ++
             group toLowerCase typeSuggestion (toLowerCase (lastToken query))
                   (map contentType items))).
Proof.
  unfold getSuggestions, suggest, group, lastWord.
  by rewrite !uniq_units, last_split_spaces.
Qed.

(** C8, amended.  The guard is on the lower case of the last token: when
    the lower-cased last whitespace-delimited token of the query has fewer
    than two code units there is no suggestion; otherwise the suggestions
    are the first ten of: the title suggestions, then the tag suggestions,
    then the type suggestions, each group over the distinct values in
    order of first occurrence.  This holds for every lower-casing of the
    runtime. *)
Theorem C8_getSuggestions_lowered (query : ustring) (items : list ContentItem) :
  getSuggestions toLowerCase query items =
    (if length (toLowerCase (lastToken query)) <? 2 then []
     else take 10
            (group toLowerCase titleSuggestion (toLowerCase (lastToken query))
                   (map title items) ++
             group toLowerCase tagSuggestion (toLowerCase (lastToken query))
                   (concat (map tags items)) ++
             group toLowerCase typeSuggestion (toLowerCase (lastToken query))
                   (map contentType items))) /\
  length (getSuggestions toLowerCase query items) <= 10.
Proof.
  pose proof (getSuggestions_units query items) as H.
  split; [done|]. rewrite H. destruct (_ <? _); simpl; [lia|].
  rewrite length_take. lia.
Qed.

End Runtime.

End SuggestUtf16.

(** * The two embeddings of getSuggestions agree on Latin-1 *)

Module SuggestBridge.
Import JS SearchParser Spec ListFacts JSFacts SuggestClaims.

Lemma code_inj a b : Char.code a = Char.code b -> a = b.
Proof.
  unfold Char.code. intros H.
  rewrite <- (ascii_N_embedding a), <- (ascii_N_embedding b). by rewrite H.
Qed.

Lemma widen_inj s t : Utf16.widen s = Utf16.widen t -> s = t.
Proof.
  revert t. induction s as [|a s IH]; intros [|b t] H; try done.
  injection H as Ha H. f_equal; [by apply code_inj|by apply IH].
Qed.

Lemma is_space_code a : Utf16.is_space (Char.code a) = Char.is_space a.
Proof. destruct a as [[] [] [] [] [] [] [] []]; reflexivity. Qed.

Lemma lower_units_code a :
  Utf16.lower_units (Char.code a) = [Char.code (Char.toLower a)].
Proof. destruct a as [[] [] [] [] [] [] [] []]; reflexivity. Qed.

Lemma lowerCase_widen s :
  Utf16.lowerCase (Utf16.widen s) = Utf16.widen (toLowerCase s).
Proof.
  unfold Utf16.lowerCase, Utf16.widen, toLowerCase.
  induction s as [|a s IH]; [done|]. simpl. by rewrite lower_units_code, IH.
Qed.

Lemma startsWith_widen p s :
  Utf16.startsWith (Utf16.widen p) (Utf16.widen s) = startsWith p s.
Proof.
  revert s. induction p as [|a p IH]; intros [|b s]; try done. simpl.
  rewrite IH. f_equal. apply bool_decide_ext. split; [apply code_inj|by intros ->].
Qed.

Lemma includes_widen s t :
  Utf16.includes (Utf16.widen s) (Utf16.widen t) = includes s t.
Proof.
  induction s as [|a s IH].
  - simpl. change [] with (Utf16.widen []) at 1. by rewrite startsWith_widen.
  - change (Utf16.widen (a :: s)) with (Char.code a :: Utf16.widen s).
    cbn [Utf16.includes includes]. rewrite IH.
    change (Char.code a :: Utf16.widen s) with (Utf16.widen (a :: s)).
    by rewrite startsWith_widen.
Qed.

Lemma split_spaces_widen s : forall b,
  Utf16.split_spaces b (Utf16.widen s) = map Utf16.widen (pieces Char.is_space b s).
Proof.
  induction s as [|a s IH]; intros b; [done|].
  change (Utf16.widen (a :: s)) with (Char.code a :: Utf16.widen s).
  cbn [Utf16.split_spaces pieces]. rewrite is_space_code, !IH.
  destruct (Char.is_space a); [by destruct b|].
  by destruct (pieces Char.is_space false s).
Qed.

Lemma last_of_map {A B : Type} (f : A -> B) l d :
  List.last (map f l) (f d) = f (List.last l d).
Proof.
  induction l as [|a l IH]; [done|]. destruct l as [|b l]; [done|].
  exact IH.
Qed.

Lemma lastToken_widen s :
  Utf16.lastToken (Utf16.widen s) = Utf16.widen (lastToken s).
Proof.
  rewrite <- (SuggestUtf16.last_split_spaces _ false), <- (last_pieces _ false).
  rewrite split_spaces_widen. apply (last_of_map Utf16.widen _ []).
Qed.

Lemma filter_of_map {A B : Type} (f : B -> bool) (g : A -> B) l :
  List.filter f (map g l) = map g (List.filter (fun x => f (g x)) l).
Proof.
  induction l as [|a l IH]; [done|]. simpl. destruct (f (g a)); simpl; by rewrite IH.
Qed.

Lemma first_occurrences_widen l :
  Utf16.first_occurrences (map Utf16.widen l) =
  map Utf16.widen (first_occurrences l).
Proof.
  induction l as [|x l IH]; [done|]. simpl. rewrite IH, filter_of_map. do 2 f_equal.
  apply filter_ext. intros y. f_equal. apply bool_decide_ext.
  split; [apply widen_inj|by intros ->].
Qed.

Lemma group_widen fmt' fmt w values :
  (forall v, fmt' (Utf16.widen v) = Utf16.widen (fmt v)) ->
  Utf16.group Utf16.lowerCase fmt' (Utf16.widen w) (map Utf16.widen values) =
  map Utf16.widen (group fmt w values).
Proof.
  intros Hfmt. unfold Utf16.group, group.
  rewrite first_occurrences_widen, filter_of_map, !map_map.
  erewrite (filter_ext (fun x => Utf16.includes _ _)).
  - apply map_ext. intros v. apply Hfmt.
  - intros v. by rewrite lowerCase_widen, includes_widen.
Qed.

Lemma widen_app s t : Utf16.widen (s ++ t) = Utf16.widen s ++ Utf16.widen t.
Proof. apply map_app. Qed.

(** On Latin-1 strings the embedding over UTF-16 code units computes the
    suggestions of the Latin-1 embedding. *)
Lemma getSuggestions_widen (query : jsstring) (items : list ContentItem) :
  Utf16.getSuggestions Utf16.lowerCase (Utf16.widen query) (map widenItem items) =
  map Utf16.widen (getSuggestions query items).
Proof.
  rewrite SuggestUtf16.getSuggestions_units, SuggestExtras.getSuggestions_groups.
  rewrite lastToken_widen, lowerCase_widen.
  unfold Utf16.widen at 1. rewrite length_map.
  unfold toLowerCase at 1. rewrite length_map.
  destruct (length (lastToken query) <? 2); [done|].
  rewrite <- firstn_map, !map_app. f_equal.
  assert (Ht : map Utf16.title (map widenItem items) =
               map Utf16.widen (map title items))
    by (rewrite !map_map; done).
  assert (Hc : map Utf16.contentType (map widenItem items) =
               map Utf16.widen (map contentType items))
    by (rewrite !map_map; done).
  assert (Hg : concat (map Utf16.tags (map widenItem items)) =
               map Utf16.widen (concat (map tags items))).
  { rewrite concat_map, !map_map. done. }
  rewrite Ht, Hc, Hg. f_equal; [|f_equal].
  - apply group_widen. intros v. unfold Utf16.titleSuggestion, titleSuggestion.
    by rewrite !widen_app.
  - apply group_widen. intros v. unfold Utf16.tagSuggestion, tagSuggestion.
    by rewrite widen_app.
  - apply group_widen. intros v. unfold Utf16.typeSuggestion, typeSuggestion.
    by rewrite widen_app.
Qed.

End SuggestBridge.
